(** * AppEngine-SocketPool: the pool coordinator, the APNs sender and the
      restartable SHA-1 digest, embedded from the Python sources

    - [PureSha1]   : src/tlslite/pickable/pureSha1.py
    - [SocketPool] : src/socketPool.py
    - [Apn]        : src/apn.py

    Python byte strings ([str]) are [list byte]; Python integers are [Z];
    a raised exception is a value of [exn]. *)

From Stdlib Require Import ZArith List Lia Bool Ascii String QArith_base.
From Stdlib.Strings Require Import Byte.
From stdpp Require Import base option list strings gmap pretty.

Close Scope Q_scope.
Local Open Scope Z_scope.

(** ** Exceptions of the Python code *)

Inductive exn : Type :=
| IOError (errno : Z)
| TypeError
| ValueError
| IndexError
| AttributeError
| AssertionError
| UnicodeDecodeError
| UnicodeEncodeError
| StructError
| OtherError (tag : Z).

Definition is_IOError (e : exn) : bool :=
  match e with IOError _ => true | _ => false end.

(** ** src/tlslite/pickable/pureSha1.py *)

Module PureSha1.

(** [ord]: the code of a one-character byte string. *)
Definition ord (b : byte) : Z := Z.of_N (Byte.to_N b).

(** [chr]: raises [ValueError] outside of [range(256)]. *)
Definition chr (n : Z) : option byte :=
  if (0 <=? n) && (n <? 256) then Byte.of_N (Z.to_N n) else None.

(** [sha1.lrot]; on Python integers [32 - b] binds tighter than [>>]. *)
Definition lrot (num b : Z) : Z :=
  Z.lor (Z.land (Z.shiftl num b) 0xFFFFFFFF) (Z.shiftr num (32 - b)).

(** [sha1.BE32]; indexing past the end raises [IndexError]. *)
Definition BE32 (byteData : list byte) : option Z :=
  b0 ← byteData !! 0%nat;
  b1 ← byteData !! 1%nat;
  b2 ← byteData !! 2%nat;
  b3 ← byteData !! 3%nat;
  Some (Z.lor (Z.lor (Z.lor (Z.shiftl (ord b0) 24) (Z.shiftl (ord b1) 16))
                     (Z.shiftl (ord b2) 8)) (ord b3)).

(** [sha1.intTo4Bytes]. *)
Definition intTo4Bytes (num : Z) : option (list byte) :=
  c0 ← chr (Z.shiftr num 24);
  c1 ← chr (Z.land (Z.shiftr num 16) 0xFF);
  c2 ← chr (Z.land (Z.shiftr num 8) 0xFF);
  c3 ← chr (Z.land num 0xFF);
  Some [c0; c1; c2; c3].

(** The five running hash words. *)
Definition words : Type := Z * Z * Z * Z * Z.

(** Python slice [l[i:j]] for [0 <= i <= j]. *)
Definition slice {A} (l : list A) (i j : nat) : list A := take (j - i) (drop i l).

(** First loop of [process]: [W.append(BE32(block[t*4 : t*4+4]))], [t] in [range(16)]. *)
Definition load_words (block : list byte) : option (list Z) :=
  mapM (fun t : nat => BE32 (slice block (t * 4) (t * 4 + 4))) (seq 0 16).

(** One step of the second loop: [W.append(lrot(W[t-3] ^ W[t-8] ^ W[t-14] ^ W[t-16], 1))]. *)
Definition expand_step (W : list Z) (t : nat) : list Z :=
  W ++ [lrot (Z.lxor (Z.lxor (Z.lxor (W !!! (t - 3)%nat) (W !!! (t - 8)%nat))
                             (W !!! (t - 14)%nat)) (W !!! (t - 16)%nat)) 1].

Definition expand (W : list Z) : list Z := foldl expand_step W (seq 16 64).

(** One round of the third loop. *)
Definition round (W : list Z) (s : words) (t : nat) : words :=
  let '(a, b, c, d, e) := s in
  let '(K, f) :=
    if (t <? 20)%nat then
      (0x5a827999, Z.lor (Z.land b c) (Z.land (Z.lxor b 0xFFFFFFFF) d))
    else if (t <? 40)%nat then
      (0x6ed9eba1, Z.lxor (Z.lxor b c) d)
    else if (t <? 60)%nat then
      (0x8f1bbcdc, Z.lor (Z.lor (Z.land b c) (Z.land b d)) (Z.land c d))
    else
      (0xca62c1d6, Z.lxor (Z.lxor b c) d) in
  let TEMP := Z.land (lrot a 5 + f + e + W !!! t + K) 0xFFFFFFFF in
  (TEMP, a, lrot b 30, c, d).

(** [sha1.process]: [None] is the failed [assert(len(block) == 64)]
    (or an [IndexError] of [BE32], which the assertion excludes). *)
Definition process (block : list byte) (state : words) : option words :=
  if decide (length block = 64%nat) then
    W0 ← load_words block;
    let W := expand W0 in
    let '(a, b, c, d, e) := foldl (round W) state (seq 0 80) in
    let '(s0, s1, s2, s3, s4) := state in
    Some (Z.land (s0 + a) 0xFFFFFFFF, Z.land (s1 + b) 0xFFFFFFFF,
          Z.land (s2 + c) 0xFFFFFFFF, Z.land (s3 + d) 0xFFFFFFFF,
          Z.land (s4 + e) 0xFFFFFFFF)
  else None.

(** The digest object: its instance dictionary. *)
Record sha1 : Type := Sha1 {
  unprocessedBytes : list byte;
  size : Z;
  state : words
}.

(** The [while len(self.unprocessedBytes) >= 64] loop of [update].  Each
    turn drops 64 bytes; [fuel] bounds the number of turns and [None] is
    also returned when it runs out. *)
Fixpoint consume (fuel : nat) (st : words) (buf : list byte) : option (words * list byte) :=
  if decide (64 <= length buf)%nat then
    match fuel with
    | O => None
    | S fuel' =>
        st' ← process (take 64 buf) st;
        consume fuel' st' (drop 64 buf)
    end
  else Some (st, buf).

(** [sha1.update]. *)
Definition update (self : sha1) (newBytes : list byte) : option sha1 :=
  let size' := size self + Z.of_nat (length newBytes) in
  let buf := unprocessedBytes self ++ newBytes in
  '(st, rest) ← consume (length buf) (state self) buf;
  Some (Sha1 rest size' st).

(** [sha1.__init__] ([sha1.new] is the same call). *)
Definition init0 : sha1 :=
  Sha1 [] 0 (0x67452301, 0xefcdab89, 0x98badcfe, 0x10325476, 0xc3d2e1f0).

Definition new (newBytes : option (list byte)) : option sha1 :=
  match newBytes with
  | None => Some init0
  | Some bs => update init0 bs
  end.

(** [while len(byteData) < n: byteData = byteData + chr(0)]. *)
Definition zero_fill (n : nat) (byteData : list byte) : list byte :=
  byteData ++ replicate (n - length byteData) x00.

(** One lower-case hexadecimal digit. *)
Definition hex_digit (d : Z) : ascii :=
  match String.get (Z.to_nat d) "0123456789abcdef" with
  | Some c => c
  | None => "0"%char
  end.

Fixpoint hex_go (fuel : nat) (n : Z) (acc : string) : string :=
  match fuel with
  | O => acc
  | S fuel' =>
      let acc' := String (hex_digit (n mod 16)) acc in
      if n / 16 =? 0 then acc' else hex_go fuel' (n / 16) acc'
  end.

Fixpoint zeros (k : nat) : string :=
  match k with O => EmptyString | S k' => String "0"%char (zeros k') end.

(** ["%08x" % n] for a non-negative [n]. *)
Definition fmt_08x (n : Z) : string :=
  let s := hex_go (S (Z.to_nat (Z.log2 n))) n EmptyString in
  (zeros (8 - String.length s) ++ s)%string.

(** [sha1.hexdigest]. *)
Definition hexdigest (self : sha1) : option string :=
  let finalState := state self in
  let byteData := unprocessedBytes self ++ [x80] in
  '(finalState, byteData) ←
    (if decide (56 < length byteData)%nat then
       st ← process (zero_fill 64 byteData) finalState;
       Some (st, [])
     else Some (finalState, byteData));
  let byteData := zero_fill 56 byteData in
  let numBits := size self * 8 in
  hi ← intTo4Bytes (Z.land (Z.shiftr numBits 32) 0xFFFFFFFF);
  lo ← intTo4Bytes (Z.land numBits 0xFFFFFFFF);
  '(a, b, c, d, e) ← process (byteData ++ hi ++ lo) finalState;
  Some (fmt_08x a ++ fmt_08x b ++ fmt_08x c ++ fmt_08x d ++ fmt_08x e)%string.

(** [sha1.copy]. *)
Definition copy (self : sha1) : sha1 :=
  let newOne := init0 in
  Sha1 (unprocessedBytes self) (size self) (state self).

(** What a pickle of the object holds: the instance dictionary, as plain
    data.  The pickle byte format itself is not modelled. *)
Definition pickled : Type := list byte * Z * words.

Definition dumps (m : sha1) : pickled := (unprocessedBytes m, size m, state m).

Definition loads (p : pickled) : sha1 := let '(u, n, s) := p in Sha1 u n s.

(** [klass(sentence).hexdigest()]. *)
Definition hash (sentence : list byte) : option string :=
  m ← new (Some sentence); hexdigest m.

(** The recovery test of tests.py, for a split at [A]/[B]:
    [m1.update(A); m2 = loads(dumps(m1)); m2.update(B); m2.hexdigest()]. *)
Definition restarted (A B : list byte) : option string :=
  m1 ← update init0 A;
  m2 ← update (loads (dumps m1)) B;
  hexdigest m2.

Definition restarted_copy (A B : list byte) : option string :=
  m1 ← update init0 A;
  m2 ← update (copy m1) B;
  hexdigest m2.

End PureSha1.

(** ** src/socketPool.py *)

Module SocketPool.

(** A [TLSConnection] as the pool sees it: an object identity and its
    [closed] attribute. *)
Record Connection : Type := Conn { sock : Z; closed : bool }.

(** Python values held under memcache keys: the pool size (an unsigned
    counter), a lock flag, a pickled connection. *)
Inductive value : Type :=
| VInt (n : N)
| VBool (b : bool)
| VConn (c : Connection).

(** Truth value of a Python object. *)
Definition truthy (v : value) : bool :=
  match v with
  | VInt n => negb (n =? 0)%N
  | VBool b => b
  | VConn _ => true
  end.

(** Truth value of what [memcache_get] delivers ([None] on a miss). *)
Definition truthy_opt (r : option value) : bool :=
  match r with None => false | Some v => truthy v end.

(** The integer behind a value used in arithmetic ([bool] is an [int]);
    [None] where Python raises [TypeError]. *)
Definition int_of (v : value) : option Z :=
  match v with
  | VInt n => Some (Z.of_N n)
  | VBool b => Some (Z.b2z b)
  | VConn _ => None
  end.

(** A completed [ndb.Future]: it holds a result or an exception, which
    [yield] re-raises. *)
Definition future (A : Type) : Type := exn + A.

(** What the coordinator asks of its environment: the memcache calls of
    the ndb context, the [random] module, the socket and TLS layer. *)
Inductive event : Type -> Type :=
| MemcacheGet (key : string) : event (future (option value))
| MemcacheSet (key : string) (v : value) (time : Z) : event unit
| MemcacheAdd (key : string) (v : value) (time : Z) : event bool
| MemcacheIncr (key : string) (delta initial_value : Z) : event (option Z)
| MemcacheDecr (key : string) (delta : Z) : event unit
| MemcacheDelete (key : string) : event unit
| RandInt (a b : Z) : event Z
| RandomRandom : event Q
| RandomChoice (seq : list string) : event string
| NewConnection (host : string) (port : Z) (pem : option string) : event (future Connection)
| ConnWrite (c : Connection) (msg : list byte) : event (option exn).

(** Programs: return, raise, or ask the environment and go on. *)
Inductive prog (R : Type) : Type :=
| Ret (r : R)
| Raise (e : exn)
| Vis {X : Type} (ev : event X) (k : X -> prog R).

Arguments Ret {R} r.
Arguments Raise {R} e.
Arguments Vis {R X} ev k.

Fixpoint bind {A B : Type} (m : prog A) (f : A -> prog B) : prog B :=
  match m with
  | Ret a => f a
  | Raise e => Raise e
  | Vis ev k => Vis ev (fun x => bind (k x) f)
  end.

(** [try: m  except Exception as e: handler e]. *)
Fixpoint catch {A : Type} (m : prog A) (handler : exn -> prog A) : prog A :=
  match m with
  | Ret a => Ret a
  | Raise e => handler e
  | Vis ev k => Vis ev (fun x => catch (k x) handler)
  end.

#[global] Instance prog_ret : MRet prog := @Ret.
#[global] Instance prog_bind : MBind prog := fun A B f m => bind m f.

(** [yield fut]. *)
Definition await {A : Type} (fut : future A) : prog A :=
  match fut with
  | inl e => Raise e
  | inr a => Ret a
  end.

Definition memcache_get (key : string) : prog (future (option value)) :=
  Vis (MemcacheGet key) Ret.
Definition memcache_set (key : string) (v : value) (time : Z) : prog unit :=
  Vis (MemcacheSet key v time) Ret.
Definition memcache_add (key : string) (v : value) (time : Z) : prog bool :=
  Vis (MemcacheAdd key v time) Ret.
Definition memcache_incr (key : string) (delta initial_value : Z) : prog (option Z) :=
  Vis (MemcacheIncr key delta initial_value) Ret.
Definition memcache_decr (key : string) (delta : Z) : prog unit :=
  Vis (MemcacheDecr key delta) Ret.
Definition memcache_delete (key : string) : prog unit :=
  Vis (MemcacheDelete key) Ret.
Definition randint (a b : Z) : prog Z := Vis (RandInt a b) Ret.
Definition random_random : prog Q := Vis RandomRandom Ret.

(** [random.choice]: [IndexError] on an empty sequence. *)
Definition random_choice (seq : list string) : prog string :=
  match seq with
  | [] => Raise IndexError
  | _ :: _ => Vis (RandomChoice seq) Ret
  end.

Definition conn_write (c : Connection) (msg : list byte) : prog (option exn) :=
  Vis (ConnWrite c msg) Ret.

(** The instance attributes set by [PooledConnection.__init__]. *)
Record PooledConnection : Type := Pool {
  poolName : string;
  host : string;
  port : Z;
  _pemPath : option string
}.

Definition _SOCKET_EXPIRE : Z := 120.

(** [getNewConnection]: connect, wrap in TLS, handshake; one request to
    the transport layer, which delivers the connection or raises. *)
Definition getNewConnection (self : PooledConnection) : prog Connection :=
  fut ← Vis (NewConnection (host self) (port self) (_pemPath self)) Ret;
  await fut.

Definition keySuffix (self : PooledConnection) : string :=
  "TLSConnection_" +:+ poolName self.

(** ['poolSize_' + keySuffix]. *)
Definition size_key (self : PooledConnection) : string :=
  "poolSize_" +:+ keySuffix self.

(** ['poolItem_' + str(number) + '_' + keySuffix]. *)
Definition item_id (self : PooledConnection) (number : Z) : string :=
  "poolItem_" +:+ pretty number +:+ "_" +:+ keySuffix self.

(** ['lock_' + connId]. *)
Definition lock_key (connId : string) : string := "lock_" +:+ connId.

(** Python 2 [range(a, b)]. *)
Definition range (a b : Z) : list Z :=
  (fun i : nat => a + Z.of_nat i) <$> seq 0 (Z.to_nat (b - a)).

(** Lines 152-161: the indices to probe. *)
Definition probe_numbers (poolSize : option value) : prog (list Z) :=
  if truthy_opt poolSize then
    match poolSize ≫= int_of with
    | None => Raise TypeError
    | Some n =>
        if 10 <? n then
          index ← randint 0 (n - 10);
          Ret (range index (index + 10))
        else Ret (range 0 n)
    end
  else Ret [].

(** Lines 163-166: one lock query per index, all issued before any
    answer is looked at.  The dictionary [availability] is kept as the
    list of its items, in the order of insertion; its keys are pairwise
    different.  (Python 2 visits a dictionary in hash order; the order only
    decides how [availableIds] is arranged before [random.choice] picks
    from it.) *)
Fixpoint issue_probes (self : PooledConnection) (numbers : list Z)
  : prog (list (string * future (option value))) :=
  match numbers with
  | [] => Ret []
  | number :: numbers' =>
      let connId := item_id self number in
      fut ← memcache_get (lock_key connId);
      availability ← issue_probes self numbers';
      Ret ((connId, fut) :: availability)
  end.

(** Lines 167-171: the ids whose lock query came back false. *)
Fixpoint collect_available (availability : list (string * future (option value)))
  : prog (list string) :=
  match availability with
  | [] => Ret []
  | (connId, fut) :: availability' =>
      result ← await fut;
      availableIds ← collect_available availability';
      Ret (if truthy_opt result then availableIds else connId :: availableIds)
  end.

(** Lines 147-171: read the size, probe the locks. *)
Definition probe (self : PooledConnection)
  : prog (option value * list (string * future (option value)) * list string) :=
  fut ← memcache_get (size_key self);
  poolSize ← await fut;
  numbers ← probe_numbers poolSize;
  availability ← issue_probes self numbers;
  availableIds ← collect_available availability;
  Ret (poolSize, availability, availableIds).

(** Truth value of what [memcache_incr] delivers ([None] on failure). *)
Definition truthy_int (r : option Z) : bool :=
  match r with None => false | Some n => negb (n =? 0) end.

(** [random.random() < 0.02]. *)
Definition below_2_percent (r : Q) : bool := negb (Qle_bool (2 # 100) r).

(** Lines 199-207, the body of the [try]: the cached connection if it is
    there and open, a new one otherwise. *)
Definition fetch_or_create (self : PooledConnection)
    (connFut : future (option value)) : prog Connection :=
  connection ← await connFut;
  match connection with
  | None => getNewConnection self
  | Some v =>
      if negb (truthy v) then getNewConnection self
      else match v with
           | VConn c => if closed c then getNewConnection self else Ret c
           | _ => Raise AttributeError
           end
  end.

(** Lines 193-221: pick one id, try to lock it, fetch or build its
    connection. *)
Definition lock_and_fetch (self : PooledConnection) (availableIds : list string)
  : prog (option string * Connection) :=
  connId ← random_choice availableIds;
  connFut ← memcache_get connId;
  locked ← memcache_add (lock_key connId) (VBool true) 60;
  if locked : bool then
    connection ←
      catch (fetch_or_create self connFut)
            (fun e => memcache_delete (lock_key connId) ≫= fun _ => Raise e);
    Ret (Some connId, connection)
  else
    _ ← memcache_incr (size_key self) 1 0;
    connection ← getNewConnection self;
    Ret (None, connection).

(** Lines 180-181: the ids appended after a growth to [poolSize]. *)
Definition new_ids (self : PooledConnection) (poolSize increment : Z) : list string :=
  (fun i => item_id self (poolSize - 1 - i)) <$> range 0 increment.

(** Line 184: no pooling this time. *)
Definition unpooled (self : PooledConnection) : prog (option string * Connection) :=
  connection ← getNewConnection self;
  Ret (None, connection).

(** Lines 173-221: grow or shrink the pool, then lease. *)
Definition settle (self : PooledConnection) (poolSize : option value)
    (availability : list (string * future (option value)))
    (availableIds : list string) : prog (option string * Connection) :=
  match availableIds with
  | [] =>
      let increment := if truthy_opt poolSize then 2 else 1 in
      poolSize' ← memcache_incr (size_key self) increment 0;
      match poolSize' with
      | Some n =>
          if truthy_int poolSize' then
            lock_and_fetch self (new_ids self n increment)
          else unpooled self
      | None => unpooled self
      end
  | _ :: _ =>
      if (1 <? length availableIds)%nat
         && (length availableIds =? length availability)%nat then
        r ← random_random;
        _ ← (if below_2_percent r then memcache_decr (size_key self) 1 else Ret ());
        lock_and_fetch self availableIds
      else lock_and_fetch self availableIds
  end.

(** [PooledConnection._findConnection]. *)
Definition _findConnection (self : PooledConnection) : prog (option string * Connection) :=
  '(poolSize, availability, availableIds) ← probe self;
  settle self poolSize availability availableIds.

(** Truth value of a Python string. *)
Definition truthy_str (s : string) : bool :=
  match s with EmptyString => false | String _ _ => true end.

(** [PooledConnection._saveConnection]; [None] stands for Python's [None]. *)
Definition _saveConnection (self : PooledConnection)
    (connId : option string) (connection : option Connection) : prog unit :=
  match connId, connection with
  | Some connId, Some connection =>
      if truthy_str connId then
        _ ← memcache_set connId (VConn connection) _SOCKET_EXPIRE;
        memcache_delete (lock_key connId)
      else Ret ()
  | _, _ => Ret ()
  end.

(** [PooledConnection.runAsync], for the [communicate] of a subclass. *)
Definition runAsync {R : Type} (self : PooledConnection)
    (communicate : Connection -> prog (Connection * R)) : prog R :=
  '(connId, connection) ← _findConnection self;
  '(connection, result) ← communicate connection;
  _ ← _saveConnection self connId (Some connection);
  Ret result.

(** [PooledConnection.run]: [self.runAsync().get_result()]. *)
Definition run {R : Type} (self : PooledConnection)
    (communicate : Connection -> prog (Connection * R)) : prog R :=
  runAsync self communicate.

(** *** Running a program against an environment *)

(** One entry of the log of a run: a request with its answer. *)
Inductive entry : Type :=
| E_get (key : string) (r : future (option value))
| E_set (key : string) (v : value) (time : Z)
| E_add (key : string) (v : value) (time : Z) (r : bool)
| E_incr (key : string) (delta initial_value : Z) (r : option Z)
| E_decr (key : string) (delta : Z)
| E_delete (key : string)
| E_randint (a b : Z) (r : Z)
| E_random (r : Q)
| E_choice (seq : list string) (r : string)
| E_newconn (host : string) (port : Z) (r : future Connection)
| E_write (c : Connection) (msg : list byte) (r : option exn).

Definition log {X : Type} (ev : event X) : X -> entry :=
  match ev in event X return X -> entry with
  | MemcacheGet key => E_get key
  | MemcacheSet key v time => fun _ => E_set key v time
  | MemcacheAdd key v time => E_add key v time
  | MemcacheIncr key delta initial_value => E_incr key delta initial_value
  | MemcacheDecr key delta => fun _ => E_decr key delta
  | MemcacheDelete key => fun _ => E_delete key
  | RandInt a b => E_randint a b
  | RandomRandom => E_random
  | RandomChoice seq => E_choice seq
  | NewConnection host port _ => E_newconn host port
  | ConnWrite c msg => E_write c msg
  end.

Inductive outcome (R : Type) : Type :=
| Returned (r : R)
| Raised (e : exn).

Arguments Returned {R} r.
Arguments Raised {R} e.

(** An environment with states [S]: it answers every request. *)
Definition handler (S : Type) : Type := forall X : Type, event X -> S -> X * S.

Fixpoint exec {S R : Type} (h : handler S) (p : prog R) (s : S)
  : list entry * outcome R * S :=
  match p with
  | Ret r => ([], Returned r, s)
  | Raise e => ([], Raised e, s)
  | Vis ev k =>
      let '(x, s1) := h _ ev s in
      let '(t, o, s2) := exec h (k x) s1 in
      (log ev x :: t, o, s2)
  end.

(** *** A sequential cache

    One worker alone with the cache.  The world scripts what the code
    cannot decide: which cache calls fail, what the random source
    draws, what the transport layer delivers. *)

Inductive fault : Type :=
| NoFault
| Fail             (* the call fails and reports it in its result *)
| Throw (e : exn). (* a [get] whose value cannot be delivered *)

Record World : Type := MkWorld {
  cache : gmap string value;
  faults : list fault;
  ints : list Z;
  reals : list Q;
  factory : list (future Connection);
  wire : list (option exn)
}.

Definition set_cache (w : World) (c : gmap string value) : World :=
  MkWorld c (faults w) (ints w) (reals w) (factory w) (wire w).

Definition next_fault (w : World) : fault * World :=
  (hd NoFault (faults w),
   MkWorld (cache w) (tl (faults w)) (ints w) (reals w) (factory w) (wire w)).

Definition next_int (w : World) : Z * World :=
  (hd 0 (ints w),
   MkWorld (cache w) (faults w) (tl (ints w)) (reals w) (factory w) (wire w)).

Definition next_real (w : World) : Q * World :=
  (hd (1 # 2)%Q (reals w),
   MkWorld (cache w) (faults w) (ints w) (tl (reals w)) (factory w) (wire w)).

Definition next_conn (w : World) : future Connection * World :=
  (hd (inr (Conn 0 false)) (factory w),
   MkWorld (cache w) (faults w) (ints w) (reals w) (tl (factory w)) (wire w)).

Definition next_write (w : World) : option exn * World :=
  (hd None (wire w),
   MkWorld (cache w) (faults w) (ints w) (reals w) (factory w) (tl (wire w))).

(** Modelled from the spec: the SharedCache capability set of section 6
    ([get], [set], [add] that succeeds only if the key is absent, [incr]
    with an initial value, [decr], [delete]); counters are unsigned and
    [decr] stops at zero, as memcache does. *)
Definition cache_step {X : Type} (ev : event X) (w : World) : X * World :=
  match ev in event X return X * World with
  | MemcacheGet key =>
      let '(f, w) := next_fault w in
      match f with
      | NoFault => (inr (cache w !! key), w)
      | Fail => (inr None, w)
      | Throw e => (inl e, w)
      end
  | MemcacheSet key v _ =>
      let '(f, w) := next_fault w in
      match f with
      | NoFault => (tt, set_cache w (<[key := v]> (cache w)))
      | _ => (tt, w)
      end
  | MemcacheAdd key v _ =>
      let '(f, w) := next_fault w in
      match f with
      | NoFault =>
          match cache w !! key with
          | None => (true, set_cache w (<[key := v]> (cache w)))
          | Some _ => (false, w)
          end
      | _ => (false, w)
      end
  | MemcacheIncr key delta initial_value =>
      let '(f, w) := next_fault w in
      match f with
      | NoFault =>
          match cache w !! key with
          | None =>
              let n := Z.to_N (initial_value + delta) in
              (Some (Z.of_N n), set_cache w (<[key := VInt n]> (cache w)))
          | Some (VInt old) =>
              let n := Z.to_N (Z.of_N old + delta) in
              (Some (Z.of_N n), set_cache w (<[key := VInt n]> (cache w)))
          | Some _ => (None, w)
          end
      | _ => (None, w)
      end
  | MemcacheDecr key delta =>
      let '(f, w) := next_fault w in
      match f with
      | NoFault =>
          match cache w !! key with
          | Some (VInt old) =>
              (tt, set_cache w (<[key := VInt (Z.to_N (Z.of_N old - delta))]> (cache w)))
          | _ => (tt, w)
          end
      | _ => (tt, w)
      end
  | MemcacheDelete key =>
      let '(f, w) := next_fault w in
      match f with
      | NoFault => (tt, set_cache w (delete key (cache w)))
      | _ => (tt, w)
      end
  | RandInt a b =>
      let '(r, w) := next_int w in (a + r mod (b - a + 1), w)
  | RandomRandom => next_real w
  | RandomChoice seq =>
      let '(r, w) := next_int w in
      (nth (Z.to_nat (r mod Z.of_nat (length seq))) seq EmptyString, w)
  | NewConnection _ _ _ => next_conn w
  | ConnWrite _ _ => next_write w
  end.

Definition seq_cache : handler World := @cache_step.

(** The pool size as the cache holds it (0 when there is none). *)
Definition size_of (self : PooledConnection) (c : gmap string value) : Z :=
  match c !! size_key self with
  | Some (VInt n) => Z.of_N n
  | _ => 0
  end.

End SocketPool.

(** ** src/apn.py *)

Module Apn.
Import SocketPool.

(** A Python 2 string: a byte string ([str]) or a sequence of code points
    ([unicode]). *)
Inductive pystr : Type :=
| Str (bs : list byte)
| Unicode (cps : list Z).

Definition ord (b : byte) : Z := Z.of_N (Byte.to_N b).

Definition byte_of_Z (n : Z) : byte :=
  match Byte.of_N (Z.to_N n) with Some b => b | None => x00 end.

(** A continuation byte [10xxxxxx]. *)
Definition is_cont (b : byte) : bool := (0x80 <=? ord b) && (ord b <=? 0xBF).

(** [bs.decode('utf-8')] in strict mode; [None] is [UnicodeDecodeError].
    CPython 2.7 rejects overlong forms and code points above U+10FFFF and
    accepts encoded surrogates. *)
Fixpoint utf8_decode (bs : list byte) : option (list Z) :=
  match bs with
  | [] => Some []
  | b0 :: rest =>
      let c0 := ord b0 in
      if c0 <? 0x80 then cons c0 <$> utf8_decode rest
      else if (0xC2 <=? c0) && (c0 <=? 0xDF) then
        match rest with
        | b1 :: rest1 =>
            if is_cont b1 then
              cons ((c0 - 0xC0) * 64 + (ord b1 - 0x80)) <$> utf8_decode rest1
            else None
        | _ => None
        end
      else if (0xE0 <=? c0) && (c0 <=? 0xEF) then
        match rest with
        | b1 :: b2 :: rest2 =>
            if is_cont b1 && is_cont b2
               && negb ((c0 =? 0xE0) && (ord b1 <? 0xA0)) then
              cons ((c0 - 0xE0) * 4096 + (ord b1 - 0x80) * 64 + (ord b2 - 0x80))
                <$> utf8_decode rest2
            else None
        | _ => None
        end
      else if (0xF0 <=? c0) && (c0 <=? 0xF4) then
        match rest with
        | b1 :: b2 :: b3 :: rest3 =>
            if is_cont b1 && is_cont b2 && is_cont b3
               && negb ((c0 =? 0xF0) && (ord b1 <? 0x90))
               && negb ((c0 =? 0xF4) && (0x8F <? ord b1)) then
              cons ((c0 - 0xF0) * 262144 + (ord b1 - 0x80) * 4096
                    + (ord b2 - 0x80) * 64 + (ord b3 - 0x80))
                <$> utf8_decode rest3
            else None
        | _ => None
        end
      else None
  end.

(** UTF-8 bytes of one code point. *)
Definition utf8_encode1 (c : Z) : list byte :=
  if c <? 0x80 then [byte_of_Z c]
  else if c <? 0x800 then
    [byte_of_Z (0xC0 + c / 64); byte_of_Z (0x80 + c mod 64)]
  else if c <? 0x10000 then
    [byte_of_Z (0xE0 + c / 4096); byte_of_Z (0x80 + (c / 64) mod 64);
     byte_of_Z (0x80 + c mod 64)]
  else
    [byte_of_Z (0xF0 + c / 262144); byte_of_Z (0x80 + (c / 4096) mod 64);
     byte_of_Z (0x80 + (c / 64) mod 64); byte_of_Z (0x80 + c mod 64)].

(** [u.encode('utf-8')]. *)
Definition utf8_encode (cps : list Z) : list byte := cps ≫= utf8_encode1.

(** The implicit [str] to [unicode] coercion (codec ascii); [None] is
    [UnicodeDecodeError]. *)
Definition ascii_decode (bs : list byte) : option (list Z) :=
  if forallb (fun b => ord b <? 0x80) bs then Some (ord <$> bs) else None.

(** The implicit [unicode] to [str] coercion (codec ascii); [None] is
    [UnicodeEncodeError]. *)
Definition ascii_encode (cps : list Z) : option (list byte) :=
  if forallb (fun c => c <? 0x80) cps then Some (byte_of_Z <$> cps) else None.

(** Equality of dictionary keys: a [str] equals a [unicode] when it is
    ASCII and spells the same characters. *)
Definition list_Z_eqb (a b : list Z) : bool := bool_decide (a = b).

Definition key_eqb (a b : pystr) : bool :=
  match a, b with
  | Str x, Str y => list_Z_eqb (ord <$> x) (ord <$> y)
  | Unicode x, Unicode y => list_Z_eqb x y
  | Str x, Unicode y | Unicode y, Str x =>
      match ascii_decode x with
      | Some x' => list_Z_eqb x' y
      | None => false
      end
  end.

(** The values [json.dumps] is given here; dictionaries are kept as the
    list of their items, in the order the encoder visits them (insertion
    order here, hash order in Python 2; the length of the output is the
    same for every order).  Numbers other than integers and objects that
    JSON cannot encode are left out. *)
#[warnings="-register-all"]
Inductive json : Type :=
| JNull
| JBool (b : bool)
| JInt (n : Z)
| JStr (s : pystr)
| JList (items : list json)
| JDict (items : list (pystr * json)).

(** [d[key] = v]. *)
Fixpoint dict_set (d : list (pystr * json)) (key : pystr) (v : json)
  : list (pystr * json) :=
  match d with
  | [] => [(key, v)]
  | (k, x) :: d' =>
      if key_eqb k key then (k, v) :: d' else (k, x) :: dict_set d' key v
  end.

Definition code (c : ascii) : Z := Z.of_nat (nat_of_ascii c).

Definition codes (s : string) : list Z := code <$> list_ascii_of_string s.

Definition hex_digit (d : Z) : Z :=
  if d <? 10 then code "0" + d else code "a" + (d - 10).

(** [ESCAPE_DCT] of json.encoder applied to one character. *)
Definition escape_char (c : Z) : list Z :=
  if c =? code "\" then codes "\\"
  else if c =? 34 then [code "\"; 34]
  else if c =? 8 then codes "\b"
  else if c =? 12 then codes "\f"
  else if c =? 10 then codes "\n"
  else if c =? 13 then codes "\r"
  else if c =? 9 then codes "\t"
  else if c <? 0x20 then
    codes "\u00" ++ [hex_digit (c / 16); hex_digit (c mod 16)]
  else [c].

(** [encode_basestring], followed by the coercion to [unicode] that the
    final [join] applies to [str] chunks. *)
Definition encode_basestring (s : pystr) : option (list Z) :=
  match s with
  | Unicode cps => Some ([34] ++ (cps ≫= escape_char) ++ [34])
  | Str bs =>
      ascii_decode ([x22] ++ (bs ≫= fun b => byte_of_Z <$> escape_char (ord b)) ++ [x22])
  end.

(** Items joined by [,]. *)
Fixpoint join_items (chunks : list (list Z)) : list Z :=
  match chunks with
  | [] => []
  | [c] => c
  | c :: cs => c ++ codes "," ++ join_items cs
  end.

(** [json.dumps(o, separators=(',', ':'), ensure_ascii=False)] when the
    result is [unicode]; [None] is the [UnicodeDecodeError] of a
    non-ASCII [str] inside [o]. *)
Fixpoint dumps (o : json) : option (list Z) :=
  match o with
  | JNull => Some (codes "null")
  | JBool b => Some (codes (if b then "true" else "false"))
  | JInt n => Some (codes (pretty n))
  | JStr s => encode_basestring s
  | JList items =>
      chunks ← mapM dumps items;
      Some (codes "[" ++ join_items chunks ++ codes "]")
  | JDict items =>
      chunks ← mapM (fun kv : pystr * json =>
                       k ← encode_basestring kv.1;
                       v ← dumps kv.2;
                       Some (k ++ codes ":" ++ v)) items;
      Some (codes "{" ++ join_items chunks ++ codes "}")
  end.

(** Value of one hexadecimal digit. *)
Definition unhex_digit (b : byte) : option Z :=
  let c := ord b in
  if (code "0" <=? c) && (c <=? code "9") then Some (c - code "0")
  else if (code "a" <=? c) && (c <=? code "f") then Some (c - code "a" + 10)
  else if (code "A" <=? c) && (c <=? code "F") then Some (c - code "A" + 10)
  else None.

(** [binascii.unhexlify] on a byte string; [None] is the [TypeError] of
    an odd length or of a character that is no hexadecimal digit. *)
Fixpoint unhexlify_bytes (bs : list byte) : option (list byte) :=
  match bs with
  | [] => Some []
  | hi :: lo :: rest =>
      h ← unhex_digit hi;
      l ← unhex_digit lo;
      cons (byte_of_Z (h * 16 + l)) <$> unhexlify_bytes rest
  | [_] => None
  end.

(** [binascii.unhexlify(token)]: a [unicode] argument is first coerced
    to [str]. *)
Definition unhexlify (token : pystr) : exn + list byte :=
  match token with
  | Str bs =>
      match unhexlify_bytes bs with Some r => inr r | None => inl TypeError end
  | Unicode cps =>
      match ascii_encode cps with
      | None => inl UnicodeEncodeError
      | Some bs =>
          match unhexlify_bytes bs with Some r => inr r | None => inl TypeError end
      end
  end.

Definition str_lit (s : string) : pystr := Str (list_byte_of_string s).

Definition truthy_pystr (s : pystr) : bool :=
  match s with
  | Str [] | Unicode [] => false
  | _ => true
  end.

(** Lines 88-107 of [getNotifRequest]: the JSON payload as bytes; [inl e]
    is a raised exception. *)
Definition encode_payload (message : pystr) (badge : option Z)
    (sound : option pystr) (context : option (list (pystr * json)))
    (hasContent : bool) : exn + list byte :=
  match (match message with
         | Str bs => utf8_decode bs
         | Unicode cps => Some cps
         end) with
  | None => inl UnicodeDecodeError
  | Some message =>
      let payload :=
        match context with
        | Some ((_ :: _) as d) => d
        | _ => []
        end in
      let aps := [(str_lit "alert", JStr (Unicode message))] in
      let aps := if hasContent then dict_set aps (str_lit "content-available") (JInt 1)
                 else aps in
      let aps := match badge with
                 | Some b => dict_set aps (str_lit "badge") (JInt b)
                 | None => aps
                 end in
      let aps := match sound with
                 | Some snd => if truthy_pystr snd
                               then dict_set aps (str_lit "sound") (JStr snd)
                               else aps
                 | None => aps
                 end in
      let payload := dict_set payload (str_lit "aps") (JDict aps) in
      match dumps (JDict payload) with
      | None => inl UnicodeDecodeError
      | Some payload => inr (utf8_encode payload)
      end
  end.

(** [getNotifRequest]: [inl e] is a raised exception, [inr None] the
    returned [False], [inr (Some (token, payload))] the request. *)
Definition getNotifRequest (token message : pystr) (badge : option Z)
    (sound : option pystr) (context : option (list (pystr * json)))
    (hasContent : bool) : exn + option (list byte * list byte) :=
  match encode_payload message badge sound context hasContent with
  | inl e => inl e
  | inr payload =>
      if (256 <? length payload)%nat then inr None
      else
        match unhexlify token with
        | inr token => inr (Some (token, payload))
        | inl TypeError | inl UnicodeEncodeError => inr None
        | inl e => inl e
        end
  end.

(** The ['32s'] field of [struct.pack]: truncated or padded with null
    bytes to 32 bytes. *)
Definition pack_32s (s : list byte) : list byte :=
  take 32 s ++ replicate (32 - length s) x00.

(** The ['!H'] field: big-endian unsigned short; [struct.error] when the
    number does not fit. *)
Definition pack_H (n : Z) : exn + list byte :=
  if (0 <=? n) && (n <=? 65535) then inr [byte_of_Z (n / 256); byte_of_Z (n mod 256)]
  else inl StructError.

(** [struct.pack("!cH32sH%ds" % len(payload), '\x00', 32, token, len(payload), payload)]. *)
Definition pack_frame (token payload : list byte) : exn + list byte :=
  match pack_H 32, pack_H (Z.of_nat (length payload)) with
  | inr tlen, inr plen => inr ([x00] ++ tlen ++ pack_32s token ++ plen ++ payload)
  | inl e, _ | _, inl e => inl e
  end.

(** The instance attributes of [APNSender]. *)
Record APNSender : Type := Sender {
  pool : PooledConnection;
  requests : list (option (list byte * list byte))
}.

Definition GATEWAY_PORT : Z := 2195.

(** [APNSender.__init__]; [package_dir] is the directory of the module. *)
Definition new_sender (package_dir certFileName hostName : string)
    (requests : list (option (list byte * list byte))) : APNSender :=
  Sender (Pool (certFileName +:+ "_" +:+ hostName) hostName GATEWAY_PORT
               (Some (package_dir +:+ "/certificates/" +:+ certFileName)))
         requests.

(** The body of the loop of [communicate] for one request that is not
    skipped: returns the connection to go on with. *)
Definition send_one (self : PooledConnection) (connection : Connection)
    (token payload : list byte) : prog Connection :=
  msg ← await (pack_frame token payload);
  r ← conn_write connection msg;
  match r with
  | None => Ret connection
  | Some e =>
      if is_IOError e then
        connection ← getNewConnection self;
        r ← conn_write connection msg;
        match r with
        | None => Ret connection
        | Some e => Raise e
        end
      else Raise e
  end.

(** The loop of [communicate] over the remaining requests. *)
Fixpoint send_all (self : PooledConnection)
    (requests : list (option (list byte * list byte)))
    (connection : Connection) : prog (Connection * bool) :=
  match requests with
  | [] => Ret (connection, true)
  | None :: requests' => send_all self requests' connection
  | Some (token, payload) :: requests' =>
      connection ← send_one self connection token payload;
      send_all self requests' connection
  end.

(** [APNSender.communicate]. *)
Definition communicate (self : APNSender) (connection : Connection)
  : prog (Connection * bool) :=
  send_all (pool self) (requests self) connection.

(** [APNSender(...).runAsync()]. *)
Definition send (self : APNSender) : prog bool :=
  runAsync (pool self) (communicate self).

End Apn.

Definition bytes_of_string (s : string) : list byte := list_byte_of_string s.

(* ===================================================================== *)
(** * Vocabulary of the properties

    Predicates on the logs of runs, the bounds used for the pool size,
    and the concrete worlds the properties are tried on. *)
(* ===================================================================== *)

Section Vocabulary.
Import SocketPool Apn.

(** The answer of a lock query that leaves the slot available. *)
Definition is_free (fut : future (option value)) : bool :=
  match fut with
  | inr r => negb (truthy_opt r)
  | inl _ => false
  end.

(** The log entry of one lock query. *)
Definition probe_entry (p : string * future (option value)) : entry :=
  E_get (lock_key p.1) p.2.

(** Entries that only read: a lookup, a draw of [randint]. *)
Definition read_entry (e : entry) : bool :=
  match e with
  | E_get _ _ | E_randint _ _ _ => true
  | _ => false
  end.

(** How [numbers] and the entries after the size lookup depend on the size
    that was read (lines 152-161). *)
Definition window (sz : option value) (pre : list entry) (numbers : list Z) : Prop :=
  (truthy_opt sz = false /\ pre = [] /\ numbers = []) \/
  (exists n, truthy_opt sz = true /\ sz ≫= int_of = Some n /\
     ((n <= 10 /\ pre = [] /\ numbers = range 0 n) \/
      (10 < n /\ exists index, pre = [E_randint 0 (n - 10) index] /\
                               numbers = range index (index + 10)))).

(** What [getNewConnection] logs and delivers. *)
Definition delivered {A : Type} (rc : future A) : outcome A :=
  match rc with
  | inl e => Raised e
  | inr c => Returned c
  end.

(** Line 184 and lines 217-219: the connection that goes with no slot. *)
Definition unpooled_result (rc : future Connection) : outcome (option string * Connection) :=
  match rc with
  | inl e => Raised e
  | inr c => Returned (None, c)
  end.

(** The ways the body of the [try] ends, given the answer [fut] to the
    lookup of the cached connection (lines 199-207). *)
Inductive fetched (self : PooledConnection) (fut : future (option value))
  : list entry -> outcome Connection -> Prop :=
| fetched_reuse c :
    fut = inr (Some (VConn c)) -> closed c = false ->
    fetched self fut [] (Returned c)
| fetched_create r rc :
    fut = inr r ->
    fetched self fut [E_newconn (host self) (port self) rc] (delivered rc)
| fetched_failed e :
    fut = inl e -> fetched self fut [] (Raised e)
| fetched_not_a_connection v :
    fut = inr (Some v) -> truthy v = true -> (forall c, v <> VConn c) ->
    fetched self fut [] (Raised AttributeError).

(** The logs and results of lines 193-221 on the candidates [avail]. *)
Inductive lease_trace (self : PooledConnection) (avail : list string)
  : list entry -> outcome (option string * Connection) -> Prop :=
| lease_no_candidate :
    avail = [] -> lease_trace self avail [] (Raised IndexError)
| lease_locked connId fut t c :
    avail <> [] -> fetched self fut t (Returned c) ->
    lease_trace self avail
      (E_choice avail connId :: E_get connId fut
         :: E_add (lock_key connId) (VBool true) 60 true :: t)
      (Returned (Some connId, c))
| lease_released connId fut t e :
    avail <> [] -> fetched self fut t (Raised e) ->
    lease_trace self avail
      (E_choice avail connId :: E_get connId fut
         :: E_add (lock_key connId) (VBool true) 60 true
         :: t ++ [E_delete (lock_key connId)])
      (Raised e)
| lease_contended connId fut r rc :
    avail <> [] ->
    lease_trace self avail
      [E_choice avail connId; E_get connId fut;
       E_add (lock_key connId) (VBool true) 60 false;
       E_incr (size_key self) 1 0 r;
       E_newconn (host self) (port self) rc]
      (unpooled_result rc).

(** Line 176: the growth step. *)
Definition increment_for (sz : option value) : Z := if truthy_opt sz then 2 else 1.

(** Line 187: more than one id available, and as many as were probed. *)
Definition shrinkable (av : list (string * future (option value)))
    (ids : list string) : bool :=
  (1 <? length ids)%nat && (length ids =? length av)%nat.

(** The logs and results of lines 173-221 after a probe that read the
    size [sz], queried [av] and found [ids] available. *)
Inductive settle_trace (self : PooledConnection) (sz : option value)
    (av : list (string * future (option value))) (ids : list string)
  : list entry -> outcome (option string * Connection) -> Prop :=
| settle_grow n tl o :
    ids = [] -> n <> 0 ->
    lease_trace self (new_ids self n (increment_for sz)) tl o ->
    settle_trace self sz av ids
      (E_incr (size_key self) (increment_for sz) 0 (Some n) :: tl) o
| settle_unpooled r rc :
    ids = [] -> truthy_int r = false ->
    settle_trace self sz av ids
      [E_incr (size_key self) (increment_for sz) 0 r;
       E_newconn (host self) (port self) rc]
      (unpooled_result rc)
| settle_shrink r tl o :
    shrinkable av ids = true -> below_2_percent r = true ->
    lease_trace self ids tl o ->
    settle_trace self sz av ids (E_random r :: E_decr (size_key self) 1 :: tl) o
| settle_no_shrink r tl o :
    shrinkable av ids = true -> below_2_percent r = false ->
    lease_trace self ids tl o ->
    settle_trace self sz av ids (E_random r :: tl) o
| settle_lease tl o :
    ids <> [] -> shrinkable av ids = false ->
    lease_trace self ids tl o ->
    settle_trace self sz av ids tl o.

(** Entries logged before the lease attempt of a run whose probe
    completed: answered lookups, draws, and the size adjustments. *)
Definition calm (e : entry) : bool :=
  match e with
  | E_get _ (inr _) | E_randint _ _ _ | E_incr _ _ _ _ | E_random _ | E_decr _ _ => true
  | _ => false
  end.

Definition is_add (e : entry) : bool :=
  match e with E_add _ _ _ _ => true | _ => false end.

(** The exception an entry delivered, if it did. *)
Definition failure_of (e : entry) : option exn :=
  match e with
  | E_get _ (inl e) | E_newconn _ _ (inl e) => Some e
  | _ => None
  end.

(** The exception [e] was delivered by a cache lookup or by the creation
    of a connection during the run logged as [t]. *)
Definition fetch_failed (e : exn) (t : list entry) : Prop :=
  exists x, In x t /\ failure_of x = Some e.

(** The ids with the highest indices of a pool that was grown to [n]:
    two after a growth by 2, one after a growth by 1. *)
Definition candidates (self : PooledConnection) (sz : option value) (n : Z)
  : list string :=
  if truthy_opt sz then [item_id self (n - 1); item_id self (n - 2)]
  else [item_id self (n - 1)].

(** How a run goes on after the growth step answered [r] (lines 178-184). *)
Definition after_growth (self : PooledConnection) (sz : option value)
    (r : option Z) (t2 : list entry) (o : outcome (option string * Connection)) : Prop :=
  match r with
  | Some n =>
      if n =? 0 then
        exists rc, t2 = [E_newconn (host self) (port self) rc] /\ o = unpooled_result rc
      else
        exists connId rest, t2 = E_choice (candidates self sz n) connId :: rest
  | None =>
      exists rc, t2 = [E_newconn (host self) (port self) rc] /\ o = unpooled_result rc
  end.

(** The world a run ends in. *)
Definition after {R : Type} (p : prog R) (w : World) : World :=
  (exec seq_cache p w).2.

(** By how much one call of [_findConnection] moves the pool size. *)
Definition size_change (self : PooledConnection) (w : World) : Z :=
  size_of self (cache (after (_findConnection self) w)) - size_of self (cache w).

(** What an entry can add to the counter under [k], at most and at least. *)
Definition hi (k : string) (e : entry) : Z :=
  match e with
  | E_incr k' delta _ (Some _) => if decide (k' = k) then delta else 0
  | _ => 0
  end.

Definition lo (k : string) (e : entry) : Z :=
  match e with
  | E_incr k' delta _ (Some _) => if decide (k' = k) then delta else 0
  | E_decr k' delta => if decide (k' = k) then - delta else 0
  | _ => 0
  end.

(** Entries that treat [k] as a counter: no [set], [add] or [delete] on
    it, increments from 0 by a non-negative step, decrements by a
    non-negative step. *)
Definition counter_use (k : string) (e : entry) : Prop :=
  match e with
  | E_set k' _ _ | E_add k' _ _ _ | E_delete k' => k' <> k
  | E_incr k' delta initial_value _ => k' = k -> 0 <= delta /\ initial_value = 0
  | E_decr k' delta => k' = k -> 0 <= delta
  | _ => True
  end.

Definition sum_with (f : entry -> Z) (t : list entry) : Z :=
  foldr (fun e acc => f e + acc) 0 t.

(** The counter under [k], whatever the key holds. *)
Definition counter (k : string) (c : gmap string value) : Z :=
  match c !! k with
  | Some (VInt n) => Z.of_N n
  | _ => 0
  end.

(** Use of the size key and bounds, for a piece of log. *)
Definition budget (self : PooledConnection) (t : list entry) (least most : Z) : Prop :=
  Forall (counter_use (size_key self)) t /\
  least <= sum_with (lo (size_key self)) t /\
  sum_with (hi (size_key self)) t <= most.

Definition self0 : PooledConnection :=
  Pool "apns" "gateway.push.apple.com" 2195 None.

Definition slot (n : Z) : string := item_id self0 n.

(** An empty cache and the draws of the history below. *)
Definition fresh_world : World :=
  MkWorld ∅ [] [0; 0; 2; 0; 0; 1] [(1 # 100)%Q; (1 # 2)%Q] [] [].

(** A history of one pool: two leases (slots 0 and 2, the pool grows to
    3), both released; a lease of slot 2 that also shrinks the pool to 2;
    leases of slots 0 and 1.  Size is then 2 and the locks of slots 0, 1
    and 2 are held. *)
Definition contended_world : World :=
  let w := after (_findConnection self0) fresh_world in
  let w := after (_findConnection self0) w in
  let w := after (_saveConnection self0 (Some (slot 0)) (Some (Conn 0 false))) w in
  let w := after (_saveConnection self0 (Some (slot 2)) (Some (Conn 0 false))) w in
  let w := after (_findConnection self0) w in
  let w := after (_findConnection self0) w in
  after (_findConnection self0) w.

(** C2 as the spec words it: one call changes Size by +1, +2, -1 or 0. *)
Definition one_step_claim (self : PooledConnection) (w : World) : Prop :=
  In (size_change self w) [1; 2; -1; 0].

(** A pool of 11 free slots; the draw for the shrink is 0.01. *)
Definition wide_world : World :=
  MkWorld {[ size_key self0 := VInt 11 ]} [] [1; 0] [(1 # 100)%Q] [] [].

(** C3 as the spec words it: a decrement is asked for only after a probe
    of the whole pool, that is of as many slots as the size read. *)
Definition shrink_needs_whole_pool (self : PooledConnection) (w : World) : Prop :=
  forall k d, In (E_decr k d) (exec seq_cache (_findConnection self) w).1.1 ->
    exists t1 sz av ids w1,
      exec seq_cache (probe self) w = (t1, Returned (sz, av, ids), w1) /\
      Forall (fun p => is_free p.2 = true) av /\
      sz ≫= int_of = Some (Z.of_nat (length av)).

(** Size 1 and the one slot leased. *)
Definition busy_world : World :=
  MkWorld {[ size_key self0 := VInt 1; lock_key (slot 0) := VBool true ]}
          [] [0] [] [] [].

(** An empty cache and a transport layer that refuses the connection. *)
Definition refusing_world : World :=
  MkWorld ∅ [] [] [] [inl (IOError 111)] [].

(** The connection [communicate] ends with: the last one created during
    the run, the leased one if none was. *)
Definition last_connection (c : Connection) (t : list entry) : Connection :=
  foldl (fun acc e => match e with E_newconn _ _ (inr c') => c' | _ => acc end) c t.

(** What the spec asks of the write routine, as the logs it allows: each
    frame is written to the current connection; a write that fails with
    an I/O error is followed by one new connection and one more write of
    the same frame, whose failure ends the run; any other failure ends
    the run at once. *)
Inductive sends (self : PooledConnection)
  : Connection -> list (option (list byte * list byte)) -> list entry
    -> outcome (Connection * bool) -> Prop :=
| sends_done c :
    sends self c [] [] (Returned (c, true))
| sends_skip c reqs t o :
    sends self c reqs t o -> sends self c (None :: reqs) t o
| sends_pack_error c token payload reqs e :
    pack_frame token payload = inl e ->
    sends self c (Some (token, payload) :: reqs) [] (Raised e)
| sends_written c token payload msg reqs t o :
    pack_frame token payload = inr msg ->
    sends self c reqs t o ->
    sends self c (Some (token, payload) :: reqs) (E_write c msg None :: t) o
| sends_fatal c token payload msg reqs e :
    pack_frame token payload = inr msg -> is_IOError e = false ->
    sends self c (Some (token, payload) :: reqs) [E_write c msg (Some e)] (Raised e)
| sends_retried c c' token payload msg reqs e t o :
    pack_frame token payload = inr msg -> is_IOError e = true ->
    sends self c' reqs t o ->
    sends self c (Some (token, payload) :: reqs)
      (E_write c msg (Some e) :: E_newconn (host self) (port self) (inr c')
         :: E_write c' msg None :: t) o
| sends_retry_failed c c' token payload msg reqs e e2 :
    pack_frame token payload = inr msg -> is_IOError e = true ->
    sends self c (Some (token, payload) :: reqs)
      [E_write c msg (Some e); E_newconn (host self) (port self) (inr c');
       E_write c' msg (Some e2)]
      (Raised e2)
| sends_no_connection c token payload msg reqs e e2 :
    pack_frame token payload = inr msg -> is_IOError e = true ->
    sends self c (Some (token, payload) :: reqs)
      [E_write c msg (Some e); E_newconn (host self) (port self) (inl e2)]
      (Raised e2).

(** One request with a one-byte token. *)
Definition sender0 : APNSender :=
  Sender self0 [Some ([xab], list_byte_of_string "{}")].

(** An empty cache; the first write fails with [EPIPE], the second one
    goes through. *)
Definition flaky_world : World :=
  MkWorld ∅ [] [] [] [inr (Conn 1 false); inr (Conn 2 false)]
          [Some (IOError 32); None].

(** The quotation marks of a payload shown as apostrophes. *)
Definition show_payload (payload : list byte) : string :=
  string_of_list_byte ((fun b => if Byte.eqb b x22 then x27 else b) <$> payload).

(** A 33-byte token, in hexadecimal. *)
Definition long_token : pystr :=
  Str (mjoin (replicate 33 (list_byte_of_string "0a"))).

End Vocabulary.

(* ===================================================================== *)
(** * More of the code *)
(* ===================================================================== *)

(** [sha1.digest]: [binascii.a2b_hex(self.hexdigest())]; [None] also
    stands for the [TypeError] of [a2b_hex]. *)
Definition digest (self : PureSha1.sha1) : option (list byte) :=
  d ← PureSha1.hexdigest self;
  Apn.unhexlify_bytes (list_byte_of_string d).

(** [sha1.digest_size] and [sha1.block_size]. *)
Definition digest_size : nat := 20.
Definition block_size : nat := 64.

Section AuthCache.

(** The objects [X509CertChain([x509])] and [parsePEMKey(s, private=True)]
    build, and what the code asks of the file system and of tlslite:
    reading the file, parsing the certificate, parsing the key; each
    delivers its result or raises. *)
Context {CertChain PrivateKey : Type}.
Context (read_file : string -> exn + string).
Context (parse_x509 : string -> exn + CertChain).
Context (parsePEMKey : string -> exn + PrivateKey).

(** [PooledConnection.getAuthFromPEM], with the class attribute
    [_AUTH_CACHE] passed in and handed back. *)
Definition getAuthFromPEM (_AUTH_CACHE : gmap string (CertChain * PrivateKey))
    (certFilePath : string)
  : (exn + CertChain * PrivateKey) * gmap string (CertChain * PrivateKey) :=
  match _AUTH_CACHE !! certFilePath with
  | Some auth => (inr auth, _AUTH_CACHE)
  | None =>
      match read_file certFilePath with
      | inl e => (inl e, _AUTH_CACHE)
      | inr s =>
          match parse_x509 s with
          | inl e => (inl e, _AUTH_CACHE)
          | inr certChain =>
              match parsePEMKey s with
              | inl e => (inl e, _AUTH_CACHE)
              | inr privateKey =>
                  (inr (certChain, privateKey),
                   <[certFilePath := (certChain, privateKey)]> _AUTH_CACHE)
              end
          end
      end
  end.

(** [PooledConnection.getCertChainKey]: with [pemPath=None] the [open]
    raises [TypeError]. *)
Definition getCertChainKey (self : SocketPool.PooledConnection)
    (_AUTH_CACHE : gmap string (CertChain * PrivateKey))
  : (exn + CertChain * PrivateKey) * gmap string (CertChain * PrivateKey) :=
  match SocketPool._pemPath self with
  | Some path => getAuthFromPEM _AUTH_CACHE path
  | None => (inl TypeError, _AUTH_CACHE)
  end.

End AuthCache.

(** Lower-case hexadecimal digits, and strings made of them. *)
Definition is_lower_hex (c : ascii) : bool :=
  existsb (Ascii.eqb c) (list_ascii_of_string "0123456789abcdef").

Fixpoint string_forall (P : ascii -> bool) (s : string) : bool :=
  match s with
  | EmptyString => true
  | String c s' => P c && string_forall P s'
  end.

(** ** More vocabulary: what the cache did, how a call returned, what
    was delivered *)

Section MoreVocabulary.
Import SocketPool Apn.

(** What the sequential cache can have done for a log entry: the cache
    before and after the request. *)
Definition step_ok (e : entry) (c c' : gmap string value) : Prop :=
  match e with
  | E_get key r => c' = c /\ forall v, r = inr (Some v) -> c !! key = Some v
  | E_set key v _ => c' = c \/ c' = <[key := v]> c
  | E_add key v _ true => c !! key = None /\ c' = <[key := v]> c
  | E_add _ _ _ false => c' = c
  | E_incr key delta initial_value (Some n) =>
      c' = <[key := VInt (Z.to_N n)]> c /\ 0 <= n /\
      (c !! key = None /\ n = Z.of_N (Z.to_N (initial_value + delta)) \/
       exists old, c !! key = Some (VInt old) /\ n = Z.of_N (Z.to_N (Z.of_N old + delta)))
  | E_incr _ _ _ None => c' = c
  | E_decr key delta =>
      c' = c \/
      exists old, c !! key = Some (VInt old) /\
                  c' = <[key := VInt (Z.to_N (Z.of_N old - delta))]> c
  | E_delete key => c' = c \/ c' = delete key c
  | _ => c' = c
  end.

(** The caches a log can lead to. *)
Fixpoint replay (t : list entry) (c c' : gmap string value) : Prop :=
  match t with
  | [] => c' = c
  | e :: t' => exists c1, step_ok e c c1 /\ replay t' c1 c'
  end.

(** Entries that can change what the cache holds under [k]. *)
Definition touches (k : string) (e : entry) : bool :=
  match e with
  | E_set k' _ _ | E_add k' _ _ true | E_incr k' _ _ (Some _)
  | E_decr k' _ | E_delete k' => bool_decide (k' = k)
  | _ => false
  end.

(** Entries of a release: a stored payload, a deleted lock. *)
Definition releases (e : entry) : bool :=
  match e with
  | E_set _ _ _ | E_delete _ => true
  | _ => false
  end.

Definition is_newconn (e : entry) : bool :=
  match e with E_newconn _ _ _ => true | _ => false end.



(** Entries logged before the lease attempt of a run whose probe
    completed, with the key of the size adjustments. *)
Definition orderly (self : PooledConnection) (e : entry) : bool :=
  match e with
  | E_get _ (inr _) | E_randint _ _ _ | E_random _ => true
  | E_incr k _ _ _ | E_decr k _ => bool_decide (k = size_key self)
  | _ => false
  end.

(** An [add] that took the lock. *)
Definition is_add_true (e : entry) : bool :=
  match e with E_add _ _ _ true => true | _ => false end.

(** The ways [_findConnection] returns: with the lock of a slot and its
    cached or a new connection; unpooled after a lost lock; unpooled after
    a failed growth. *)
Inductive returned_trace (self : PooledConnection)
  : list entry -> option string -> Connection -> Prop :=
| returned_leased pre avail connId fut tf c :
    Forall (fun e => orderly self e = true) pre ->
    fetched self fut tf (Returned c) ->
    returned_trace self
      (pre ++ E_choice avail connId :: E_get connId fut
           :: E_add (lock_key connId) (VBool true) 60 true :: tf)
      (Some connId) c
| returned_contended pre avail connId fut r c :
    Forall (fun e => orderly self e = true) pre ->
    returned_trace self
      (pre ++ [E_choice avail connId; E_get connId fut;
               E_add (lock_key connId) (VBool true) 60 false;
               E_incr (size_key self) 1 0 r;
               E_newconn (host self) (port self) (inr c)])
      None c
| returned_unpooled pre c :
    Forall (fun e => orderly self e = true) pre ->
    returned_trace self
      (pre ++ [E_newconn (host self) (port self) (inr c)]) None c.

Definition is_decr (e : entry) : bool :=
  match e with E_decr _ _ => true | _ => false end.

(** The frames a log shows as written without error, in order. *)
Definition accepted (t : list entry) : list (list byte) :=
  omap (fun e => match e with E_write _ msg None => Some msg | _ => None end) t.

(** The frames of the requests [communicate] does not skip, as
    [struct.pack] gives them. *)
Definition frames (requests : list (option (list byte * list byte)))
  : list (exn + list byte) :=
  (fun r : list byte * list byte => pack_frame r.1 r.2) <$> omap id requests.

(** [len(s)]. *)
Definition pystr_length (s : pystr) : nat :=
  match s with Str bs => length bs | Unicode cps => length cps end.

(** An ASCII character that [json.dumps] writes as it is. *)
Definition plain (c : Z) : bool :=
  (0x20 <=? c) && (c <? 0x80) && negb (c =? 34) && negb (c =? 92).

(** Draws answered as Python's [random] does: [randint(a, b)] within its
    bounds, [choice(seq)] by an element of [seq]. *)
Definition draw_ok (e : entry) : Prop :=
  match e with
  | E_randint a b r => a <= b -> a <= r <= b
  | E_choice seq r => seq <> [] -> r ∈ seq
  | _ => True
  end.

(** An empty cache and a peer that has gone: every write fails with
    [EPIPE]. *)
Definition broken_world : World :=
  MkWorld ∅ [] [] [] [] [Some (IOError 32); Some (IOError 32)].

End MoreVocabulary.

(* ===================================================================== *)
(** * Properties *)
(* ===================================================================== *)

(** ** The restartable digest *)

Section Sha1Facts.
Import PureSha1.

Arguments process : simpl never.
Arguments expand : simpl never.
Arguments load_words : simpl never.

Example sha1_abc :
  hash (bytes_of_string "abc") = Some "a9993e364706816aba3e25717850c26c9cd0d89d"%string.
Proof. vm_compute. reflexivity. Qed.

Example sha1_empty :
  hash [] = Some "da39a3ee5e6b4b0d3255bfef95601890afd80709"%string.
Proof. vm_compute. reflexivity. Qed.

Lemma BE32_slice (l : list byte) (j : nat) :
  (j + 4 <= length l)%nat -> is_Some (BE32 (slice l j (j + 4))).
Proof.
  intros Hlen. unfold BE32, slice.
  replace (j + 4 - j)%nat with 4%nat by lia.
  assert (Hk : forall k, (k < 4)%nat -> is_Some (take 4 (drop j l) !! k)).
  { intros k Hk. apply lookup_lt_is_Some.
    rewrite length_take, length_drop. lia. }
  destruct (Hk 0%nat) as [b0 ->]; [lia|].
  destruct (Hk 1%nat) as [b1 ->]; [lia|].
  destruct (Hk 2%nat) as [b2 ->]; [lia|].
  destruct (Hk 3%nat) as [b3 ->]; [lia|].
  simpl. eauto.
Qed.

Lemma load_words_is_Some (block : list byte) :
  length block = 64%nat -> is_Some (load_words block).
Proof.
  intros Hlen. unfold load_words. apply mapM_is_Some.
  apply Forall_forall. intros t Ht. apply elem_of_seq in Ht.
  simpl. apply BE32_slice. lia.
Qed.

(** The assertion of [process] holds on every 64-byte block. *)
Lemma process_is_Some (block : list byte) (st : words) :
  length block = 64%nat -> is_Some (process block st).
Proof.
  intros Hlen. unfold process.
  destruct (decide (length block = 64%nat)) as [_|]; [|done].
  destruct (load_words_is_Some block Hlen) as [W0 ->].
  cbn [mbind option_bind].
  destruct (foldl _ _ _) as [[[[a b] c] d] e].
  destruct st as [[[[s0 s1] s2] s3] s4]. eauto.
Qed.

(** More fuel never changes a result of the [update] loop. *)
Lemma consume_fuel_mono (f : nat) : forall f' st buf r,
  (f <= f')%nat -> consume f st buf = Some r -> consume f' st buf = Some r.
Proof.
  induction f as [|f IH]; intros f' st buf r Hle H.
  - destruct f'; simpl in *; destruct (decide (64 <= length buf)%nat); done.
  - destruct f' as [|f']; [lia|]. simpl in *.
    destruct (decide (64 <= length buf)%nat); [|done].
    destruct (process (take 64 buf) st) as [st'|]; [|done]. simpl in *.
    apply IH; [lia|done].
Qed.

Lemma consume_fuel_agree (f f' : nat) st buf r r' :
  consume f st buf = Some r -> consume f' st buf = Some r' -> r = r'.
Proof.
  intros H H'.
  apply (consume_fuel_mono _ (f `max` f')%nat) in H; [|lia].
  apply (consume_fuel_mono _ (f `max` f')%nat) in H'; [|lia].
  congruence.
Qed.

(** The loop of [update] ends, leaving fewer than 64 pending bytes. *)
Lemma consume_total (f : nat) : forall st buf,
  (length buf <= f * 64 + 63)%nat ->
  exists st' rest, consume f st buf = Some (st', rest) /\ (length rest < 64)%nat.
Proof.
  induction f as [|f IH]; intros st buf Hlen; simpl.
  - destruct (decide (64 <= length buf)%nat); [lia|].
    exists st, buf. split; [done|lia].
  - destruct (decide (64 <= length buf)%nat) as [Hge|Hlt].
    + destruct (process_is_Some (take 64 buf) st) as [st1 ->].
      { rewrite length_take. lia. }
      simpl. apply IH. rewrite length_drop. lia.
    + exists st, buf. split; [done|lia].
Qed.

(** Bytes appended behind the pending buffer do not change the blocks
    that are already complete. *)
Lemma consume_app (f : nat) : forall st buf st' rest more g,
  consume f st buf = Some (st', rest) ->
  (length (rest ++ more) <= g * 64 + 63)%nat ->
  consume (f + g) st (buf ++ more) = consume g st' (rest ++ more).
Proof.
  induction f as [|f IH]; intros st buf st' rest more g H Hg; simpl in H.
  - destruct (decide (64 <= length buf)%nat); [done|].
    by simplify_eq.
  - destruct (decide (64 <= length buf)%nat) as [Hge|Hlt].
    + destruct (process (take 64 buf) st) as [st1|] eqn:Hp; [|done].
      simpl in H. simpl.
      destruct (decide (64 <= length (buf ++ more))%nat) as [_|Hn];
        [|rewrite length_app in Hn; lia].
      rewrite take_app_le by lia. rewrite Hp. simpl.
      rewrite drop_app_le by lia. by apply IH.
    + simplify_eq.
      destruct (consume_total g st' (rest ++ more) Hg) as (st2 & rest2 & Heq & _).
      rewrite Heq. eapply consume_fuel_mono; [|exact Heq]. lia.
Qed.

(** [update] always returns, with fewer than 64 pending bytes. *)
Lemma update_total (m : sha1) (bs : list byte) :
  exists m', update m bs = Some m' /\ (length (unprocessedBytes m') < 64)%nat.
Proof.
  unfold update.
  destruct (consume_total (length (unprocessedBytes m ++ bs)) (state m)
              (unprocessedBytes m ++ bs)) as (st' & rest & -> & Hlt); [lia|].
  simpl. eauto.
Qed.

(** Two successive [update] calls are one [update] with the concatenation. *)
Lemma update_app (m : sha1) (A B : list byte) :
  (m1 ← update m A; update m1 B) = update m (A ++ B).
Proof.
  unfold update.
  destruct (consume_total (length (unprocessedBytes m ++ A)) (state m)
              (unprocessedBytes m ++ A)) as (st1 & rest1 & H1 & Hlt1); [lia|].
  rewrite H1. simpl.
  destruct (consume_total (length (rest1 ++ B)) st1 (rest1 ++ B))
    as (st2 & rest2 & H2 & Hlt2); [lia|].
  rewrite H2. simpl.
  pose proof (consume_app _ _ _ _ _ B (length (rest1 ++ B)) H1) as Happ.
  rewrite H2 in Happ. rewrite (assoc_L (++)).
  destruct (consume_total (length ((unprocessedBytes m ++ A) ++ B)) (state m)
              ((unprocessedBytes m ++ A) ++ B)) as (st3 & rest3 & H3 & _); [lia|].
  rewrite H3. simpl.
  pose proof (consume_fuel_agree _ _ _ _ _ _ H3 (Happ ltac:(lia))) as Heq.
  simplify_eq. rewrite length_app, Nat2Z.inj_add. do 2 f_equal. lia.
Qed.

Lemma chr_land_is_Some (n : Z) : is_Some (chr (Z.land n 0xFF)).
Proof.
  unfold chr.
  assert (0 <= Z.land n 0xFF < 256).
  { change 0xFF with (Z.ones 8). rewrite Z.land_ones by lia.
    apply Z.mod_pos_bound. lia. }
  destruct (0 <=? Z.land n 0xFF) eqn:E1; [|lia].
  destruct (Z.land n 0xFF <? 256) eqn:E2; [|lia]. simpl.
  destruct (Z.land n 0xFF) as [|p|p] eqn:E; [by eexists| |lia].
  simpl. unfold Byte.of_N.
  assert (Hp : (N.pos p < 256)%N) by lia.
  destruct (Byte.of_N (N.pos p)) eqn:Eb; [by eexists|].
  apply Byte.of_N_None_iff in Eb. lia.
Qed.

Lemma intTo4Bytes_is_Some (n : Z) :
  exists bs, intTo4Bytes (Z.land n 0xFFFFFFFF) = Some bs /\ length bs = 4%nat.
Proof.
  unfold intTo4Bytes.
  assert (H0 : is_Some (chr (Z.shiftr (Z.land n 0xFFFFFFFF) 24))).
  { replace (Z.shiftr (Z.land n 0xFFFFFFFF) 24)
      with (Z.land (Z.shiftr (Z.land n 0xFFFFFFFF) 24) 0xFF);
      [apply chr_land_is_Some|].
    change 0xFF with (Z.ones 8). change 0xFFFFFFFF with (Z.ones 32).
    rewrite Z.land_ones by lia. rewrite Z.land_ones by lia.
    rewrite Z.shiftr_div_pow2 by lia.
    apply Z.mod_small.
    pose proof (Z.mod_pos_bound n (2 ^ 32)). 
    split; [apply Z.div_pos; lia|apply Z.div_lt_upper_bound; lia]. }
  destruct H0 as [c0 ->].
  destruct (chr_land_is_Some (Z.shiftr (Z.land n 0xFFFFFFFF) 16)) as [c1 ->].
  destruct (chr_land_is_Some (Z.shiftr (Z.land n 0xFFFFFFFF) 8)) as [c2 ->].
  destruct (chr_land_is_Some (Z.land n 0xFFFFFFFF)) as [c3 ->].
  simpl. eauto.
Qed.

(** [hexdigest] always returns on an object with fewer than 64 pending bytes. *)
Lemma hexdigest_total (m : sha1) :
  (length (unprocessedBytes m) < 64)%nat -> is_Some (hexdigest m).
Proof.
  intros Hlt. unfold hexdigest.
  destruct (intTo4Bytes_is_Some (Z.shiftr (size m * 8) 32)) as (hi & -> & Hhi).
  destruct (intTo4Bytes_is_Some (size m * 8)) as (lo & -> & Hlo).
  assert (Hfill : forall l : list byte, (length l <= 56)%nat ->
            length (zero_fill 56 l ++ hi ++ lo) = 64%nat).
  { intros l Hl. unfold zero_fill.
    rewrite !length_app, length_replicate. lia. }
  destruct (decide (56 < length (unprocessedBytes m ++ [x80]))%nat) as [Hgt|Hle].
  - destruct (process_is_Some (zero_fill 64 (unprocessedBytes m ++ [x80])) (state m))
      as [st ->].
    { unfold zero_fill. rewrite !length_app, length_replicate.
      rewrite length_app in Hgt. simpl in *. lia. }
    cbn [mbind option_bind].
    destruct (process_is_Some (zero_fill 56 [] ++ hi ++ lo) st) as [w ->];
      [apply Hfill; simpl; lia|].
    destruct w as [[[[a b] c] d] e]. by eexists.
  - cbn [mbind option_bind].
    destruct (process_is_Some (zero_fill 56 (unprocessedBytes m ++ [x80]) ++ hi ++ lo)
                (state m)) as [w ->]; [apply Hfill; lia|].
    destruct w as [[[[a b] c] d] e]. by eexists.
Qed.

Lemma loads_dumps (m : sha1) : loads (dumps m) = m.
Proof. by destruct m. Qed.

Lemma copy_eq (m : sha1) : copy m = m.
Proof. by destruct m. Qed.

(** C1.  For all byte strings [A] and [B]: hashing [A], pickling the
    digest object (or taking [copy()]), restoring it, updating with [B]
    and calling [hexdigest()] returns a digest, and it is the digest of
    one continuous update over [A ++ B]; every split of the same input
    therefore gives the same digest. *)
Theorem sha1_restart_split_independent (A B : list byte) :
  exists d : string,
    hash (A ++ B) = Some d /\
    restarted A B = Some d /\
    restarted_copy A B = Some d.
Proof.
  destruct (update_total init0 (A ++ B)) as (m & Hm & Hlt).
  destruct (hexdigest_total m Hlt) as [d Hd].
  exists d.
  assert (Hone : hash (A ++ B) = Some d).
  { unfold hash, new. rewrite Hm. exact Hd. }
  pose proof (update_app init0 A B) as Happ. rewrite Hm in Happ.
  split; [exact Hone|].
  unfold restarted, restarted_copy.
  destruct (update init0 A) as [m1|]; [|done].
  cbn [mbind option_bind] in *.
  rewrite loads_dumps, copy_eq, Happ.
  cbn [mbind option_bind]. auto.
Qed.

End Sha1Facts.

(** ** Runs of the coordinator against an arbitrary environment *)

Section PoolRuns.
Import SocketPool.

Context {S : Type} (h : handler S).

Lemma bind_ret {A B : Type} (a : A) (f : A -> prog B) : Ret a ≫= f = f a.
Proof. reflexivity. Qed.

Lemma bind_raise {A B : Type} (e : exn) (f : A -> prog B) : Raise e ≫= f = Raise e.
Proof. reflexivity. Qed.

Lemma bind_vis {A B X : Type} (ev : event X) (k : X -> prog A) (f : A -> prog B) :
  Vis ev k ≫= f = Vis ev (fun x => k x ≫= f).
Proof. reflexivity. Qed.

Lemma exec_vis {R X : Type} (ev : event X) (k : X -> prog R) (s : S) :
  exec h (Vis ev k) s =
    (let '(x, s1) := h X ev s in
     let '(t, o, s2) := exec h (k x) s1 in (log ev x :: t, o, s2)).
Proof. reflexivity. Qed.

Lemma exec_bind {A B : Type} (m : prog A) (f : A -> prog B) (s : S) :
  exec h (m ≫= f) s =
    (let '(t1, o1, s1) := exec h m s in
     match o1 with
     | Returned a => let '(t2, o2, s2) := exec h (f a) s1 in (t1 ++ t2, o2, s2)
     | Raised e => (t1, Raised e, s1)
     end).
Proof.
  unfold mbind, prog_bind. revert s.
  induction m as [a|e|X ev k IH]; intros s; simpl.
  - by destruct (exec h (f a) s) as [[t o] s'].
  - done.
  - destruct (h X ev s) as [x s1]. rewrite IH.
    destruct (exec h (k x) s1) as [[t1 [a|e]] s2]; [|done].
    by destruct (exec h (f a) s2) as [[t2 o2] s3].
Qed.

Lemma exec_catch {A : Type} (m : prog A) (hd : exn -> prog A) (s : S) :
  exec h (catch m hd) s =
    (let '(t1, o1, s1) := exec h m s in
     match o1 with
     | Returned a => (t1, Returned a, s1)
     | Raised e => let '(t2, o2, s2) := exec h (hd e) s1 in (t1 ++ t2, o2, s2)
     end).
Proof.
  revert s. induction m as [a|e|X ev k IH]; intros s; simpl.
  - done.
  - by destruct (exec h (hd e) s) as [[t o] s'].
  - destruct (h X ev s) as [x s1]. rewrite IH.
    destruct (exec h (k x) s1) as [[t1 [a|e]] s2]; [done|].
    by destruct (exec h (hd e) s2) as [[t2 o2] s3].
Qed.

(** A run of [m ≫= f] is a run of [m] that raised, or a run of [m]
    followed by a run of [f]. *)
Lemma exec_bind_inv {A B : Type} (m : prog A) (f : A -> prog B) s t o s' :
  exec h (m ≫= f) s = (t, o, s') ->
  (exists e, exec h m s = (t, Raised e, s') /\ o = Raised e) \/
  (exists t1 a s1 t2,
      exec h m s = (t1, Returned a, s1) /\
      exec h (f a) s1 = (t2, o, s') /\ t = t1 ++ t2).
Proof.
  rewrite exec_bind. destruct (exec h m s) as [[t1 [a|e]] s1].
  - destruct (exec h (f a) s1) as [[t2 o2] s2] eqn:E2. intros [= <- <- <-].
    right. by exists t1, a, s1, t2.
  - intros [= <- <- <-]. left. by exists e.
Qed.

Lemma exec_issue_probes (self : PooledConnection) (numbers : list Z) (s : S) :
  exists av s',
    exec h (issue_probes self numbers) s = (probe_entry <$> av, Returned av, s') /\
    av.*1 = item_id self <$> numbers.
Proof.
  revert s. induction numbers as [|n numbers IH]; intros s.
  - by exists [], s.
  - cbn [issue_probes]. unfold memcache_get.
    rewrite bind_vis, exec_vis.
    destruct (h _ (MemcacheGet (lock_key (item_id self n))) s) as [fut s1].
    rewrite bind_ret, exec_bind.
    destruct (IH s1) as (av & s' & -> & Hav).
    exists ((item_id self n, fut) :: av), s'. cbn [exec log fmap list_fmap fst].
    by rewrite app_nil_r, Hav.
Qed.

(** Looking at the answers asks nothing of the environment; when it does
    not raise, it keeps exactly the ids whose answer was false. *)
Lemma exec_collect_available (av : list (string * future (option value))) (s : S) :
  exists o,
    exec h (collect_available av) s = ([], o, s) /\
    forall ids, o = Returned ids ->
      ids = (filter (fun p => is_free p.2 = true) av).*1 /\
      Forall (fun p => exists r, p.2 = inr r) av.
Proof.
  induction av as [|[id fut] av (o & Hrun & Hids)].
  - exists (Returned []). split; [done|]. by intros ids [= <-].
  - cbn [collect_available]. destruct fut as [e|r]; cbn [await].
    + exists (Raised e). split; [done|]. by intros ids [=].
    + rewrite bind_ret, exec_bind, Hrun.
      destruct o as [ids'|e].
      * exists (Returned (if truthy_opt r then ids' else id :: ids')).
        split; [done|]. intros ids [= <-].
        destruct (Hids ids' eq_refl) as [-> Hall].
        split; [|constructor; eauto].
        rewrite filter_cons. cbn [is_free snd].
        destruct (truthy_opt r); cbn; by case_decide.
      * exists (Raised e). split; [done|]. by intros ids [=].
Qed.

Lemma exec_ask {X : Type} (ev : event X) (s : S) :
  exec h (Vis ev Ret) s = ([log ev (h X ev s).1], Returned (h X ev s).1, (h X ev s).2).
Proof. simpl. by destruct (h X ev s). Qed.

Lemma exec_await {A : Type} (fut : future A) (s : S) :
  exec h (await fut) s =
    ([], match fut with inl e => Raised e | inr a => Returned a end, s).
Proof. by destruct fut. Qed.

Lemma exec_probe_numbers (sz : option value) s t o s' :
  exec h (probe_numbers sz) s = (t, o, s') ->
  Forall (fun e => read_entry e = true) t /\
  forall numbers, o = Returned numbers -> window sz t numbers.
Proof.
  unfold probe_numbers, window. destruct (truthy_opt sz) eqn:Htr.
  - destruct (sz ≫= int_of) as [n|] eqn:Hint.
    + destruct (10 <? n) eqn:Hn.
      * unfold randint. rewrite bind_vis, exec_vis.
        destruct (h Z (RandInt 0 (n - 10)) s) as [index s1].
        rewrite bind_ret. cbn [exec log]. intros [= <- <- <-].
        split; [by repeat constructor|]. intros numbers [= <-].
        right. exists n. repeat split; try done.
        right. split; [lia|]. by exists index.
      * intros [= <- <- <-]. split; [done|]. intros numbers [= <-].
        right. exists n. repeat split; try done. left. split; [lia|done].
    + intros [= <- <- <-]. split; [done|]. by intros numbers [=].
  - intros [= <- <- <-]. split; [done|]. intros numbers [= <-]. by left.
Qed.

(** What a completed probe has logged and found: the size lookup, the
    window draw if any, then one lock query per probed index, all
    answered; the available ids are those answered false. *)
Lemma exec_probe (self : PooledConnection) s t o s' :
  exec h (probe self) s = (t, o, s') ->
  Forall (fun e => read_entry e = true) t /\
  forall sz av ids, o = Returned (sz, av, ids) ->
    exists pre numbers,
      t = E_get (size_key self) (inr sz) :: pre ++ (probe_entry <$> av) /\
      window sz pre numbers /\
      av.*1 = item_id self <$> numbers /\
      ids = (filter (fun p => is_free p.2 = true) av).*1 /\
      Forall (fun p => exists r, p.2 = inr r) av.
Proof.
  unfold probe, memcache_get. rewrite bind_vis, exec_vis.
  destruct (h _ (MemcacheGet (size_key self)) s) as [fut s1].
  rewrite bind_ret.
  destruct (exec h (_ ≫= _) s1) as [[t0 o0] s0] eqn:Hrest.
  cbn [log]. intros [= <- <- <-].
  apply exec_bind_inv in Hrest as [(e & Hr & ->)|(t1 & sz & s2 & t2 & H1 & Hrest & ->)].
  { rewrite exec_await in Hr. injection Hr as <- Hfut <-.
    split; [by repeat constructor|]. by intros ??? [=]. }
  rewrite exec_await in H1. injection H1 as <- Hfut <-.
  destruct fut as [e|sz']; [done|]. injection Hfut as ->.
  apply exec_bind_inv in Hrest as [(e & Hr & ->)|(t1 & numbers & s3 & t3 & H1 & Hrest & ->)].
  { apply exec_probe_numbers in Hr as [Hr _].
    split; [by constructor|]. by intros ??? [=]. }
  apply exec_probe_numbers in H1 as [Hread Hwin]. specialize (Hwin numbers eq_refl).
  destruct (exec_issue_probes self numbers s3) as (av & s4 & Hav & Hids).
  rewrite exec_bind, Hav in Hrest.
  destruct (exec_collect_available av s4) as (oc & Hc & Hfree).
  rewrite exec_bind, Hc in Hrest.
  assert (Hprobes : Forall (fun e => read_entry e = true) (probe_entry <$> av)).
  { apply Forall_fmap, Forall_forall. by intros [??] _. }
  destruct oc as [ids|e]; cbn in Hrest; injection Hrest as <- <- <-.
  - rewrite !app_nil_r, app_nil_l. split.
    { constructor; [done|]. by apply Forall_app. }
    intros sz' av' ids' [= <- <- <-].
    destruct (Hfree ids eq_refl) as [-> Hans].
    by exists t1, numbers.
  - rewrite !app_nil_r, app_nil_l. split.
    { constructor; [done|]. by apply Forall_app. }
    by intros ??? [=].
Qed.

Lemma exec_getNewConnection (self : PooledConnection) (s : S) :
  exists rc s1,
    exec h (getNewConnection self) s =
      ([E_newconn (host self) (port self) rc], delivered rc, s1).
Proof.
  unfold getNewConnection. rewrite bind_vis, exec_vis.
  destruct (h _ (NewConnection (host self) (port self) (_pemPath self)) s) as [rc s1].
  exists rc, s1. rewrite bind_ret, exec_await. by destruct rc.
Qed.

Lemma exec_unpooled (self : PooledConnection) (s : S) :
  exists rc s1,
    exec h (unpooled self) s =
      ([E_newconn (host self) (port self) rc], unpooled_result rc, s1).
Proof.
  unfold unpooled. destruct (exec_getNewConnection self s) as (rc & s1 & Hrun).
  exists rc, s1. rewrite exec_bind, Hrun. by destruct rc.
Qed.

Lemma exec_fetch_or_create (self : PooledConnection) fut s t o s' :
  exec h (fetch_or_create self fut) s = (t, o, s') -> fetched self fut t o.
Proof.
  unfold fetch_or_create. destruct fut as [e|r]; cbn [await].
  { rewrite bind_raise. cbn. intros [= <- <- <-]. by constructor. }
  rewrite bind_ret.
  assert (Hnew : exec h (getNewConnection self) s = (t, o, s') ->
                 fetched self (inr r) t o).
  { destruct (exec_getNewConnection self s) as (rc & s1 & ->).
    intros [= <- <- <-]. by eapply fetched_create. }
  destruct r as [v|]; [|done].
  destruct (truthy v) eqn:Htr; cbn [negb]; [|done].
  destruct v as [n|b|c].
  - cbn. intros [= <- <- <-]. by eapply fetched_not_a_connection.
  - cbn. intros [= <- <- <-]. by eapply fetched_not_a_connection.
  - destruct (closed c) eqn:Hcl; [done|].
    cbn. intros [= <- <- <-]. by eapply fetched_reuse.
Qed.

Lemma exec_lock_and_fetch (self : PooledConnection) (avail : list string) s t o s' :
  exec h (lock_and_fetch self avail) s = (t, o, s') -> lease_trace self avail t o.
Proof.
  unfold lock_and_fetch. destruct avail as [|a avail].
  { cbn. intros [= <- <- <-]. by constructor. }
  cbn [random_choice]. rewrite bind_vis, exec_vis.
  destruct (h _ (RandomChoice (a :: avail)) s) as [connId s1]. rewrite bind_ret.
  unfold memcache_get, memcache_add. rewrite bind_vis, exec_vis.
  destruct (h _ (MemcacheGet connId) s1) as [fut s2]. rewrite bind_ret.
  rewrite bind_vis, exec_vis.
  destruct (h _ (MemcacheAdd (lock_key connId) (VBool true) 60) s2) as [locked s3].
  rewrite bind_ret. destruct locked.
  - rewrite exec_bind, exec_catch.
    destruct (exec h (fetch_or_create self fut) s3) as [[t1 o1] s4] eqn:Hf.
    apply exec_fetch_or_create in Hf. destruct o1 as [c|e].
    + cbn. intros [= <- <- <-]. rewrite app_nil_r. by apply lease_locked.
    + unfold memcache_delete. rewrite bind_vis, exec_vis.
      destruct (h _ (MemcacheDelete (lock_key connId)) s4) as [[] s5].
      cbn. intros [= <- <- <-]. by apply lease_released.
  - unfold memcache_incr. rewrite bind_vis, exec_vis.
    destruct (h _ (MemcacheIncr (size_key self) 1 0) s3) as [r s4].
    rewrite bind_ret. fold (unpooled self).
    destruct (exec_unpooled self s4) as (rc & s5 & ->).
    cbn. intros [= <- <- <-]. by apply lease_contended.
Qed.

Lemma exec_settle (self : PooledConnection) sz av ids s t o s' :
  exec h (settle self sz av ids) s = (t, o, s') -> settle_trace self sz av ids t o.
Proof.
  unfold settle. destruct ids as [|id ids].
  - unfold memcache_incr. rewrite bind_vis, exec_vis. fold (increment_for sz).
    destruct (h _ (MemcacheIncr (size_key self) (increment_for sz) 0) s) as [r s1].
    rewrite bind_ret. cbn [log].
    assert (Hun : truthy_int r = false ->
                  (let '(t0, o0, s2) := exec h (unpooled self) s1 in
                   (E_incr (size_key self) (increment_for sz) 0 r :: t0, o0, s2))
                  = (t, o, s') ->
                  settle_trace self sz av []
                    t o).
    { intros Hr. destruct (exec_unpooled self s1) as (rc & s2 & ->).
      intros [= <- <- <-]. by apply settle_unpooled. }
    destruct r as [n|]; [|by apply Hun].
    destruct (truthy_int (Some n)) eqn:Hn; [|by apply Hun].
    destruct (exec h (lock_and_fetch _ _) s1) as [[tl ol] s2] eqn:Hl.
    apply exec_lock_and_fetch in Hl. intros [= <- <- <-].
    apply settle_grow; [done| |done].
    cbn in Hn. intros ->. done.
  - fold (shrinkable av (id :: ids)).
    destruct (shrinkable av (id :: ids)) eqn:Hsh.
    + unfold random_random. rewrite bind_vis, exec_vis.
      destruct (h _ RandomRandom s) as [r s1]. rewrite bind_ret. cbn [log].
      destruct (below_2_percent r) eqn:Hr.
      * unfold memcache_decr. rewrite bind_vis, exec_vis.
        destruct (h _ (MemcacheDecr (size_key self) 1) s1) as [[] s2].
        rewrite bind_ret. cbn [log].
        destruct (exec h (lock_and_fetch _ _) s2) as [[tl ol] s3] eqn:Hl.
        apply exec_lock_and_fetch in Hl. intros [= <- <- <-].
        by apply settle_shrink.
      * rewrite bind_ret.
        destruct (exec h (lock_and_fetch _ _) s1) as [[tl ol] s3] eqn:Hl.
        apply exec_lock_and_fetch in Hl. intros [= <- <- <-].
        by apply settle_no_shrink.
    + intros Hl. apply exec_lock_and_fetch in Hl. by apply settle_lease.
Qed.

(** A run of [_findConnection] is a probe that raised, or a completed
    probe followed by lines 173-221. *)
Lemma exec_findConnection (self : PooledConnection) s t o s' :
  exec h (_findConnection self) s = (t, o, s') ->
  (exists e, exec h (probe self) s = (t, Raised e, s') /\ o = Raised e) \/
  (exists t1 sz av ids s1 t2,
      exec h (probe self) s = (t1, Returned (sz, av, ids), s1) /\
      settle_trace self sz av ids t2 o /\ t = t1 ++ t2).
Proof.
  unfold _findConnection. intros Hrun.
  apply exec_bind_inv in Hrun as [(e & Hp & ->)|(t1 & [[sz av] ids] & s1 & t2 & Hp & Hs & ->)].
  - left. by exists e.
  - right. exists t1, sz, av, ids, s1, t2. split; [done|].
    split; [|done]. by eapply exec_settle.
Qed.

Lemma calm_not_add (t : list entry) :
  Forall (fun e => calm e = true) t -> Forall (fun e => is_add e = false) t.
Proof. intros H. eapply Forall_impl; [exact H|]. by intros [| | | | | | | | | |]. Qed.

Lemma calm_no_failure (t : list entry) :
  Forall (fun e => calm e = true) t -> Forall (fun e => failure_of e = None) t.
Proof. intros H. eapply Forall_impl; [exact H|]. by intros [? []| | | | | | | | |? ? []|]. Qed.

Lemma probe_calm (self : PooledConnection) s t sz av ids s' :
  exec h (probe self) s = (t, Returned (sz, av, ids), s') ->
  Forall (fun e => calm e = true) t.
Proof.
  intros Hp. apply exec_probe in Hp as [_ Hp].
  destruct (Hp sz av ids eq_refl) as (pre & numbers & -> & Hwin & _ & _ & Hans).
  constructor; [done|]. apply Forall_app. split.
  - destruct Hwin as [(_ & -> & _)|(n & _ & _ & [(_ & -> & _)|(_ & index & -> & _)])];
      by repeat constructor.
  - apply Forall_fmap. eapply Forall_impl; [exact Hans|].
    intros [id fut] [r Hr]. cbn in Hr. by subst.
Qed.

(** The three ways a run of [_findConnection] is laid out. *)
Lemma find_trace_split (self : PooledConnection) s t o s' :
  exec h (_findConnection self) s = (t, o, s') ->
  (Forall (fun e => read_entry e = true) t /\ exists e, o = Raised e) \/
  (exists pre r rc,
      t = pre ++ [E_incr (size_key self) r.1 0 r.2; E_newconn (host self) (port self) rc] /\
      Forall (fun e => calm e = true) pre /\ o = unpooled_result rc) \/
  (exists pre avail tl,
      t = pre ++ tl /\ Forall (fun e => calm e = true) pre /\
      lease_trace self avail tl o).
Proof.
  intros Hrun.
  apply exec_findConnection in Hrun
    as [(e & Hp & ->)|(t1 & sz & av & ids & s1 & t2 & Hp & Hs & ->)].
  { left. apply exec_probe in Hp as [Hread _]. eauto. }
  right. apply probe_calm in Hp.
  destruct Hs as [n tl o _ _ Hl|r rc _ _|r tl o _ _ Hl|r tl o _ _ Hl|tl o _ _ Hl].
  - right. exists (t1 ++ [E_incr (size_key self) (increment_for sz) 0 (Some n)]),
      (new_ids self n (increment_for sz)), tl.
    rewrite <- app_assoc. split; [done|]. split; [|done].
    apply Forall_app. split; [done|]. by repeat constructor.
  - left. exists t1, (increment_for sz, r), rc. done.
  - right. exists (t1 ++ [E_random r; E_decr (size_key self) 1]), ids, tl.
    rewrite <- app_assoc. split; [done|]. split; [|done].
    apply Forall_app. split; [done|]. by repeat constructor.
  - right. exists (t1 ++ [E_random r]), ids, tl.
    rewrite <- app_assoc. split; [done|]. split; [|done].
    apply Forall_app. split; [done|]. by repeat constructor.
  - right. by exists t1, ids, tl.
Qed.

Lemma fetched_inv (self : PooledConnection) fut t o :
  fetched self fut t o ->
  (t = [] /\ forall e, o = Raised e -> fut = inl e \/ exists r, fut = inr r) \/
  (exists r rc, fut = inr r /\ t = [E_newconn (host self) (port self) rc]
                /\ o = delivered rc).
Proof.
  intros [c Hf Hc|r rc Hf|e Hf|v Hf Hv Hn].
  - left. split; [done|]. by intros e [=].
  - right. by exists r, rc.
  - left. split; [done|]. intros e' [= <-]. by left.
  - left. split; [done|]. intros e' _. right. eauto.
Qed.

Lemma calm_In_not_add (t : list entry) k v ttl r :
  Forall (fun e => calm e = true) t -> In (E_add k v ttl r) t -> False.
Proof.
  intros Hall Hin. rewrite Forall_forall in Hall.
  apply list_elem_of_In, Hall in Hin. done.
Qed.

End PoolRuns.

(** ** Properties of the pool coordinator *)

Section PoolClaims.
Import SocketPool.

Context {S : Type} (h : handler S).

(** Case analysis on a membership in an explicit list. *)
Ltac in_cases H :=
  cbn in H;
  repeat (destruct H as [H|H]; [try discriminate H|]);
  try contradiction.

(** C7.  When the add-if-absent on the lock key of the chosen slot comes
    back false, [_findConnection] does not try this or another slot
    again: that [add] is the only one of the run; it is followed by an
    increment of Size by 1 and by one new connection, which is returned
    with slot id [None]. *)
Theorem lock_contention_is_served_unpooled
    (self : PooledConnection) (s : S) t o s' k v ttl :
  exec h (_findConnection self) s = (t, o, s') ->
  In (E_add k v ttl false) t ->
  exists t0 r rc,
    t = t0 ++ [E_add k v ttl false;
               E_incr (size_key self) 1 0 r;
               E_newconn (host self) (port self) rc] /\
    Forall (fun e => is_add e = false) t0 /\
    o = unpooled_result rc.
Proof.
  intros Hrun Hin.
  apply find_trace_split in Hrun
    as [[Hread _]|[(pre & r & rc & -> & Hpre & _)|(pre & avail & tl & -> & Hpre & Hl)]].
  - exfalso. rewrite Forall_forall in Hread.
    apply list_elem_of_In, Hread in Hin. done.
  - exfalso. apply in_app_or in Hin as [Hin|Hin].
    + by eapply calm_In_not_add.
    + in_cases Hin.
  - apply in_app_or in Hin as [Hin|Hin].
    { exfalso. by eapply calm_In_not_add. }
    apply calm_not_add in Hpre.
    destruct Hl as [_|connId fut t c _ Hf|connId fut t e _ Hf|connId fut r rc _].
    + done.
    + exfalso. apply fetched_inv in Hf as [[-> _]|(r & rc & _ & -> & _)];
        in_cases Hin.
    + exfalso. apply fetched_inv in Hf as [[-> _]|(r & rc & _ & -> & _)];
        in_cases Hin.
    + in_cases Hin. injection Hin as <- <- <-.
      exists (pre ++ [E_choice avail connId; E_get connId fut]), r, rc.
      rewrite <- app_assoc. split; [done|]. split; [|done].
      apply Forall_app. split; [done|]. by repeat constructor.
Qed.

(** C8.  Once the lock [k] is held, an error in fetching the cached
    connection or in creating a new one makes [_findConnection] delete
    [k] as its last action and raise that same error. *)
Theorem failed_fetch_releases_lock
    (self : PooledConnection) (s : S) t o s' k v ttl e :
  exec h (_findConnection self) s = (t, o, s') ->
  In (E_add k v ttl true) t ->
  fetch_failed e t ->
  exists t0, t = t0 ++ [E_delete k] /\ o = Raised e.
Proof.
  intros Hrun Hin (x & Hx & Hfail).
  apply find_trace_split in Hrun
    as [[Hread _]|[(pre & r & rc & -> & Hpre & _)|(pre & avail & tl & -> & Hpre & Hl)]].
  - exfalso. rewrite Forall_forall in Hread.
    apply list_elem_of_In, Hread in Hin. done.
  - exfalso. apply in_app_or in Hin as [Hin|Hin].
    + by eapply calm_In_not_add.
    + in_cases Hin.
  - assert (Hx' : In x tl).
    { apply in_app_or in Hx as [Hx|Hx]; [|done]. exfalso.
      apply calm_no_failure in Hpre. rewrite Forall_forall in Hpre.
      apply list_elem_of_In, Hpre in Hx. congruence. }
    apply in_app_or in Hin as [Hin|Hin].
    { exfalso. by eapply calm_In_not_add. }
    clear Hx.
    destruct Hl as [_|connId fut t c _ Hf|connId fut t e0 _ Hf|connId fut r rc _].
    + done.
    + exfalso.
      inversion Hf as [c' Hfut Hc|r rc Hfut Ht Hd|e' Hfut|v' Hfut Htr Hn]; subst.
      * in_cases Hx'; subst x; discriminate Hfail.
      * destruct rc as [e'|c']; [discriminate Hd|].
        in_cases Hx'; subst x; discriminate Hfail.
    + assert (k = lock_key connId) as ->.
      { apply fetched_inv in Hf as [[-> _]|(r & rc & _ & -> & _)];
          in_cases Hin; by injection Hin. }
      exists (pre ++ E_choice avail connId :: E_get connId fut
                :: E_add (lock_key connId) (VBool true) 60 true :: t).
      split; [by rewrite <- !app_assoc|]. f_equal.
      inversion Hf as [c' Hfut Hc|r rc Hfut Ht Hd|e' Hfut|v' Hfut Htr Hn]; subst.
      * destruct rc as [e'|c']; [|discriminate Hd]. injection Hd as ->.
        in_cases Hx'; subst x; try discriminate Hfail. by injection Hfail.
      * in_cases Hx'; subst x; try discriminate Hfail. by injection Hfail.
      * in_cases Hx'; subst x; discriminate Hfail.
    + exfalso. in_cases Hin.
Qed.

Lemma new_ids_candidates (self : PooledConnection) sz n :
  new_ids self n (increment_for sz) = candidates self sz n.
Proof.
  unfold new_ids, increment_for, candidates, range.
  destruct (truthy_opt sz).
  - change (Z.to_nat (2 - 0)) with 2%nat. cbn [seq fmap list_fmap].
    replace (n - 1 - (0 + Z.of_nat 0)) with (n - 1) by lia.
    by replace (n - 1 - (0 + Z.of_nat 1)) with (n - 2) by lia.
  - change (Z.to_nat (1 - 0)) with 1%nat. cbn [seq fmap list_fmap].
    by replace (n - 1 - (0 + Z.of_nat 0)) with (n - 1) by lia.
Qed.

(** C6.  When the probe found no free slot, the next request of
    [_findConnection] is the increment of Size, by 2 if the size read was
    non-zero and by 1 otherwise.  If it answers a non-zero size [n], the
    slot is chosen among the ids of the highest indices, [n-1] and (after
    a growth by 2) [n-2]; if it fails, one new connection is created and
    returned with slot id [None]. *)
Theorem grow_when_no_slot_free
    (self : PooledConnection) (s : S) t1 sz av s1 :
  exec h (probe self) s = (t1, Returned (sz, av, []), s1) ->
  exists r t2 o s',
    exec h (_findConnection self) s =
      (t1 ++ E_incr (size_key self) (if truthy_opt sz then 2 else 1) 0 r :: t2, o, s') /\
    after_growth self sz r t2 o.
Proof.
  intros Hp. unfold _findConnection. rewrite exec_bind, Hp.
  destruct (exec h (settle self sz av []) s1) as [[t2 o] s'] eqn:Hs.
  apply exec_settle in Hs.
  destruct Hs as [n tl o _ Hn Hl|r rc _ Hr|r tl o Hsh _ _|r tl o Hsh _ _|tl o Hne _ _];
    try done.
  - exists (Some n), tl, o, s'. split; [done|].
    unfold after_growth. destruct (n =? 0) eqn:Hz; [lia|].
    rewrite new_ids_candidates in Hl.
    destruct Hl as [Hnil|connId fut t c _ _|connId fut t e _ _|connId fut r rc _];
      [|by eauto..].
    unfold candidates in Hnil. by destruct (truthy_opt sz).
  - exists r, [E_newconn (host self) (port self) rc], (unpooled_result rc), s'.
    split; [done|]. unfold after_growth.
    destruct r as [n|]; [|by eauto].
    cbn in Hr. destruct (n =? 0); [by eauto|done].
Qed.

Lemma filter_all {A : Type} (P : A -> Prop) `{!forall x, Decision (P x)} (l : list A) :
  length (filter P l) = length l -> Forall P l.
Proof.
  induction l as [|x l IH]; [by constructor|].
  rewrite filter_cons. pose proof (length_filter P l) as Hle.
  destruct (decide (P x)); cbn [length]; intros Hlen.
  - constructor; [done|]. apply IH. lia.
  - lia.
Qed.

(** C3, as the code has it.  [_findConnection] asks for a decrement only
    of Size and only by 1, and only when the probe completed, queried more
    than one slot, every queried slot was free, and the draw was below
    0.02; the queried slots may be a window of a larger pool. *)
Theorem shrink_only_when_all_probed_free
    (self : PooledConnection) (s : S) t o s' k d :
  exec h (_findConnection self) s = (t, o, s') ->
  In (E_decr k d) t ->
  exists t1 sz av ids s1 r,
    exec h (probe self) s = (t1, Returned (sz, av, ids), s1) /\
    k = size_key self /\ d = 1 /\
    Forall (fun p => is_free p.2 = true) av /\
    (1 < length av)%nat /\
    In (E_random r) t /\ below_2_percent r = true.
Proof.
  intros Hrun Hin.
  apply exec_findConnection in Hrun
    as [(e & Hp & ->)|(t1 & sz & av & ids & s1 & t2 & Hp & Hs & ->)].
  { exfalso. apply exec_probe in Hp as [Hread _]. rewrite Forall_forall in Hread.
    apply list_elem_of_In, Hread in Hin. done. }
  assert (Hlease : forall avail tl o, lease_trace self avail tl o ->
                                      In (E_decr k d) tl -> False).
  { clear. intros avail tl o Hl Hin.
    destruct Hl as [_|connId fut t c _ Hf|connId fut t e _ Hf|connId fut r rc _].
    - done.
    - apply fetched_inv in Hf as [[-> _]|(r & rc & _ & -> & _)]; in_cases Hin.
    - apply fetched_inv in Hf as [[-> _]|(r & rc & _ & -> & _)]; in_cases Hin.
    - in_cases Hin. }
  apply in_app_or in Hin as [Hin|Hin].
  { exfalso. pose proof Hp as Hread. apply exec_probe in Hread as [Hread _].
    rewrite Forall_forall in Hread. apply list_elem_of_In, Hread in Hin. done. }
  destruct Hs as [n tl o _ _ Hl|r rc _ _|r tl o Hsh Hr Hl|r tl o _ _ Hl|tl o _ _ Hl].
  - exfalso. destruct Hin as [Hin|Hin]; [done|]. by eapply Hlease.
  - exfalso. in_cases Hin.
  - destruct Hin as [Hin|[Hin|Hin]]; [done| |exfalso; by eapply Hlease].
    injection Hin as <- <-.
    exists t1, sz, av, ids, s1, r.
    pose proof Hp as Hp'. apply exec_probe in Hp' as [_ Hp'].
    destruct (Hp' sz av ids eq_refl) as (pre & numbers & _ & _ & _ & Hids & _).
    unfold shrinkable in Hsh. apply andb_true_iff in Hsh as [H1 Hlen].
    apply Nat.ltb_lt in H1. apply Nat.eqb_eq in Hlen.
    rewrite Hids, length_fmap in Hlen, H1.
    repeat split; try done.
    + by apply (filter_all (fun p => is_free p.2 = true)).
    + lia.
    + apply in_or_app. right. by left.
  - exfalso. destruct Hin as [Hin|Hin]; [done|]. by eapply Hlease.
  - exfalso. by eapply Hlease.
Qed.

End PoolClaims.

(** ** One worker alone with the sequential cache *)

Section SeqCache.
Import SocketPool.

Lemma sum_with_app (f : entry -> Z) (t1 t2 : list entry) :
  sum_with f (t1 ++ t2) = sum_with f t1 + sum_with f t2.
Proof. unfold sum_with. induction t1 as [|e t1 IH]; cbn; [done|]. rewrite IH. lia. Qed.

Lemma counter_insert_ne (k k' : string) (v : value) (c : gmap string value) :
  k' <> k -> counter k (<[k' := v]> c) = counter k c.
Proof. intros Hne. unfold counter. by rewrite lookup_insert_ne. Qed.

Lemma counter_delete_ne (k k' : string) (c : gmap string value) :
  k' <> k -> counter k (delete k' c) = counter k c.
Proof. intros Hne. unfold counter. by rewrite lookup_delete_ne. Qed.

Lemma counter_insert (k : string) (n : N) (c : gmap string value) :
  counter k (<[k := VInt n]> c) = Z.of_N n.
Proof. unfold counter. by rewrite lookup_insert_eq. Qed.

(** One request moves the counter within the bounds of its log entry. *)
Lemma cache_step_counter (k : string) {X : Type} (ev : event X) (w : World) :
  counter_use k (log ev (cache_step ev w).1) ->
  lo k (log ev (cache_step ev w).1)
    <= counter k (cache (cache_step ev w).2) - counter k (cache w)
    <= hi k (log ev (cache_step ev w).1).
Proof.
  destruct ev as [key|key v time|key v time|key delta init|key delta|key| | | | |];
    cbn [cache_step next_fault next_int next_real next_conn next_write];
    try (cbn; lia).
  - destruct (hd NoFault (faults w)); cbn; lia.
  - destruct (hd NoFault (faults w)); cbn; try lia.
    intros Hne. rewrite counter_insert_ne by done. lia.
  - destruct (hd NoFault (faults w)); cbn; try lia.
    destruct (cache w !! key) eqn:Hk; cbn; try lia.
    intros Hne. rewrite counter_insert_ne by done. lia.
  - destruct (hd NoFault (faults w)); cbn [fst snd log hi lo cache counter_use]; try lia.
    destruct (decide (key = k)) as [->|Hne].
    + destruct (cache w !! k) as [[old|b|c]|] eqn:Hk;
        cbn [fst snd log hi lo cache set_cache counter_use];
        rewrite ?decide_True by done; try lia.
      * intros [Hd ->]; [done|]. rewrite counter_insert.
        unfold counter. rewrite Hk. lia.
      * intros [Hd ->]; [done|]. rewrite counter_insert.
        unfold counter. rewrite Hk. lia.
    + destruct (cache w !! key) as [[old|b|c]|] eqn:Hk;
        cbn [fst snd log hi lo cache set_cache counter_use];
        rewrite ?decide_False by done; intros _;
        rewrite ?counter_insert_ne by done; lia.
  - cbn [log lo hi counter_use]. intros Huse.
    assert (Hlo : (if decide (key = k) then - delta else 0) <= 0).
    { destruct (decide (key = k)) as [Heq|]; [specialize (Huse Heq)|]; lia. }
    destruct (hd NoFault (faults w)); cbn [fst snd cache set_cache]; try lia.
    destruct (cache w !! key) as [[old|b|c]|] eqn:Hk;
      cbn [fst snd cache set_cache]; try lia.
    destruct (decide (key = k)) as [->|Hne].
    + specialize (Huse eq_refl). rewrite counter_insert.
      unfold counter. rewrite Hk. lia.
    + rewrite counter_insert_ne by done. lia.
  - destruct (hd NoFault (faults w)); cbn; try lia.
    intros Hne. rewrite counter_delete_ne by done. lia.
Qed.

(** A whole run moves the counter within the bounds of its log. *)
Lemma exec_counter (k : string) {R : Type} (p : prog R) : forall (w : World) t o w',
  exec seq_cache p w = (t, o, w') ->
  Forall (counter_use k) t ->
  sum_with (lo k) t <= counter k (cache w') - counter k (cache w) <= sum_with (hi k) t.
Proof.
  induction p as [r|e|X ev kont IH]; intros w t o w'.
  - cbn. intros [= <- <- <-] _. cbn. lia.
  - cbn. intros [= <- <- <-] _. cbn. lia.
  - cbn [exec]. unfold seq_cache at 1.
    pose proof (cache_step_counter k ev w) as Hstep.
    destruct (cache_step ev w) as [x w1]. cbn [fst snd] in Hstep.
    destruct (exec seq_cache (kont x) w1) as [[t1 o1] w2] eqn:Hrest.
    intros [= <- <- <-] Hall. apply Forall_cons in Hall as [Huse Hall].
    specialize (IH x w1 t1 o1 w2 Hrest Hall). specialize (Hstep Huse).
    cbn [sum_with foldr]. fold (sum_with (lo k) t1). fold (sum_with (hi k) t1). lia.
Qed.

Lemma lock_key_not_size (self : PooledConnection) (connId : string) :
  lock_key connId <> size_key self.
Proof. unfold lock_key, size_key. cbn. discriminate. Qed.

Lemma budget_app (self : PooledConnection) t1 t2 l1 m1 l2 m2 :
  budget self t1 l1 m1 -> budget self t2 l2 m2 ->
  budget self (t1 ++ t2) (l1 + l2) (m1 + m2).
Proof.
  intros (Hu1 & Hl1 & Hm1) (Hu2 & Hl2 & Hm2). unfold budget.
  rewrite !sum_with_app. split; [by apply Forall_app|]. lia.
Qed.

Lemma budget_weaken (self : PooledConnection) t l m l' m' :
  budget self t l m -> l' <= l -> m <= m' -> budget self t l' m'.
Proof. intros (Hu & Hl & Hm) ? ?. unfold budget. split; [done|]. lia. Qed.

Lemma budget_reads (self : PooledConnection) (t : list entry) :
  Forall (fun e => read_entry e = true) t -> budget self t 0 0.
Proof.
  induction 1 as [|e t He _ IH]; [by repeat split|].
  change (e :: t) with ([e] ++ t). apply (budget_app self [e] t 0 0 0 0); [|done].
  destruct e; try done; by repeat split; [repeat constructor|cbn..].
Qed.

Lemma budget_fetched (self : PooledConnection) fut t o :
  fetched self fut t o -> budget self t 0 0.
Proof.
  intros Hf. apply fetched_inv in Hf as [[-> _]|(r & rc & _ & -> & _)].
  - by repeat split.
  - by repeat split; [repeat constructor|cbn..].
Qed.

(** A lease attempt adds at most 1 to the size and never lowers it. *)
Lemma budget_lease (self : PooledConnection) avail tl o :
  lease_trace self avail tl o -> budget self tl 0 1.
Proof.
  pose proof (lock_key_not_size self) as Hne.
  intros [_|connId fut t c _ Hf|connId fut t e _ Hf|connId fut r rc _].
  - by repeat split.
  - apply (budget_fetched self) in Hf.
    apply (budget_app self [E_choice avail connId; E_get connId fut;
                            E_add (lock_key connId) (VBool true) 60 true] t 0 0 0 0) in Hf;
      [by eapply budget_weaken|].
    by repeat split; [repeat constructor|cbn..].
  - apply (budget_fetched self) in Hf.
    apply (budget_app self _ [E_delete (lock_key connId)] 0 0 0 0) in Hf;
      [|by repeat split; [repeat constructor|cbn..]].
    apply (budget_app self [E_choice avail connId; E_get connId fut;
                            E_add (lock_key connId) (VBool true) 60 true] _ 0 0 0 0) in Hf;
      [by eapply budget_weaken|].
    by repeat split; [repeat constructor|cbn..].
  - split; [by repeat constructor|].
    cbn. destruct r; rewrite ?decide_True by done; lia.
Qed.

(** One call of [_findConnection], in any environment, adds between -1
    and 3 to the size, as far as its own requests go. *)
Lemma budget_findConnection {S : Type} (h : handler S)
    (self : PooledConnection) s t o s' :
  exec h (_findConnection self) s = (t, o, s') -> budget self t (-1) 3.
Proof.
  intros Hrun.
  apply exec_findConnection in Hrun
    as [(e & Hp & ->)|(t1 & sz & av & ids & s1 & t2 & Hp & Hs & ->)].
  { apply exec_probe in Hp as [Hread _].
    eapply budget_weaken; [by apply (budget_reads self)|lia..]. }
  apply exec_probe in Hp as [Hread _]. apply (budget_reads self) in Hread.
  assert (Hincr : 1 <= increment_for sz <= 2).
  { unfold increment_for. destruct (truthy_opt sz); lia. }
  cut (budget self t2 (-1) 3).
  { intros H2. by apply (budget_app self t1 t2 0 0 (-1) 3). }
  destruct Hs as [n tl o _ _ Hl|r rc _ _|r tl o _ _ Hl|r tl o _ _ Hl|tl o _ _ Hl];
    apply budget_lease in Hl || idtac.
  - apply (budget_app self [E_incr (size_key self) (increment_for sz) 0 (Some n)]
             tl 1 2 0 1) in Hl; [by eapply budget_weaken|].
    split; [constructor; [cbn; intros _; split; [lia|done]|constructor]|].
    cbn. rewrite decide_True by done. lia.
  - split; [constructor; [cbn; intros _; split; [lia|done]|by repeat constructor]|].
    cbn. destruct r; rewrite ?decide_True by done; lia.
  - apply (budget_app self [E_random r; E_decr (size_key self) 1] tl (-1) 0 0 1) in Hl;
      [by eapply budget_weaken|].
    split; [by repeat constructor|]. cbn. rewrite decide_True by done. lia.
  - apply (budget_app self [E_random r] tl 0 0 0 1) in Hl;
      [by eapply budget_weaken|].
    by repeat split; [repeat constructor|cbn..].
  - by eapply budget_weaken.
Qed.

(** C2, as the code has it.  One call of [_findConnection] changes the
    size held by the cache by -1, 0, +1, +2 or +3: the growth step and
    the increment after a lost lock can both happen in one call. *)
Theorem size_change_per_call (self : PooledConnection) (w : World) :
  In (size_change self w) [-1; 0; 1; 2; 3].
Proof.
  unfold size_change, after.
  destruct (exec seq_cache (_findConnection self) w) as [[t o] w'] eqn:Hrun.
  cbn [snd].
  change (size_of self (cache w')) with (counter (size_key self) (cache w')).
  change (size_of self (cache w)) with (counter (size_key self) (cache w)).
  pose proof (budget_findConnection _ _ _ _ _ _ Hrun) as (Huse & Hlo & Hhi).
  pose proof (exec_counter (size_key self) _ _ _ _ _ Hrun Huse) as Hb.
  set (d := counter (size_key self) (cache w') - counter (size_key self) (cache w)) in *.
  assert (Hd : d = -1 \/ d = 0 \/ d = 1 \/ d = 2 \/ d = 3) by lia.
  cbn. intuition.
Qed.

(** *** Instances and counterexamples *)

Example contended_world_cache :
  cache contended_world =
    list_to_map [(size_key self0, VInt 2);
                 (lock_key (slot 0), VBool true);
                 (lock_key (slot 1), VBool true);
                 (lock_key (slot 2), VBool true);
                 (slot 0, VConn (Conn 0 false));
                 (slot 2, VConn (Conn 0 false))].
Proof. vm_compute. reflexivity. Qed.

(** C2 fails: with Size 2 and the locks of slots 0, 1 and 2 held, one call
    grows the pool by 2, loses the lock of slot 2 and adds 1 more. *)
Lemma size_change_plus_three :
  size_change self0 contended_world = 3 /\ ~ one_step_claim self0 contended_world.
Proof.
  assert (H3 : size_change self0 contended_world = 3) by (vm_compute; reflexivity).
  split; [exact H3|]. unfold one_step_claim. rewrite H3.
  cbn. intros [H|[H|[H|[H|[]]]]]; discriminate H.
Qed.

(** C3 fails: with Size 11 the probe is a window of 10 slots; all are
    free, and the decrement is asked for. *)
Lemma shrink_on_windowed_probe : ~ shrink_needs_whole_pool self0 wide_world.
Proof.
  intros H. destruct (H (size_key self0) 1) as (t1 & sz & av & ids & w1 & Hp & _ & Hn).
  { vm_compute. tauto. }
  vm_compute in Hp. injection Hp as <- <- <- <- <-.
  vm_compute in Hn. discriminate Hn.
Qed.

Lemma shrink_only_when_all_probed_free_witness :
  exists t1 sz av ids s1 r,
    exec seq_cache (probe self0) wide_world = (t1, Returned (sz, av, ids), s1) /\
    size_key self0 = size_key self0 /\ 1 = 1 /\
    Forall (fun p => is_free p.2 = true) av /\
    (1 < length av)%nat /\
    In (E_random r) (exec seq_cache (_findConnection self0) wide_world).1.1 /\
    below_2_percent r = true.
Proof.
  apply (shrink_only_when_all_probed_free seq_cache self0 wide_world
           (exec seq_cache (_findConnection self0) wide_world).1.1
           (exec seq_cache (_findConnection self0) wide_world).1.2
           (exec seq_cache (_findConnection self0) wide_world).2).
  - by destruct (exec seq_cache (_findConnection self0) wide_world) as [[??]?].
  - vm_compute. tauto.
Defined.

Lemma grow_when_no_slot_free_witness :
  exists r t2 o s',
    exec seq_cache (_findConnection self0) busy_world =
      ([E_get (size_key self0) (inr (Some (VInt 1)));
        E_get (lock_key (slot 0)) (inr (Some (VBool true)))]
         ++ E_incr (size_key self0) 2 0 r :: t2, o, s') /\
    after_growth self0 (Some (VInt 1)) r t2 o.
Proof.
  apply (grow_when_no_slot_free seq_cache self0 busy_world
           [E_get (size_key self0) (inr (Some (VInt 1)));
            E_get (lock_key (slot 0)) (inr (Some (VBool true)))]
           (Some (VInt 1))
           [(slot 0, inr (Some (VBool true)))]
           (exec seq_cache (probe self0) busy_world).2).
  vm_compute. reflexivity.
Defined.

Lemma lock_contention_is_served_unpooled_witness :
  exists t0 r rc,
    (exec seq_cache (_findConnection self0) contended_world).1.1 =
      t0 ++ [E_add (lock_key (slot 2)) (VBool true) 60 false;
             E_incr (size_key self0) 1 0 r;
             E_newconn (host self0) (port self0) rc] /\
    Forall (fun e => is_add e = false) t0 /\
    (exec seq_cache (_findConnection self0) contended_world).1.2 = unpooled_result rc.
Proof.
  apply (lock_contention_is_served_unpooled seq_cache self0 contended_world
           _ _ (exec seq_cache (_findConnection self0) contended_world).2).
  - by destruct (exec seq_cache (_findConnection self0) contended_world) as [[??]?].
  - vm_compute. tauto.
Defined.

Lemma failed_fetch_releases_lock_witness :
  exists t0,
    (exec seq_cache (_findConnection self0) refusing_world).1.1 =
      t0 ++ [E_delete (lock_key (slot 0))] /\
    (exec seq_cache (_findConnection self0) refusing_world).1.2 = Raised (IOError 111).
Proof.
  apply (failed_fetch_releases_lock seq_cache self0 refusing_world
           _ _ (exec seq_cache (_findConnection self0) refusing_world).2
           (lock_key (slot 0)) (VBool true) 60 (IOError 111)).
  - by destruct (exec seq_cache (_findConnection self0) refusing_world) as [[??]?].
  - vm_compute. tauto.
  - exists (E_newconn (host self0) (port self0) (inl (IOError 111))).
    split; [vm_compute; tauto|reflexivity].
Defined.

End SeqCache.

(** ** Release *)

Section Release.
Import SocketPool.

(** C9.  [_saveConnection] with a slot id and a connection stores the
    connection under the slot's key for 120 seconds and after that
    deletes the slot's lock, and does nothing else; with slot id [None]
    it asks nothing of the cache. *)
Theorem release_stores_then_unlocks {S : Type} (h : handler S)
    (self : PooledConnection) (s : S) (connId : string) (connection : Connection) :
  connId <> EmptyString ->
  (exists s',
      exec h (_saveConnection self (Some connId) (Some connection)) s =
        ([E_set connId (VConn connection) 120; E_delete (lock_key connId)],
         Returned (), s')) /\
  (forall c, exec h (_saveConnection self None c) s = ([], Returned (), s)).
Proof.
  intros Hne. split.
  - unfold _saveConnection. destruct connId as [|a connId]; [done|].
    cbn [truthy_str]. unfold memcache_set, memcache_delete.
    rewrite bind_vis, exec_vis.
    destruct (h _ (MemcacheSet (String a connId) (VConn connection) _SOCKET_EXPIRE) s)
      as [[] s1].
    rewrite bind_ret, exec_vis.
    destruct (h _ (MemcacheDelete (lock_key (String a connId))) s1) as [[] s2].
    by exists s2.
  - by intros [c|].
Qed.

Lemma release_stores_then_unlocks_witness :
  (exists s',
      exec seq_cache (_saveConnection self0 (Some (slot 0)) (Some (Conn 7 false)))
          contended_world =
        ([E_set (slot 0) (VConn (Conn 7 false)) 120; E_delete (lock_key (slot 0))],
         Returned (), s')) /\
  (forall c, exec seq_cache (_saveConnection self0 None c) contended_world
             = ([], Returned (), contended_world)).
Proof.
  apply (release_stores_then_unlocks seq_cache self0 contended_world (slot 0) (Conn 7 false)).
  vm_compute. discriminate.
Defined.

End Release.

(** ** The APNs sender *)

Section Sender.
Import SocketPool Apn.

Context {S : Type} (h : handler S).

Lemma exec_send_all (self : PooledConnection) reqs : forall c s t o s',
  exec h (send_all self reqs c) s = (t, o, s') -> sends self c reqs t o.
Proof.
  induction reqs as [|[[token payload]|] reqs IH]; intros c s t o s'.
  - cbn. intros [= <- <- <-]. constructor.
  - cbn [send_all]. unfold send_one.
    destruct (pack_frame token payload) as [e|msg] eqn:Hpack; cbn [await].
    { rewrite !bind_raise. cbn. intros [= <- <- <-]. by apply sends_pack_error. }
    rewrite bind_ret. unfold conn_write. rewrite !bind_vis, exec_vis.
    destruct (h _ (ConnWrite c msg) s) as [[e|] s1]; rewrite !bind_ret; cbn [log].
    + destruct (is_IOError e) eqn:Hio.
      * unfold getNewConnection. rewrite !bind_vis, exec_vis.
        destruct (h _ (NewConnection (host self) (port self) (_pemPath self)) s1)
          as [[e2|c'] s2]; rewrite !bind_ret; cbn [await log].
        { rewrite !bind_raise. cbn. intros [= <- <- <-].
          by eapply sends_no_connection. }
        rewrite !bind_ret, !bind_vis, exec_vis.
        destruct (h _ (ConnWrite c' msg) s2) as [[e2|] s3]; rewrite !bind_ret; cbn [log].
        { rewrite !bind_raise. cbn. intros [= <- <- <-].
          by eapply sends_retry_failed. }
        destruct (exec h (send_all self reqs c') s3) as [[t1 o1] s4] eqn:Hrest.
        intros [= <- <- <-]. eapply sends_retried; eauto.
      * rewrite bind_raise. cbn. intros [= <- <- <-]. by eapply sends_fatal.
    + destruct (exec h (send_all self reqs c) s1) as [[t1 o1] s2] eqn:Hrest.
      intros [= <- <- <-]. eapply sends_written; eauto.
  - cbn [send_all]. intros Hrun. apply sends_skip. eauto.
Qed.

Lemma sends_last_connection (self : PooledConnection) c reqs t o :
  sends self c reqs t o ->
  forall c' b, o = Returned (c', b) -> c' = last_connection c t /\ b = true.
Proof.
  induction 1 as [c|c reqs t o _ IH|c token payload reqs e _
                  |c token payload msg reqs t o _ _ IH
                  |c token payload msg reqs e _ _
                  |c c1 token payload msg reqs e t o _ _ _ IH
                  |c c1 token payload msg reqs e e2 _ _
                  |c token payload msg reqs e e2 _ _]; intros c' b Ho; try done.
  - by injection Ho as <- <-.
  - by apply IH.
  - by apply IH.
  - by apply IH.
Qed.

(** C5.  A run of [APNSender(...).runAsync()] that gets its lease writes
    the requests as [sends] allows: a write that fails with an I/O error
    is followed by exactly one new connection and exactly one more write
    of the same frame, and a failure of that one is raised.  When
    [communicate] returns, the connection handed to [_saveConnection] is
    the last one created, or the leased one if none was. *)
Theorem send_retries_once_and_releases_result
    (self : APNSender) (s : S) t o s' :
  exec h (send self) s = (t, o, s') ->
  (exists e, o = Raised e /\
             exec h (_findConnection (pool self)) s = (t, Raised e, s')) \/
  (exists tf connId conn s1 tc oc s2,
      exec h (_findConnection (pool self)) s = (tf, Returned (connId, conn), s1) /\
      exec h (communicate self conn) s1 = (tc, oc, s2) /\
      sends (pool self) conn (requests self) tc oc /\
      match oc with
      | Raised e => t = tf ++ tc /\ o = Raised e /\ s' = s2
      | Returned (conn', result) =>
          conn' = last_connection conn tc /\
          exists ts,
            exec h (_saveConnection (pool self) connId (Some conn')) s2
              = (ts, Returned (), s') /\
            t = tf ++ tc ++ ts /\ o = Returned result
      end).
Proof.
  unfold send, runAsync. intros Hrun.
  apply exec_bind_inv in Hrun
    as [(e & Hf & ->)|(tf & [connId conn] & s1 & t2 & Hf & Hrun & ->)].
  { left. by exists e. }
  right.
  apply exec_bind_inv in Hrun
    as [(e & Hc & ->)|(tc & [conn' result] & s2 & t3 & Hc & Hrun & ->)].
  - exists tf, connId, conn, s1, t2, (Raised e), s'.
    split; [done|]. split; [done|]. split; [|done].
    by eapply exec_send_all.
  - exists tf, connId, conn, s1, tc, (Returned (conn', result)), s2.
    split; [done|]. split; [done|].
    pose proof (exec_send_all _ _ _ _ _ _ _ Hc) as Hsends. split; [done|].
    destruct (sends_last_connection _ _ _ _ _ Hsends conn' result eq_refl) as [Hlast _].
    split; [done|].
    apply exec_bind_inv in Hrun
      as [(e & Hs & ->)|(ts & [] & s3 & t4 & Hs & Hrun & ->)].
    + exfalso. unfold _saveConnection in Hs.
      destruct connId as [[|a connId]|]; cbn in Hs; try discriminate Hs.
      destruct (h _ (MemcacheSet _ _ _) s2) as [[] s3].
      destruct (h _ (MemcacheDelete _) s3) as [[] s4]. discriminate Hs.
    + cbn in Hrun. injection Hrun as <- <- <-.
      exists ts. by rewrite app_nil_r.
Qed.

End Sender.

(** ** Requests and frames *)

Section Requests.
Import SocketPool Apn.

Example flaky_send_log :
  (exec seq_cache (send sender0) flaky_world).1 =
    ([E_get (size_key self0) (inr None);
      E_incr (size_key self0) 1 0 (Some 1);
      E_choice [slot 0] (slot 0);
      E_get (slot 0) (inr None);
      E_add (lock_key (slot 0)) (VBool true) 60 true;
      E_newconn (host self0) (port self0) (inr (Conn 1 false));
      E_write (Conn 1 false)
        ([x00; x00; x20; xab] ++ replicate 31 x00 ++ [x00; x02]
           ++ list_byte_of_string "{}") (Some (IOError 32));
      E_newconn (host self0) (port self0) (inr (Conn 2 false));
      E_write (Conn 2 false)
        ([x00; x00; x20; xab] ++ replicate 31 x00 ++ [x00; x02]
           ++ list_byte_of_string "{}") None;
      E_set (slot 0) (VConn (Conn 2 false)) 120;
      E_delete (lock_key (slot 0))],
     Returned true).
Proof. vm_compute. reflexivity. Qed.

Lemma send_retries_once_and_releases_result_witness :
  (exists e, (exec seq_cache (send sender0) flaky_world).1.2 = Raised e /\
             exec seq_cache (_findConnection (pool sender0)) flaky_world
             = ((exec seq_cache (send sender0) flaky_world).1.1, Raised e,
                (exec seq_cache (send sender0) flaky_world).2)) \/
  (exists tf connId conn s1 tc oc s2,
      exec seq_cache (_findConnection (pool sender0)) flaky_world
        = (tf, Returned (connId, conn), s1) /\
      exec seq_cache (communicate sender0 conn) s1 = (tc, oc, s2) /\
      sends (pool sender0) conn (requests sender0) tc oc /\
      match oc with
      | Raised e =>
          (exec seq_cache (send sender0) flaky_world).1.1 = tf ++ tc /\
          (exec seq_cache (send sender0) flaky_world).1.2 = Raised e /\
          (exec seq_cache (send sender0) flaky_world).2 = s2
      | Returned (conn', result) =>
          conn' = last_connection conn tc /\
          exists ts,
            exec seq_cache (_saveConnection (pool sender0) connId (Some conn')) s2
              = (ts, Returned (), (exec seq_cache (send sender0) flaky_world).2) /\
            (exec seq_cache (send sender0) flaky_world).1.1 = tf ++ tc ++ ts /\
            (exec seq_cache (send sender0) flaky_world).1.2 = Returned result
      end).
Proof.
  apply (send_retries_once_and_releases_result seq_cache sender0 flaky_world).
  by destruct (exec seq_cache (send sender0) flaky_world) as [[??]?].
Defined.

(** The request built for a valid token and a short message. *)
Example request_built :
  match getNotifRequest (str_lit "ab01") (str_lit "hello") None
                        (Some (str_lit "default")) None true with
  | inr (Some (token, payload)) => Some (token, show_payload payload)
  | _ => None
  end
  = Some ([xab; x01],
          "{'aps':{'alert':'hello','content-available':1,'sound':'default'}}"%string).
Proof. vm_compute. reflexivity. Qed.

Example request_oversized :
  getNotifRequest (str_lit "ab01") (Unicode (replicate 250 65)) None None None false
  = inr None.
Proof. vm_compute. reflexivity. Qed.

Example request_bad_token :
  getNotifRequest (str_lit "zz") (str_lit "hello") None None None false = inr None.
Proof. vm_compute. reflexivity. Qed.

Lemma unhexlify_errors (token : pystr) (e : exn) :
  unhexlify token = inl e -> e = TypeError \/ e = UnicodeEncodeError.
Proof.
  unfold unhexlify. destruct token as [bs|cps].
  - destruct (unhexlify_bytes bs); intros [=]; auto.
  - destruct (ascii_encode cps) as [bs|]; [|intros [=]; auto].
    destruct (unhexlify_bytes bs); intros [=]; auto.
Qed.

(** Once the payload is encoded, [getNotifRequest] does not raise: it
    returns [False] when the payload is longer than 256 bytes or the
    token cannot be unhexlified, and the request otherwise. *)
Lemma getNotifRequest_after_encoding token message badge sound context hasContent :
  getNotifRequest token message badge sound context hasContent =
    match encode_payload message badge sound context hasContent with
    | inl e => inl e
    | inr payload =>
        if (256 <? length payload)%nat then inr None
        else match unhexlify token with
             | inr tok => inr (Some (tok, payload))
             | inl _ => inr None
             end
    end.
Proof.
  unfold getNotifRequest.
  destruct (encode_payload message badge sound context hasContent) as [e|payload]; [done|].
  destruct (256 <? length payload)%nat; [done|].
  destruct (unhexlify token) as [e|tok] eqn:Hu; [|done].
  by destruct (unhexlify_errors _ _ Hu) as [-> | ->].
Qed.

(** C4 fails on the code: a byte-string message that is not UTF-8 makes
    [getNotifRequest] raise [UnicodeDecodeError] at [message.decode],
    although the token is valid and nothing is oversized. *)
Theorem getNotifRequest_raises_on_undecodable_message :
  getNotifRequest (str_lit "00") (Str [xff]) None (Some (str_lit "default")) None true
  = inl UnicodeDecodeError.
Proof. reflexivity. Qed.

(** C10.  [getNotifRequest] returns the token as [unhexlify] decoded it,
    with no test of its length: a valid hexadecimal token is accepted
    whatever the length of its decoding (here 1 byte and 33 bytes); the frame
    [communicate] writes for a request always starts with command 0 and
    token length 32, followed by exactly 32 bytes: the token cut after 32
    bytes or filled up with null bytes. *)
Theorem token_length_is_not_validated :
  (forall token message badge sound context hasContent,
      getNotifRequest token message badge sound context hasContent =
        match encode_payload message badge sound context hasContent with
        | inl e => inl e
        | inr payload =>
            if (256 <? length payload)%nat then inr None
            else match unhexlify token with
                 | inr tok => inr (Some (tok, payload))
                 | inl _ => inr None
                 end
        end) /\
  getNotifRequest (str_lit "ab") (str_lit "hi") None None None false
    = inr (Some ([xab], utf8_encode (codes "{" ++ [34] ++ codes "aps" ++ [34]
                          ++ codes ":{" ++ [34] ++ codes "alert" ++ [34]
                          ++ codes ":" ++ [34] ++ codes "hi" ++ [34] ++ codes "}}"))) /\
  (exists payload,
      getNotifRequest long_token (str_lit "hi") None None None false
        = inr (Some (replicate 33 x0a, payload))) /\
  (forall token payload : list byte,
      pack_frame token payload =
        match pack_H (Z.of_nat (length payload)) with
        | inr plen => inr ([x00; x00; x20] ++ pack_32s token ++ plen ++ payload)
        | inl e => inl e
        end /\
      length (pack_32s token) = 32%nat /\
      pack_32s token = take 32 (token ++ replicate 32 x00)) /\
  pack_32s [xab] = xab :: replicate 31 x00 /\
  pack_32s (replicate 33 x0a) = replicate 32 x0a /\
  (forall (S : Type) (h : handler S) (self : PooledConnection) (c : Connection)
          (payload : list byte) (s : S),
      exists r rest,
        (exec h (communicate (Sender self [Some ([xab], take 256 payload)]) c) s).1.1
        = E_write c ([x00; x00; x20] ++ (xab :: replicate 31 x00)
                       ++ [byte_of_Z (Z.of_nat (length (take 256 payload)) / 256);
                           byte_of_Z (Z.of_nat (length (take 256 payload)) mod 256)]
                       ++ take 256 payload) r :: rest).
Proof.
  split; [apply getNotifRequest_after_encoding|].
  split; [by vm_compute|]. split; [eexists; by vm_compute|].
  split; [|split; [by vm_compute|split; [by vm_compute|]]].
  - intros token payload. split; [|split].
    + unfold pack_frame. change (pack_H 32) with (@inr exn _ [x00; x20]).
      by destruct (pack_H (Z.of_nat (length payload))).
    + unfold pack_32s. rewrite length_app, length_take, length_replicate. lia.
    + unfold pack_32s. rewrite take_app.
      rewrite take_replicate. f_equal. f_equal. lia.
  - intros S h self c payload s.
    unfold communicate. cbn [pool requests send_all]. unfold send_one, pack_frame.
    change (pack_H 32) with (@inr exn _ [x00; x20]).
    assert (Hlen : (length (take 256 payload) <= 256)%nat)
      by (rewrite length_take; lia).
    unfold pack_H.
    destruct ((0 <=? Z.of_nat (length (take 256 payload)))
              && (Z.of_nat (length (take 256 payload)) <=? 65535)) eqn:Hfit; [|lia].
    cbn [await]. rewrite bind_ret. unfold conn_write.
    rewrite !bind_vis, exec_vis.
    match goal with |- context [h _ ?ev s] => destruct (h _ ev s) as [r s1] end.
    match goal with |- context [exec h ?p s1] => destruct (exec h p s1) as [[t1 o1] s2] end.
    by exists r, t1.
Qed.

End Requests.

(** ** More on the digest *)

Section Sha1More.
Import PureSha1.

Arguments process : simpl never.

Lemma consume_rest (f : nat) : forall st buf st' rest,
  consume f st buf = Some (st', rest) ->
  rest = drop (64 * (length buf / 64)) buf.
Proof.
  induction f as [|f IH]; intros st buf st' rest; cbn [consume].
  - destruct (decide (64 <= length buf)%nat); [done|]. intros [= <- <-].
    rewrite Nat.div_small by lia. done.
  - destruct (decide (64 <= length buf)%nat) as [Hge|Hlt].
    + destruct (process (take 64 buf) st) as [st1|]; [|done].
      cbn [mbind option_bind].
      intros H. apply IH in H. rewrite H, drop_drop, length_drop. f_equal.
      replace (length buf) with (1 * 64 + (length buf - 64))%nat at 2 by lia.
      rewrite Nat.div_add_l by lia. lia.
    + intros [= <- <-]. rewrite Nat.div_small by lia. done.
Qed.

(** X1.  [update] always returns; it adds the number of new bytes to
    [size] and keeps as pending bytes what is left of the old pending
    bytes followed by the new ones after the last full 64-byte block,
    fewer than 64 bytes. *)
Theorem update_bookkeeping (m : sha1) (bs : list byte) :
  exists m',
    update m bs = Some m' /\
    size m' = size m + Z.of_nat (length bs) /\
    unprocessedBytes m' =
      drop (64 * (length (unprocessedBytes m ++ bs) / 64)) (unprocessedBytes m ++ bs) /\
    (length (unprocessedBytes m') < 64)%nat.
Proof.
  destruct (update_total m bs) as (m' & Hm & Hlt). exists m'.
  split; [done|]. unfold update in Hm.
  destruct (consume _ _ _) as [[st rest]|] eqn:Hc; [|done].
  cbn [mbind option_bind] in Hm. injection Hm as <-.
  cbn [size unprocessedBytes] in *.
  split; [done|]. split; [|done]. by eapply consume_rest.
Qed.

Lemma log2_lt_32 (a : Z) : 0 <= a < 2 ^ 32 -> Z.log2 a < 32.
Proof.
  intros [H0 H1]. destruct (Z.eq_dec a 0) as [->|Hne]; [done|].
  apply Z.log2_lt_pow2; lia.
Qed.

Lemma lor_lt_pow2_32 (a b : Z) :
  0 <= a < 2 ^ 32 -> 0 <= b < 2 ^ 32 -> 0 <= Z.lor a b < 2 ^ 32.
Proof.
  intros Ha Hb. assert (H0 : 0 <= Z.lor a b) by (apply Z.lor_nonneg; lia).
  split; [done|].
  destruct (Z.eq_dec (Z.lor a b) 0) as [->|Hne]; [done|].
  apply Z.log2_lt_pow2; [lia|].
  rewrite Z.log2_lor by lia.
  pose proof (log2_lt_32 a Ha). pose proof (log2_lt_32 b Hb). lia.
Qed.

Lemma high_bits_32 (x j : Z) : 0 <= x < 2 ^ 32 -> 32 <= j -> Z.testbit x j = false.
Proof.
  intros Hx Hj. destruct (Z.eq_dec x 0) as [->|Hne]; [apply Z.bits_0|].
  apply Z.bits_above_log2; [lia|]. pose proof (log2_lt_32 x Hx). lia.
Qed.

Lemma mask32_range (a : Z) : 0 <= Z.land a 0xFFFFFFFF < 2 ^ 32.
Proof.
  change 0xFFFFFFFF with (Z.ones 32). rewrite Z.land_ones by lia.
  apply Z.mod_pos_bound. lia.
Qed.

(** X2.  On 32-bit words [lrot] is the rotation to the left by [b] bits:
    the result is a 32-bit word and its bit [i] is bit [i - b] (modulo
    32) of the argument. *)
Theorem lrot_rotates (x b : Z) :
  0 <= x < 2 ^ 32 -> 0 <= b <= 32 ->
  0 <= lrot x b < 2 ^ 32 /\
  forall i, 0 <= i < 32 -> Z.testbit (lrot x b) i = Z.testbit x ((i - b) mod 32).
Proof.
  intros Hx Hb. unfold lrot. split.
  - apply lor_lt_pow2_32; [apply mask32_range|].
    rewrite Z.shiftr_div_pow2 by lia. split; [apply Z.div_pos; lia|].
    apply Z.div_lt_upper_bound; [lia|].
    assert (1 <= 2 ^ (32 - b)) by (apply (Z.pow_le_mono_r 2 0 (32 - b)); lia). nia.
  - intros i Hi.
    rewrite Z.lor_spec, Z.land_spec, Z.shiftl_spec, Z.shiftr_spec by lia.
    change 0xFFFFFFFF with (Z.ones 32). rewrite Z.ones_spec_low by lia.
    rewrite andb_true_r.
    destruct (Z.lt_ge_cases i b) as [Hlt|Hge].
    + rewrite (Z.testbit_neg_r x (i - b)) by lia. rewrite orb_false_l.
      f_equal. replace (i - b) with ((i - b + 32) + (-1) * 32) by lia.
      rewrite Z_mod_plus_full, Z.mod_small; lia.
    + rewrite (high_bits_32 x (i + (32 - b))) by lia. rewrite orb_false_r.
      f_equal. rewrite Z.mod_small; lia.
Qed.

Lemma ord_range (b : byte) : 0 <= ord b < 256.
Proof. unfold ord. pose proof (Byte.to_N_bounded b). lia. Qed.

Lemma chr_ord (b : byte) : chr (ord b) = Some b.
Proof.
  unfold chr. pose proof (ord_range b) as H.
  destruct (0 <=? ord b) eqn:E1; [|lia]. destruct (ord b <? 256) eqn:E2; [|lia].
  cbn [andb]. unfold ord. rewrite N2Z.id. apply Byte.of_to_N.
Qed.

Lemma ord_chr (z : Z) (b : byte) : chr z = Some b -> ord b = z.
Proof.
  unfold chr, ord. destruct (0 <=? z) eqn:E1; [|done].
  destruct (z <? 256) eqn:E2; [|done]. cbn [andb].
  intros H. apply Byte.to_of_N in H. lia.
Qed.

Lemma chr_is_Some (z : Z) : 0 <= z < 256 -> is_Some (chr z).
Proof.
  intros Hz. unfold chr. destruct (0 <=? z) eqn:E1; [|lia].
  destruct (z <? 256) eqn:E2; [|lia]. cbn [andb].
  destruct (Byte.of_N (Z.to_N z)) eqn:E; [by eexists|].
  apply Byte.of_N_None_iff in E. lia.
Qed.

(** A number below 256 has no bit from position 8 on. *)
Lemma small_high_bits (a j : Z) : 0 <= a < 256 -> 8 <= j -> Z.testbit a j = false.
Proof.
  intros Ha Hj. destruct (Z.eq_dec a 0) as [->|Hne]; [apply Z.bits_0|].
  apply Z.bits_above_log2; [lia|].
  assert (Z.log2 a < 8) by (apply Z.log2_lt_pow2; lia). lia.
Qed.

(** The bits of four bytes put together as [BE32] does. *)
Lemma bits_of_word (a b c d i : Z) :
  0 <= a < 256 -> 0 <= b < 256 -> 0 <= c < 256 -> 0 <= d < 256 -> 0 <= i ->
  Z.testbit (Z.lor (Z.lor (Z.lor (Z.shiftl a 24) (Z.shiftl b 16)) (Z.shiftl c 8)) d) i =
    if i <? 8 then Z.testbit d i
    else if i <? 16 then Z.testbit c (i - 8)
    else if i <? 24 then Z.testbit b (i - 16)
    else Z.testbit a (i - 24).
Proof.
  intros Ha Hb Hc Hd Hi.
  rewrite !Z.lor_spec, !Z.shiftl_spec by exact Hi.
  destruct (Z.ltb_spec i 8) as [H8|H8].
  { rewrite (Z.testbit_neg_r a), (Z.testbit_neg_r b), (Z.testbit_neg_r c) by lia. done. }
  rewrite (small_high_bits d i Hd H8), orb_false_r.
  destruct (Z.ltb_spec i 16) as [H16|H16].
  { rewrite (Z.testbit_neg_r a), (Z.testbit_neg_r b) by lia. done. }
  rewrite (small_high_bits c (i - 8) Hc), orb_false_r by lia.
  destruct (Z.ltb_spec i 24) as [H24|H24].
  { rewrite (Z.testbit_neg_r a) by lia. done. }
  rewrite (small_high_bits b (i - 16) Hb), orb_false_r by lia. done.
Qed.

Lemma word_of_bytes (b0 b1 b2 b3 : byte) :
  let n := Z.lor (Z.lor (Z.lor (Z.shiftl (ord b0) 24) (Z.shiftl (ord b1) 16))
                        (Z.shiftl (ord b2) 8)) (ord b3) in
  0 <= n < 2 ^ 32 /\
  Z.shiftr n 24 = ord b0 /\
  Z.land (Z.shiftr n 16) 0xFF = ord b1 /\
  Z.land (Z.shiftr n 8) 0xFF = ord b2 /\
  Z.land n 0xFF = ord b3.
Proof.
  pose proof (ord_range b0) as H0. pose proof (ord_range b1) as H1.
  pose proof (ord_range b2) as H2. pose proof (ord_range b3) as H3.
  pose proof (fun i => bits_of_word (ord b0) (ord b1) (ord b2) (ord b3) i H0 H1 H2 H3)
    as Hbits.
  set (n := Z.lor _ _) in *. cbv zeta.
  assert (Hn0 : 0 <= n).
  { unfold n.
    apply Z.lor_nonneg; split; [apply Z.lor_nonneg; split;
      [apply Z.lor_nonneg; split|]|]; try apply Z.shiftl_nonneg; lia. }
  clearbody n. change 0xFF with (Z.ones 8).
  split; [|repeat split].
  - split; [done|].
    destruct (Z.eq_dec n 0) as [->|Hne]; [done|].
    apply Z.log2_lt_pow2; [lia|].
    destruct (Z.lt_ge_cases (Z.log2 n) 32) as [|Hbig]; [done|]. exfalso.
    assert (Hbit : Z.testbit n (Z.log2 n) = true) by (apply Z.bit_log2; lia).
    rewrite Hbits in Hbit by lia.
    destruct (Z.ltb_spec (Z.log2 n) 8); [lia|].
    destruct (Z.ltb_spec (Z.log2 n) 16); [lia|].
    destruct (Z.ltb_spec (Z.log2 n) 24); [lia|].
    rewrite small_high_bits in Hbit by lia. done.
  - apply Z.bits_inj'; intros i Hi.
    rewrite Z.shiftr_spec, Hbits by lia.
    destruct (Z.ltb_spec (i + 24) 8); [lia|].
    destruct (Z.ltb_spec (i + 24) 16); [lia|].
    destruct (Z.ltb_spec (i + 24) 24); [lia|]. f_equal. lia.
  - apply Z.bits_inj'; intros i Hi.
    rewrite Z.land_spec, Z.shiftr_spec, Hbits, Z.testbit_ones_nonneg by lia.
    destruct (Z.ltb_spec i 8).
    + destruct (Z.ltb_spec (i + 16) 8); [lia|].
      destruct (Z.ltb_spec (i + 16) 16); [lia|].
      destruct (Z.ltb_spec (i + 16) 24); [|lia].
      rewrite andb_true_r. f_equal. lia.
    + rewrite andb_false_r. symmetry. by apply small_high_bits.
  - apply Z.bits_inj'; intros i Hi.
    rewrite Z.land_spec, Z.shiftr_spec, Hbits, Z.testbit_ones_nonneg by lia.
    destruct (Z.ltb_spec i 8).
    + destruct (Z.ltb_spec (i + 8) 8); [lia|].
      destruct (Z.ltb_spec (i + 8) 16); [|lia].
      rewrite andb_true_r. f_equal. lia.
    + rewrite andb_false_r. symmetry. by apply small_high_bits.
  - apply Z.bits_inj'; intros i Hi.
    rewrite Z.land_spec, Hbits, Z.testbit_ones_nonneg by lia.
    destruct (Z.ltb_spec i 8).
    + by rewrite andb_true_r.
    + rewrite andb_false_r. symmetry. by apply small_high_bits.
Qed.

Lemma word_of_words (n : Z) :
  0 <= n < 2 ^ 32 ->
  Z.lor (Z.lor (Z.lor (Z.shiftl (Z.shiftr n 24) 24)
                      (Z.shiftl (Z.land (Z.shiftr n 16) 0xFF) 16))
               (Z.shiftl (Z.land (Z.shiftr n 8) 0xFF) 8))
        (Z.land n 0xFF) = n.
Proof.
  intros Hn. change 0xFF with (Z.ones 8).
  assert (Hlow : forall k, 0 <= Z.land k (Z.ones 8) < 256).
  { intros k. rewrite Z.land_ones by lia. apply Z.mod_pos_bound. lia. }
  assert (Htop : 0 <= Z.shiftr n 24 < 256).
  { rewrite Z.shiftr_div_pow2 by lia.
    split; [apply Z.div_pos; lia|apply Z.div_lt_upper_bound; lia]. }
  apply Z.bits_inj'; intros i Hi.
  rewrite bits_of_word by auto.
  destruct (Z.ltb_spec i 8).
  { rewrite Z.land_spec, Z.testbit_ones_nonneg by lia.
    destruct (Z.ltb_spec i 8); [|lia]. by rewrite andb_true_r. }
  destruct (Z.ltb_spec i 16).
  { rewrite Z.land_spec, Z.shiftr_spec, Z.testbit_ones_nonneg by lia.
    destruct (Z.ltb_spec (i - 8) 8); [|lia]. rewrite andb_true_r. f_equal. lia. }
  destruct (Z.ltb_spec i 24).
  { rewrite Z.land_spec, Z.shiftr_spec, Z.testbit_ones_nonneg by lia.
    destruct (Z.ltb_spec (i - 16) 8); [|lia]. rewrite andb_true_r. f_equal. lia. }
  rewrite Z.shiftr_spec by lia. f_equal. lia.
Qed.

(** X3.  [intTo4Bytes] and [BE32] are inverse to each other: a 32-bit
    word is read back from its four bytes, and four bytes are written
    back from the word they spell. *)
Theorem word_bytes_round_trip (n : Z) (b0 b1 b2 b3 : byte) :
  0 <= n < 2 ^ 32 ->
  (exists bs, intTo4Bytes n = Some bs /\ length bs = 4%nat /\ BE32 bs = Some n) /\
  (exists m, BE32 [b0; b1; b2; b3] = Some m /\ 0 <= m < 2 ^ 32 /\
             intTo4Bytes m = Some [b0; b1; b2; b3]).
Proof.
  intros Hn. split.
  - unfold intTo4Bytes.
    assert (Hlow : forall k, 0 <= Z.land k 0xFF < 256).
    { intros k. change 0xFF with (Z.ones 8). rewrite Z.land_ones by lia.
      apply Z.mod_pos_bound. lia. }
    destruct (chr_is_Some (Z.shiftr n 24)) as [c0 H0].
    { rewrite Z.shiftr_div_pow2 by lia.
      split; [apply Z.div_pos; lia|apply Z.div_lt_upper_bound; lia]. }
    destruct (chr_is_Some _ (Hlow (Z.shiftr n 16))) as [c1 H1].
    destruct (chr_is_Some _ (Hlow (Z.shiftr n 8))) as [c2 H2].
    destruct (chr_is_Some _ (Hlow n)) as [c3 H3].
    rewrite H0, H1, H2, H3. cbn [mbind option_bind].
    exists [c0; c1; c2; c3]. split; [done|]. split; [done|].
    unfold BE32. cbn [lookup list_lookup mbind option_bind].
    rewrite (ord_chr _ _ H0), (ord_chr _ _ H1), (ord_chr _ _ H2), (ord_chr _ _ H3).
    by rewrite word_of_words.
  - pose proof (word_of_bytes b0 b1 b2 b3) as (Hm & E0 & E1 & E2 & E3).
    eexists. split; [reflexivity|]. split; [exact Hm|].
    unfold intTo4Bytes. rewrite E0, E1, E2, E3, !chr_ord. done.
Qed.

Lemma word_bytes_round_trip_witness :
  (exists bs, intTo4Bytes 0x67452301 = Some bs /\ length bs = 4%nat
              /\ BE32 bs = Some 0x67452301) /\
  (exists m, BE32 [x67; x45; x23; x01] = Some m /\ 0 <= m < 2 ^ 32 /\
             intTo4Bytes m = Some [x67; x45; x23; x01]).
Proof. apply (word_bytes_round_trip 0x67452301 x67 x45 x23 x01). lia. Defined.

Lemma lrot_rotates_witness :
  0 <= lrot 0x80000001 1 < 2 ^ 32 /\
  forall i, 0 <= i < 32 ->
    Z.testbit (lrot 0x80000001 1) i = Z.testbit 0x80000001 ((i - 1) mod 32).
Proof. apply (lrot_rotates 0x80000001 1); lia. Defined.

End Sha1More.

Section DigestFormat.
Import PureSha1.

Lemma string_length_app (s1 s2 : string) :
  String.length (s1 ++ s2) = (String.length s1 + String.length s2)%nat.
Proof.
  induction s1 as [|c s1 IH]; simpl; [done|].
  by rewrite IH.
Qed.

Lemma string_forall_app (P : ascii -> bool) (s1 s2 : string) :
  string_forall P (s1 ++ s2) = string_forall P s1 && string_forall P s2.
Proof.
  induction s1 as [|c s1 IH]; simpl; [done|].
  by rewrite IH, andb_assoc.
Qed.

Lemma zeros_spec (k : nat) :
  String.length (zeros k) = k /\ string_forall is_lower_hex (zeros k) = true.
Proof.
  induction k as [|k [IH1 IH2]]; cbn [zeros String.length string_forall]; [done|].
  by rewrite IH1, IH2.
Qed.

Lemma hex_digit_lower (d : Z) : 0 <= d < 16 -> is_lower_hex (hex_digit d) = true.
Proof.
  intros Hd.
  assert (H : exists k : nat, (k < 16)%nat /\ d = Z.of_nat k)
    by (exists (Z.to_nat d); lia).
  destruct H as (k & Hk & ->). unfold hex_digit. rewrite Nat2Z.id.
  do 16 (destruct k as [|k]; [by vm_compute|]). lia.
Qed.

Lemma hex_go_spec (fuel : nat) : forall (n : Z) (acc : string) (k : nat),
  0 <= n < 16 ^ Z.of_nat (S k) ->
  string_forall is_lower_hex acc = true ->
  (String.length acc < String.length (hex_go (S fuel) n acc)
     <= String.length acc + S k)%nat /\
  string_forall is_lower_hex (hex_go (S fuel) n acc) = true.
Proof.
  induction fuel as [|fuel IH]; intros n acc k Hn Hacc.
  - assert (Hd : is_lower_hex (hex_digit (n mod 16)) = true)
      by (apply hex_digit_lower, Z.mod_pos_bound; lia).
    cbn [hex_go]. destruct (n / 16 =? 0); cbn [String.length string_forall];
      rewrite Hd, Hacc; split; (lia || done).
  - assert (Hd : is_lower_hex (hex_digit (n mod 16)) = true)
      by (apply hex_digit_lower, Z.mod_pos_bound; lia).
    change (hex_go (S (S fuel)) n acc)
      with (if n / 16 =? 0 then String (hex_digit (n mod 16)) acc
            else hex_go (S fuel) (n / 16) (String (hex_digit (n mod 16)) acc)).
    destruct (Z.eqb_spec (n / 16) 0) as [Hz|Hnz].
    + cbn [String.length string_forall]. rewrite Hd, Hacc. split; (lia || done).
    + destruct k as [|k].
      { exfalso. apply Hnz. apply Z.div_small. change (16 ^ Z.of_nat 1) with 16 in Hn. lia. }
      destruct (IH (n / 16) (String (hex_digit (n mod 16)) acc) k) as [Hlen Hhex].
      * split; [apply Z.div_pos; lia|]. apply Z.div_lt_upper_bound; [lia|].
        replace (16 * 16 ^ Z.of_nat (S k)) with (16 ^ Z.of_nat (S (S k))); [lia|].
        rewrite (Nat2Z.inj_succ (S k)), Z.pow_succ_r by lia. done.
      * cbn [string_forall]. by rewrite Hd, Hacc.
      * cbn [String.length] in Hlen. split; [lia|done].
Qed.

Lemma fmt_08x_spec (n : Z) :
  0 <= n < 2 ^ 32 ->
  String.length (fmt_08x n) = 8%nat /\ string_forall is_lower_hex (fmt_08x n) = true.
Proof.
  intros Hn. unfold fmt_08x.
  destruct (hex_go_spec (Z.to_nat (Z.log2 n)) n EmptyString 7) as [Hlen Hhex];
    [by change (16 ^ Z.of_nat 8) with (2 ^ 32)|done|].
  cbn [String.length] in Hlen.
  destruct (zeros_spec (8 - String.length (hex_go (S (Z.to_nat (Z.log2 n))) n ""))) as [Hz1 Hz2].
  rewrite string_length_app, string_forall_app, Hz1, Hz2, Hhex. split; [lia|done].
Qed.

Lemma process_range (block : list byte) (st : words) a b c d e :
  process block st = Some (a, b, c, d, e) ->
  0 <= a < 2 ^ 32 /\ 0 <= b < 2 ^ 32 /\ 0 <= c < 2 ^ 32 /\
  0 <= d < 2 ^ 32 /\ 0 <= e < 2 ^ 32.
Proof.
  unfold process. destruct (decide (length block = 64%nat)); [|done].
  destruct (load_words block) as [W0|]; [|done]. cbn [mbind option_bind].
  destruct (foldl _ _ _) as [[[[a' b'] c'] d'] e'].
  destruct st as [[[[s0 s1] s2] s3] s4]. intros [= <- <- <- <- <-].
  repeat split; apply mask32_range.
Qed.

Lemma lower_hex_unhex (c : ascii) :
  is_lower_hex c = true -> is_Some (Apn.unhex_digit (byte_of_ascii c)).
Proof.
  unfold is_lower_hex. cbn [list_ascii_of_string existsb].
  rewrite !orb_true_iff.
  intros H; repeat destruct H as [H|H]; try discriminate H;
    apply Ascii.eqb_eq in H; subst c; eexists; by vm_compute.
Qed.

Lemma unhexlify_lower_hex (k : nat) : forall d : string,
  string_forall is_lower_hex d = true ->
  String.length d = (2 * k)%nat ->
  exists bs, Apn.unhexlify_bytes (list_byte_of_string d) = Some bs /\ length bs = k.
Proof.
  induction k as [|k IH]; intros d Hhex Hlen.
  - destruct d; [|done]. by exists [].
  - destruct d as [|c1 [|c2 d]]; try (cbn in Hlen; lia).
    cbn [string_forall] in Hhex.
    apply andb_true_iff in Hhex as [H1 Hhex]. apply andb_true_iff in Hhex as [H2 Hhex].
    destruct (IH d Hhex) as (bs & Hbs & Hk); [cbn in Hlen; lia|].
    destruct (lower_hex_unhex c1 H1) as [h Hh]. destruct (lower_hex_unhex c2 H2) as [l Hl].
    change (list_byte_of_string (String c1 (String c2 d)))
      with (byte_of_ascii c1 :: byte_of_ascii c2 :: list_byte_of_string d).
    cbn [Apn.unhexlify_bytes]. rewrite Hh, Hl. cbn [mbind option_bind].
    rewrite Hbs. cbn. eexists. split; [done|]. cbn. by rewrite Hk.
Qed.

Lemma hexdigest_format (m : sha1) (d : string) :
  hexdigest m = Some d ->
  String.length d = 40%nat /\ string_forall is_lower_hex d = true.
Proof.
  unfold hexdigest.
  destruct (if decide (56 < length (unprocessedBytes m ++ [x80]))%nat then _ else _)
    as [[st byteData]|]; cbn [mbind option_bind]; [|done].
  destruct (intTo4Bytes (Z.land (Z.shiftr (size m * 8) 32) 0xFFFFFFFF)) as [hi|];
    cbn [mbind option_bind]; [|done].
  destruct (intTo4Bytes (Z.land (size m * 8) 0xFFFFFFFF)) as [lo|];
    cbn [mbind option_bind]; [|done].
  destruct (process _ st) as [[[[[a b] c] e] f]|] eqn:Hp;
    cbn [mbind option_bind]; [|done].
  intros [= <-].
  apply process_range in Hp as (Ha & Hb & Hc & He & Hf).
  destruct (fmt_08x_spec a Ha) as [La Ha']. destruct (fmt_08x_spec b Hb) as [Lb Hb'].
  destruct (fmt_08x_spec c Hc) as [Lc Hc']. destruct (fmt_08x_spec e He) as [Le He'].
  destruct (fmt_08x_spec f Hf) as [Lf Hf'].
  rewrite !string_length_app, !string_forall_app, La, Lb, Lc, Le, Lf, Ha', Hb', Hc', He', Hf'.
  done.
Qed.

(** X4.  On an object with fewer than 64 pending bytes [hexdigest]
    returns 40 lower-case hexadecimal digits and [digest] returns
    [digest_size] = 20 bytes. *)
Theorem digest_format (m : sha1) :
  (length (unprocessedBytes m) < 64)%nat ->
  exists (d : string) (bs : list byte),
    hexdigest m = Some d /\
    String.length d = 40%nat /\ string_forall is_lower_hex d = true /\
    digest m = Some bs /\ length bs = digest_size.
Proof.
  intros Hlt. destruct (hexdigest_total m Hlt) as [d Hd].
  destruct (hexdigest_format m d Hd) as [Hlen Hhex].
  destruct (unhexlify_lower_hex 20 d Hhex Hlen) as (bs & Hbs & Hk).
  exists d, bs. unfold digest. rewrite Hd. cbn [mbind option_bind]. done.
Qed.

Lemma digest_format_witness :
  exists (d : string) (bs : list byte),
    hexdigest init0 = Some d /\
    String.length d = 40%nat /\ string_forall is_lower_hex d = true /\
    digest init0 = Some bs /\ length bs = digest_size.
Proof. apply (digest_format init0). cbn. lia. Defined.

End DigestFormat.

(** ** The cache behind a log *)

Section Replay.
Import SocketPool.

Lemma cache_step_ok {X : Type} (ev : event X) (w : World) :
  step_ok (log ev (cache_step ev w).1) (cache w) (cache (cache_step ev w).2).
Proof.
  destruct ev as [key|key v time|key v time|key delta init|key delta|key| | | | |];
    cbn [cache_step next_fault next_int next_real next_conn next_write];
    try (cbn; done).
  - destruct (hd NoFault (faults w)); cbn; (split; [done|]); try done.
    by intros v [= ->].
  - destruct (hd NoFault (faults w)); cbn; auto.
  - destruct (hd NoFault (faults w)); cbn [fst snd log step_ok cache]; try done.
    destruct (cache w !! key) eqn:Hk; cbn [fst snd log step_ok cache set_cache]; done.
  - destruct (hd NoFault (faults w)); cbn [fst snd log step_ok cache]; try done.
    destruct (cache w !! key) as [[old|b|c]|] eqn:Hk;
      cbn [fst snd log step_ok cache set_cache]; try done.
    + rewrite N2Z.id. split; [done|]. split; [lia|]. right. by exists old.
    + rewrite N2Z.id. split; [done|]. split; [lia|]. by left.
  - destruct (hd NoFault (faults w)); cbn [fst snd log step_ok cache]; auto.
    destruct (cache w !! key) as [[old|b|c]|] eqn:Hk;
      cbn [fst snd log step_ok cache set_cache]; auto.
    right. by exists old.
  - destruct (hd NoFault (faults w)); cbn; auto.
Qed.

Lemma exec_replay {R : Type} (p : prog R) : forall (w : World) t o w',
  exec seq_cache p w = (t, o, w') -> replay t (cache w) (cache w').
Proof.
  induction p as [r|e|X ev k IH]; intros w t o w'.
  - cbn. by intros [= <- <- <-].
  - cbn. by intros [= <- <- <-].
  - cbn [exec]. unfold seq_cache at 1.
    pose proof (cache_step_ok ev w) as Hstep.
    destruct (cache_step ev w) as [x w1]. cbn [fst snd] in Hstep.
    destruct (exec seq_cache (k x) w1) as [[t1 o1] w2] eqn:Hrest.
    intros [= <- <- <-]. cbn [replay]. exists (cache w1). split; [done|].
    by eapply IH.
Qed.

Lemma replay_app (t1 t2 : list entry) : forall c c',
  replay (t1 ++ t2) c c' <-> exists c1, replay t1 c c1 /\ replay t2 c1 c'.
Proof.
  induction t1 as [|e t1 IH]; intros c c'; cbn [app replay].
  - split; [intros H; by exists c|by intros (c1 & -> & H)].
  - split.
    + intros (c1 & Hs & H). apply IH in H as (c2 & H1 & H2).
      exists c2. split; [|done]. by exists c1.
    + intros (c2 & (c1 & Hs & H1) & H2). exists c1. split; [done|].
      apply IH. by exists c2.
Qed.

Lemma step_untouched (k : string) (e : entry) c c' :
  step_ok e c c' -> touches k e = false -> c' !! k = c !! k.
Proof.
  destruct e as [key r|key v time|key v time [|]|key delta init [n|]|key delta|key
                 |a b r|r|l r|hst prt r|cn msg r]; cbn [step_ok touches];
    try (by intros ->); try (by intros [-> _]).
  - intros [->| ->] Hne; [done|]. apply bool_decide_eq_false in Hne.
    by rewrite lookup_insert_ne.
  - intros [_ ->] Hne. apply bool_decide_eq_false in Hne. by rewrite lookup_insert_ne.
  - intros [-> _] Hne. apply bool_decide_eq_false in Hne. by rewrite lookup_insert_ne.
  - intros [->|(old & _ & ->)] Hne; [done|]. apply bool_decide_eq_false in Hne.
    by rewrite lookup_insert_ne.
  - intros [->| ->] Hne; [done|]. apply bool_decide_eq_false in Hne.
    by rewrite lookup_delete_ne.
Qed.

Lemma replay_untouched (k : string) (t : list entry) : forall c c',
  replay t c c' -> Forall (fun e => touches k e = false) t -> c' !! k = c !! k.
Proof.
  induction t as [|e t IH]; intros c c'; cbn [replay].
  - by intros ->.
  - intros (c1 & Hs & Hr) Hall. apply Forall_cons in Hall as [He Hall].
    rewrite (IH _ _ Hr Hall). by eapply step_untouched.
Qed.

End Replay.

(** ** What a lease is made of *)

Section Lease.
Import SocketPool.

Lemma probe_orderly {S : Type} (h : handler S) (self : PooledConnection)
    s t sz av ids s' :
  exec h (probe self) s = (t, Returned (sz, av, ids), s') ->
  Forall (fun e => orderly self e = true) t.
Proof.
  intros Hp. pose proof (probe_calm _ _ _ _ _ _ _ _ Hp) as Hcalm.
  apply exec_probe in Hp as [Hread _].
  rewrite Forall_forall in Hread, Hcalm. apply Forall_forall. intros e He.
  specialize (Hread e He). specialize (Hcalm e He).
  by destruct e as [key [?|?]| | | | | | | | | |].
Qed.

(** The layout of a run of [_findConnection] that returned. *)
Lemma find_returned {S : Type} (h : handler S) (self : PooledConnection)
    s t slot c s' :
  exec h (_findConnection self) s = (t, Returned (slot, c), s') ->
  returned_trace self t slot c.
Proof.
  intros Hrun.
  apply exec_findConnection in Hrun
    as [(e & _ & [=])|(t1 & sz & av & ids & s1 & t2 & Hp & Hs & ->)].
  apply probe_orderly in Hp.
  assert (Hlease : forall pre avail tl,
            Forall (fun e => orderly self e = true) pre ->
            lease_trace self avail tl (Returned (slot, c)) ->
            returned_trace self (pre ++ tl) slot c).
  { clear. intros pre avail tl Hpre Hl.
    inversion Hl as [|connId fut tf c' _ Hf|connId fut tf e _ Hf|connId fut r rc _ Heq Hrc];
      subst.
    - by eapply returned_leased.
    - destruct rc as [e|c']; [done|]. injection Hrc as <- <-.
      by eapply returned_contended. }
  inversion Hs as [n tl o' _ _ Hl|r rc _ _ Heq Hrc|r tl o' _ _ Hl|r tl o' _ _ Hl|tl o' _ _ Hl];
    subst.
  - rewrite cons_middle, app_assoc. eapply Hlease; [|done].
    apply Forall_app. split; [done|]. repeat constructor. cbn. by apply bool_decide_eq_true.
  - destruct rc as [e|c']; [done|]. injection Hrc as <- <-.
    rewrite cons_middle, app_assoc. apply returned_unpooled.
    apply Forall_app. split; [done|]. repeat constructor. cbn. by apply bool_decide_eq_true.
  - rewrite cons_middle, (cons_middle (E_decr _ _)), !app_assoc, <- (app_assoc t1).
    eapply Hlease; [|done].
    apply Forall_app. split; [done|]. repeat constructor; cbn; by try apply bool_decide_eq_true.
  - rewrite cons_middle, app_assoc. eapply Hlease; [|done].
    apply Forall_app. split; [done|]. by repeat constructor.
  - by eapply Hlease.
Qed.

Lemma orderly_facts (self : PooledConnection) (pre : list entry) :
  Forall (fun e => orderly self e = true) pre ->
  Forall (fun e => releases e = false) pre /\
  Forall (fun e => is_newconn e = false) pre /\
  Forall (fun e => is_add_true e = false) pre /\
  forall connId, Forall (fun e => touches (lock_key connId) e = false) pre.
Proof.
  intros Hpre. repeat split; try intros connId;
    (eapply Forall_impl; [exact Hpre|]);
    intros [key [?|?]|?|? ? ? [|]|key ? ? [?|]|key ?|?|?|?|?|? ? [?|?]|?]; cbn;
    try done; intros Hk%bool_decide_eq_true; subst key;
    apply bool_decide_eq_false; apply not_eq_sym, lock_key_not_size.
Qed.

(** X5.  When [_findConnection] returns, it has stored no payload and
    deleted no lock.  A slot id is returned only after a successful
    [add] on the lock of that slot, and with it the cached connection of
    the slot, not closed, or a connection created in this call; without a
    slot id the connection is always one created in this call, and no
    lock was taken. *)
Theorem lease_provenance {S : Type} (h : handler S) (self : PooledConnection)
    (s : S) t slot c s' :
  exec h (_findConnection self) s = (t, Returned (slot, c), s') ->
  Forall (fun e => releases e = false) t /\
  match slot with
  | Some connId =>
      In (E_add (lock_key connId) (VBool true) 60 true) t /\
      (In (E_get connId (inr (Some (VConn c)))) t /\ closed c = false /\
       Forall (fun e => is_newconn e = false) t
       \/ In (E_newconn (host self) (port self) (inr c)) t)
  | None =>
      In (E_newconn (host self) (port self) (inr c)) t /\
      Forall (fun e => is_add_true e = false) t
  end.
Proof.
  intros Hrun. apply find_returned in Hrun.
  destruct Hrun as [pre avail connId fut tf c Hpre Hf|pre avail connId fut r c Hpre
                    |pre c Hpre];
    apply orderly_facts in Hpre as (Hrel & Hnew & Hadd & _).
  - inversion Hf as [c' Hfut Hc|r rc Hfut Ht Hd| |]; subst.
    + split; [apply Forall_app; split; [done|]; by repeat constructor|].
      split; [apply in_or_app; right; cbn; tauto|]. left.
      split; [apply in_or_app; right; cbn; tauto|]. split; [done|].
      apply Forall_app; split; [done|]; by repeat constructor.
    + destruct rc as [e|c']; [done|]. injection Hd as ->.
      split; [apply Forall_app; split; [done|]; by repeat constructor|].
      split; [apply in_or_app; right; cbn; tauto|]. right.
      apply in_or_app; right; cbn; tauto.
  - split; [apply Forall_app; split; [done|]; by repeat constructor|].
    split; [apply in_or_app; right; cbn; tauto|].
    apply Forall_app; split; [done|]; by repeat constructor.
  - split; [apply Forall_app; split; [done|]; by repeat constructor|].
    split; [apply in_or_app; right; cbn; tauto|].
    apply Forall_app; split; [done|]; by repeat constructor.
Qed.

(** The lock of a returned slot was free before the call and is held
    after it. *)
Lemma lease_lock (self : PooledConnection) (w : World) t connId c w' :
  exec seq_cache (_findConnection self) w = (t, Returned (Some connId, c), w') ->
  cache w !! lock_key connId = None /\
  cache w' !! lock_key connId = Some (VBool true).
Proof.
  intros Hrun. pose proof (exec_replay _ _ _ _ _ Hrun) as Hrep.
  apply find_returned in Hrun.
  inversion Hrun as [pre avail connId' fut tf c' Hpre Hf| |]; subst.
  apply orderly_facts in Hpre as (_ & _ & _ & Hpre). specialize (Hpre connId).
  apply replay_app in Hrep as (c1 & Hr1 & Hr2).
  apply (replay_untouched (lock_key connId)) in Hr1; [|done].
  cbn [replay step_ok] in Hr2.
  destruct Hr2 as (c2 & -> & c3 & [-> _] & c4 & [Hfree ->] & Hr2).
  assert (Htf : Forall (fun e => touches (lock_key connId) e = false) tf).
  { inversion Hf; subst; by repeat constructor. }
  apply (replay_untouched (lock_key connId)) in Hr2; [|done].
  rewrite Hr2, lookup_insert_eq, <- Hr1. done.
Qed.

(** X6.  Alone with the cache, [_findConnection] returns a slot id only
    if the lock of that slot was absent when the call started, and leaves
    the lock held; so two calls in a row, with no release in between,
    never return the same slot. *)
Theorem lease_is_exclusive (self : PooledConnection) (w : World) t connId c w' :
  exec seq_cache (_findConnection self) w = (t, Returned (Some connId, c), w') ->
  cache w !! lock_key connId = None /\
  cache w' !! lock_key connId = Some (VBool true) /\
  forall t2 connId2 c2 w2,
    exec seq_cache (_findConnection self) w' = (t2, Returned (Some connId2, c2), w2) ->
    connId2 <> connId.
Proof.
  intros Hrun. destruct (lease_lock _ _ _ _ _ _ Hrun) as [Hfree Hheld].
  split; [done|]. split; [done|].
  intros t2 connId2 c2 w2 Hrun2 ->.
  destruct (lease_lock _ _ _ _ _ _ Hrun2) as [Hfree2 _]. congruence.
Qed.

End Lease.

(** ** Bounds of the probe, of the size, and a send that fails *)

Section PoolMore.
Import SocketPool Apn.

Lemma length_range (a b : Z) : length (range a b) = Z.to_nat (b - a).
Proof. unfold range. by rewrite length_fmap, length_seq. Qed.


Lemma sum_lo_nonneg (k : string) (t : list entry) :
  Forall (counter_use k) t -> Forall (fun e => is_decr e = false) t ->
  0 <= sum_with (lo k) t.
Proof.
  induction t as [|e t IH]; intros Huse Hno; [done|].
  apply Forall_cons in Huse as [He Huse]. apply Forall_cons in Hno as [Hd Hno].
  specialize (IH Huse Hno). cbn [sum_with foldr]. fold (sum_with (lo k) t).
  destruct e as [| | |key delta init [n|]| | | | | | |]; cbn in *; try lia.
  destruct (decide (key = k)); [|lia]. destruct (He e); lia.
Qed.

Lemma lease_no_decr (self : PooledConnection) avail tl o :
  lease_trace self avail tl o -> Forall (fun e => is_decr e = false) tl.
Proof.
  intros [_|connId fut t c _ Hf|connId fut t e _ Hf|connId fut r rc _].
  - constructor.
  - inversion Hf; subst; by repeat constructor.
  - inversion Hf; subst; by repeat constructor.
  - by repeat constructor.
Qed.

(** X8.  Alone with the cache, a call of [_findConnection] never takes
    the size of a pool that has at least one slot below 1. *)
Theorem shrink_keeps_one_slot (self : PooledConnection) (w : World) :
  1 <= size_of self (cache w) ->
  1 <= size_of self (cache (after (_findConnection self) w)).
Proof.
  unfold after.
  destruct (exec seq_cache (_findConnection self) w) as [[t o] w'] eqn:Hrun.
  cbn [snd].
  change (size_of self (cache w')) with (counter (size_key self) (cache w')).
  change (size_of self (cache w)) with (counter (size_key self) (cache w)).
  intros Hone.
  pose proof (budget_findConnection _ _ _ _ _ _ Hrun) as (Huse & Hlo & _).
  pose proof (exec_counter (size_key self) _ _ _ _ _ Hrun Huse) as [Hb _].
  pose proof (exec_replay _ _ _ _ _ Hrun) as Hrep.
  apply exec_findConnection in Hrun
    as [(e & Hp & ->)|(t1 & sz & av & ids & s1 & t2 & Hp & Hs & ->)].
  { apply exec_probe in Hp as [Hread _].
    enough (0 <= sum_with (lo (size_key self)) t) by lia.
    apply sum_lo_nonneg; [done|]. eapply Forall_impl; [exact Hread|]. by intros []. }
  pose proof Hp as Hp'. apply exec_probe in Hp' as [Hread Hp'].
  assert (Hnd1 : Forall (fun e => is_decr e = false) t1).
  { eapply Forall_impl; [exact Hread|]. by intros []. }
  destruct Hs as [n tl o _ _ Hl|r rc _ _|r tl o Hsh _ Hl|r tl o _ _ Hl|tl o _ _ Hl].
  - enough (0 <= sum_with (lo (size_key self)) (t1 ++ E_incr (size_key self) (increment_for sz) 0 (Some n) :: tl)) by lia.
    apply sum_lo_nonneg; [done|]. apply Forall_app. split; [done|].
    constructor; [done|]. by eapply lease_no_decr.
  - enough (0 <= sum_with (lo (size_key self)) (t1 ++ [E_incr (size_key self) (increment_for sz) 0 r; E_newconn (host self) (port self) rc])) by lia.
    apply sum_lo_nonneg; [done|]. apply Forall_app. split; [done|]. by repeat constructor.
  - enough (2 <= counter (size_key self) (cache w)) by lia.
    destruct (Hp' sz av ids eq_refl) as (pre & numbers & -> & Hwin & Hav & Hids & _).
    unfold shrinkable in Hsh. apply andb_true_iff in Hsh as [H1 Hlen].
    apply Nat.ltb_lt in H1. apply Nat.eqb_eq in Hlen. rewrite Hlen in H1.
    assert (Hnum : (2 <= length numbers)%nat).
    { by rewrite <- (length_fmap (item_id self) numbers), <- Hav, length_fmap. }
    cbn [app replay step_ok] in Hrep. destruct Hrep as (c1 & [_ Hget] & _).
    destruct Hwin as [(_ & _ & ->)|(n & Htr & Hn & Hcase)]; [cbn in Hnum; lia|].
    assert (Hn2 : 2 <= n).
    { destruct Hcase as [(_ & _ & ->)|(Hgt & _)]; [|lia].
      rewrite length_range in Hnum. lia. }
    destruct sz as [[k|b|c]|]; cbn in Hn; simplify_eq.
    + unfold counter. rewrite (Hget (VInt k) eq_refl). lia.
    + destruct b; cbn in Hn2; lia.
  - enough (0 <= sum_with (lo (size_key self)) (t1 ++ E_random r :: tl)) by lia.
    apply sum_lo_nonneg; [done|]. apply Forall_app. split; [done|].
    constructor; [done|]. by eapply lease_no_decr.
  - enough (0 <= sum_with (lo (size_key self)) (t1 ++ tl)) by lia.
    apply sum_lo_nonneg; [done|]. apply Forall_app. split; [done|].
    by eapply lease_no_decr.
Qed.

Lemma sends_entries (self : PooledConnection) c reqs t o :
  sends self c reqs t o -> Forall (fun e => releases e = false) t.
Proof. induction 1; by repeat constructor. Qed.

(** X9.  When [communicate] raises after a lease, [runAsync] ends with
    that exception, its log is the log of the lease followed by the log
    of [communicate], and the whole run has asked for no [set] and no
    [delete]: the lock of the leased slot is not released. *)
Theorem failed_send_releases_nothing {S : Type} (h : handler S) (self : APNSender)
    (s : S) tf slot c s1 t e s' :
  exec h (_findConnection (pool self)) s = (tf, Returned (slot, c), s1) ->
  exec h (send self) s = (t, Raised e, s') ->
  Forall (fun x => releases x = false) t /\
  exists tc, t = tf ++ tc /\ exec h (communicate self c) s1 = (tc, Raised e, s').
Proof.
  intros Hf Hrun. unfold send, runAsync in Hrun.
  rewrite exec_bind, Hf in Hrun.
  destruct (exec h (_ ≫= _) s1) as [[t2 o2] s2] eqn:Hrest.
  injection Hrun as <- -> <-.
  apply exec_bind_inv in Hrest
    as [(e' & Hc & [= <-])|(tc & [conn' result] & s3 & t4 & Hc & Hrest & ->)].
  - split; [|by exists t2].
    apply Forall_app. split.
    + apply find_returned in Hf.
      destruct Hf as [pre avail connId fut tf' c Hpre Hfe|pre avail connId fut r c Hpre
                      |pre c Hpre];
        apply orderly_facts in Hpre as (Hrel & _);
        (apply Forall_app; split; [done|]); try by repeat constructor.
      inversion Hfe; subst; by repeat constructor.
    + apply exec_send_all in Hc. by eapply sends_entries.
  - exfalso. apply exec_bind_inv in Hrest
      as [(e' & Hs & _)|(ts & [] & s4 & t5 & _ & Hrest & _)]; [|done].
    unfold _saveConnection in Hs.
    destruct slot as [[|a connId]|]; cbn in Hs; try discriminate Hs.
    destruct (h _ (MemcacheSet _ _ _) s3) as [[] s4].
    destruct (h _ (MemcacheDelete _) s4) as [[] s5]. discriminate Hs.
Qed.

End PoolMore.

(** ** The certificate cache and the keys of a pool *)

Section AuthAndKeys.
Import SocketPool Apn.

(** X10.  [getAuthFromPEM] reads and parses a file only when its path is
    not in the cache.  A call that succeeds leaves the result under the
    path and all other entries as they were, and every later call for the
    same path returns that result without looking at the file system or
    the parsers; a call that fails leaves the cache as it was. *)
Theorem getAuthFromPEM_memoizes {CertChain PrivateKey : Type}
    (read_file : string -> exn + string)
    (parse_x509 : string -> exn + CertChain)
    (parsePEMKey : string -> exn + PrivateKey)
    (_AUTH_CACHE : gmap string (CertChain * PrivateKey)) (path : string) :
  match getAuthFromPEM read_file parse_x509 parsePEMKey _AUTH_CACHE path with
  | (inr auth, cache') =>
      cache' !! path = Some auth /\
      _AUTH_CACHE ⊆ cache' /\
      (forall q, q <> path -> cache' !! q = _AUTH_CACHE !! q) /\
      (forall read_file' parse_x509' parsePEMKey',
          getAuthFromPEM read_file' parse_x509' parsePEMKey' cache' path
          = (inr auth, cache'))
  | (inl e, cache') => cache' = _AUTH_CACHE /\ _AUTH_CACHE !! path = None
  end.
Proof.
  unfold getAuthFromPEM at 1.
  destruct (_AUTH_CACHE !! path) as [auth|] eqn:Hhit.
  - split; [done|]. split; [done|]. split; [done|].
    intros rf px pk. unfold getAuthFromPEM. by rewrite Hhit.
  - destruct (read_file path) as [e|s]; [done|].
    destruct (parse_x509 s) as [e|chain]; [done|].
    destruct (parsePEMKey s) as [e|key]; [done|].
    split; [by rewrite lookup_insert_eq|].
    split; [by apply insert_subseteq|].
    split; [by intros q Hq; rewrite lookup_insert_ne|].
    intros rf px pk. unfold getAuthFromPEM. by rewrite lookup_insert_eq.
Qed.

Lemma append_inj_r (r : string) : forall s1 s2 : string,
  s1 +:+ r = s2 +:+ r -> s1 = s2.
Proof.
  assert (Hlen : forall s1 s2, s1 +:+ r = s2 +:+ r -> String.length s1 = String.length s2).
  { intros s1 s2 H. apply (f_equal String.length) in H.
    rewrite !string_length_app in H. lia. }
  induction s1 as [|c s1 IH]; intros [|c2 s2] H;
    try (apply Hlen in H; cbn in H; lia).
  - done.
  - cbn in H. injection H as -> H. f_equal. by apply IH.
Qed.

Lemma item_id_inj (self : PooledConnection) (n m : Z) :
  item_id self n = item_id self m -> n = m.
Proof.
  unfold item_id. intros H.
  apply (f_equal (fun s => match s with
                           | String _ (String _ (String _ (String _ (String _
                               (String _ (String _ (String _ (String _ rest))))))))
                             => rest
                           | _ => EmptyString
                           end)) in H.
  cbn in H. apply append_inj_r in H. by apply (inj pretty).
Qed.

(** X11.  Within one pool the keys never collide: different slot numbers
    have different payload keys and different lock keys, and no payload
    key or lock key is the size key or the key of the other kind. *)
Theorem slot_keys_are_distinct (self : PooledConnection) (n m : Z) :
  (item_id self n = item_id self m <-> n = m) /\
  (lock_key (item_id self n) = lock_key (item_id self m) <-> n = m) /\
  item_id self n <> size_key self /\
  lock_key (item_id self n) <> size_key self /\
  lock_key (item_id self n) <> item_id self m.
Proof.
  split; [split; [exact (item_id_inj self n m)|intros ->; reflexivity]|].
  split.
  { split; [|intros ->; reflexivity]. unfold lock_key. intros H.
    injection H as H.
    change (pretty n +:+ "_" +:+ keySuffix self = pretty m +:+ "_" +:+ keySuffix self) in H.
    apply append_inj_r in H. by apply (inj pretty). }
  split; [unfold item_id, size_key; cbn; discriminate|].
  split; [apply lock_key_not_size|].
  unfold lock_key, item_id. cbn. discriminate.
Qed.

End AuthAndKeys.

(** ** Reuse of a released connection *)

Section Reuse.
Import SocketPool Apn.

Lemma cache_step_quiet {X : Type} (ev : event X) (w : World) :
  faults w = [] -> faults (cache_step ev w).2 = [].
Proof.
  destruct w as [c f i r fa wi]. cbn [faults]. intros ->.
  destruct ev as [key|key v time|key v time|key delta init|key delta|key| | | | |];
    cbn; try done.
  - by destruct (c !! key).
  - by destruct (c !! key) as [[old|b|cn]|].
  - by destruct (c !! key) as [[old|b|cn]|].
Qed.

(** Without faults every [get] of a log is answered with what the cache
    holds when it is asked. *)
Lemma exec_reads {R : Type} (p : prog R) : forall (w : World) t o w' pre key r post,
  faults w = [] ->
  exec seq_cache p w = (t, o, w') -> t = pre ++ E_get key r :: post ->
  exists c1, replay pre (cache w) c1 /\ r = inr (c1 !! key).
Proof.
  induction p as [a|e|X ev k IH]; intros w t o w' pre key r post Hq.
  - cbn. intros [= <- <- <-] Ht. by destruct pre.
  - cbn. intros [= <- <- <-] Ht. by destruct pre.
  - cbn [exec]. unfold seq_cache at 1.
    pose proof (cache_step_ok ev w) as Hstep.
    pose proof (cache_step_quiet ev w Hq) as Hq1.
    destruct (cache_step ev w) as [x w1] eqn:Hev. cbn [fst snd] in Hstep, Hq1.
    destruct (exec seq_cache (k x) w1) as [[t1 o1] w2] eqn:Hrest.
    intros [= <- <- <-] Ht. destruct pre as [|e pre].
    + cbn [app] in Ht. injection Ht as Hlog _. exists (cache w). split; [done|].
      destruct w as [c f i rr fa wi]. cbn [faults] in Hq. subst f.
      destruct ev; try discriminate Hlog. cbn in Hlog, Hev.
      by simplify_eq.
    + cbn [app] in Ht. injection Ht as Hlog Ht.
      destruct (IH x w1 t1 o1 w2 pre key r post Hq1 Hrest Ht) as (c1 & Hrep & Hr).
      exists c1. split; [|done]. cbn [replay]. exists (cache w1). by rewrite <- Hlog.
Qed.

Lemma exec_saveConnection (self : PooledConnection) (connId : string)
    (c : Connection) (w : World) :
  faults w = [] -> connId <> EmptyString ->
  faults (after (_saveConnection self (Some connId) (Some c)) w) = [] /\
  cache (after (_saveConnection self (Some connId) (Some c)) w)
    = delete (lock_key connId) (<[connId := VConn c]> (cache w)).
Proof.
  destruct w as [ch f i r fa wi]. cbn [faults]. intros -> Hne.
  unfold after, _saveConnection. destruct connId; [done|]. by cbn.
Qed.

(** A run of [settle] is some size adjustments followed by a run of the
    lease attempt or of [unpooled]. *)
Lemma exec_settle_inv {S : Type} (h : handler S) (self : PooledConnection)
    sz av ids s t o s' :
  exec h (settle self sz av ids) s = (t, o, s') ->
  exists pre s1 tl,
    t = pre ++ tl /\ Forall (fun e => orderly self e = true) pre /\
    ((exists avail, exec h (lock_and_fetch self avail) s1 = (tl, o, s')) \/
     exec h (unpooled self) s1 = (tl, o, s')).
Proof.
  unfold settle. destruct ids as [|id ids].
  - unfold memcache_incr. rewrite bind_vis, exec_vis.
    destruct (h _ (MemcacheIncr _ _ 0) s) as [r s1]. rewrite bind_ret. cbn [log].
    destruct (exec h (match r with Some n => _ | None => _ end) s1)
      as [[tl o1] s2] eqn:Hrest.
    intros [= <- <- <-].
    exists [E_incr (size_key self) (if truthy_opt sz then 2 else 1) 0 r], s1, tl.
    split; [done|]. split; [repeat constructor; cbn; by apply bool_decide_eq_true|].
    destruct r as [n|]; [|by right]. destruct (truthy_int (Some n)); [|by right].
    left. by eexists.
  - destruct ((1 <? length (id :: ids))%nat && _).
    + unfold random_random. rewrite bind_vis, exec_vis.
      destruct (h _ RandomRandom s) as [r s1]. rewrite bind_ret. cbn [log].
      destruct (below_2_percent r).
      * unfold memcache_decr. rewrite bind_vis, exec_vis.
        destruct (h _ (MemcacheDecr _ 1) s1) as [[] s2]. rewrite bind_ret. cbn [log].
        destruct (exec h (lock_and_fetch self (id :: ids)) s2) as [[tl o1] s3] eqn:Hrest.
        intros [= <- <- <-].
        exists [E_random r; E_decr (size_key self) 1], s2, tl.
        split; [done|]. split; [repeat constructor; cbn; by apply bool_decide_eq_true|].
        left. by eexists.
      * rewrite bind_ret.
        destruct (exec h (lock_and_fetch self (id :: ids)) s1) as [[tl o1] s3] eqn:Hrest.
        intros [= <- <- <-]. exists [E_random r], s1, tl.
        split; [done|]. split; [by repeat constructor|]. left. by eexists.
    + intros Hrun. exists [], s, t. split; [done|]. split; [done|]. left. by eexists.
Qed.

(** A lease attempt that returns a slot id has locked it and returns what
    lines 199-207 made of the payload read. *)
Lemma exec_lock_and_fetch_inv {S : Type} (h : handler S) (self : PooledConnection)
    avail s t connId c s' :
  exec h (lock_and_fetch self avail) s = (t, Returned (Some connId, c), s') ->
  exists fut s3 tf,
    t = E_choice avail connId :: E_get connId fut
          :: E_add (lock_key connId) (VBool true) 60 true :: tf /\
    exec h (fetch_or_create self fut) s3 = (tf, Returned c, s').
Proof.
  unfold lock_and_fetch. destruct avail as [|a avail]; [done|].
  cbn [random_choice]. rewrite bind_vis, exec_vis.
  destruct (h _ (RandomChoice (a :: avail)) s) as [k s1]. rewrite bind_ret.
  unfold memcache_get, memcache_add. rewrite bind_vis, exec_vis.
  destruct (h _ (MemcacheGet k) s1) as [fut s2]. rewrite bind_ret.
  rewrite bind_vis, exec_vis.
  destruct (h _ (MemcacheAdd (lock_key k) (VBool true) 60) s2) as [locked s3].
  rewrite bind_ret. destruct locked.
  - rewrite exec_bind, exec_catch.
    destruct (exec h (fetch_or_create self fut) s3) as [[t1 o1] s4] eqn:Hf.
    destruct o1 as [c1|e].
    + cbn. intros [= <- <- <- <-]. exists fut, s3, t1. by rewrite app_nil_r.
    + unfold memcache_delete. rewrite bind_vis, exec_vis.
      destruct (h _ (MemcacheDelete (lock_key k)) s4) as [[] s5]. by rewrite bind_ret.
  - unfold memcache_incr. rewrite bind_vis, exec_vis.
    destruct (h _ (MemcacheIncr (size_key self) 1 0) s3) as [r s4]. rewrite bind_ret.
    rewrite exec_bind.
    destruct (exec_getNewConnection h self s4) as (rc & s5 & ->). by destruct rc.
Qed.

(** X12.  Alone with a cache that does not fail, a connection stored by
    [_saveConnection] under a slot is the one the next call of
    [_findConnection] returns when it returns that slot, provided it is
    not closed; that call creates no connection. *)
Theorem released_connection_is_reused (self : PooledConnection) (n : Z)
    (c : Connection) (w : World) t c' w' :
  faults w = [] -> closed c = false ->
  exec seq_cache (_findConnection self)
       (after (_saveConnection self (Some (item_id self n)) (Some c)) w)
    = (t, Returned (Some (item_id self n), c'), w') ->
  c' = c /\ Forall (fun e => is_newconn e = false) t.
Proof.
  intros Hq Hopen Hrun.
  destruct (exec_saveConnection self (item_id self n) c w Hq) as [Hq1 Hc1]; [done|].
  pose proof Hrun as Hsplit. unfold _findConnection in Hsplit.
  apply exec_bind_inv in Hsplit
    as [(e & _ & [=])|(t1 & [[sz av] ids] & s1 & t2 & Hp & Hs & ->)].
  apply probe_orderly in Hp.
  apply exec_settle_inv in Hs as (pre & s2 & tl & -> & Hpre & [[avail Hl]|Hu]).
  2:{ destruct (exec_unpooled seq_cache self s2) as (rc & s3 & Hu').
      rewrite Hu' in Hu. by destruct rc. }
  apply exec_lock_and_fetch_inv in Hl as (fut & s3 & tf & -> & Hf).
  assert (Hord : Forall (fun e => orderly self e = true) (t1 ++ pre))
    by (apply Forall_app; by split).
  rewrite app_assoc in Hrun |- *.
  destruct (exec_reads _ _ _ _ _ ((t1 ++ pre) ++ [E_choice avail (item_id self n)])
              (item_id self n) fut
              (E_add (lock_key (item_id self n)) (VBool true) 60 true :: tf) Hq1 Hrun)
    as (c1 & Hrep & ->); [apply (app_assoc _ [_])|].
  apply replay_app in Hrep as (c2 & Hrep & Hch). cbn in Hch. destruct Hch as (? & -> & ->).
  apply (replay_untouched (item_id self n)) in Hrep.
  2:{ eapply Forall_impl; [exact Hord|].
      intros [key [?|?]|?|? ? ? [|]|key ? ? [?|]|key ?|?|?|?|?|? ? [?|?]|?]; cbn;
        try done; intros Hk%bool_decide_eq_true; subst key;
        apply bool_decide_eq_false; unfold item_id, size_key; cbn; discriminate. }
  rewrite Hrep, Hc1, lookup_delete_ne, lookup_insert_eq in Hf
    by (unfold lock_key, item_id; cbn; discriminate).
  apply orderly_facts in Hord as (_ & Hnew & _).
  unfold fetch_or_create in Hf. cbn in Hf. rewrite Hopen in Hf. cbn in Hf.
  injection Hf as <- <- <-. split; [done|].
  apply Forall_app. split; [done|]. by repeat constructor.
Qed.

Lemma released_connection_is_reused_witness :
  exists t w',
    exec seq_cache (_findConnection self0)
         (after (_saveConnection self0 (Some (item_id self0 0)) (Some (Conn 7 false)))
                (after (_findConnection self0) fresh_world))
      = (t, Returned (Some (item_id self0 0), Conn 7 false), w') /\
    Forall (fun e => is_newconn e = false) t.
Proof.
  eexists _, _. split; [by vm_compute|].
  refine (proj2 (released_connection_is_reused self0 0 (Conn 7 false)
            (after (_findConnection self0) fresh_world) _ _ _ _ _ _));
    by vm_compute.
Defined.
End Reuse.

(** ** Delivery *)

Section Delivery.
Import SocketPool Apn.

Lemma sends_accepted (self : PooledConnection) c reqs t o :
  sends self c reqs t o ->
  (inr <$> accepted t) `prefix_of` frames reqs /\
  forall r, o = Returned r -> r.2 = true /\ inr <$> accepted t = frames reqs.
Proof.
  unfold frames, accepted.
  induction 1 as [c|c reqs t o _ [IHp IHr]|c token payload reqs e Hp
                  |c token payload msg reqs t o Hp _ [IHp IHr]
                  |c token payload msg reqs e Hp He
                  |c c' token payload msg reqs e t o Hp He _ [IHp IHr]
                  |c c' token payload msg reqs e e2 Hp He
                  |c token payload msg reqs e e2 Hp He];
    cbn [omap list_omap fmap list_fmap id fst snd option_fmap option_map];
    try rewrite Hp; try (split; [apply prefix_nil|done]).
  - split; [done|]. by intros r [= <-].
  - by split.
  - split; [by apply prefix_cons|]. intros r Hr. destruct (IHr r Hr) as [? ->]. done.
  - split; [by apply prefix_cons|]. intros r Hr. destruct (IHr r Hr) as [? ->]. done.
Qed.

(** X13.  The frames [communicate] has written without error are, in
    order, the frames of the first requests that are not skipped, each
    once; when it returns, they are the frames of all of them and the
    result is [True]. *)
Theorem communicate_delivers_in_order {S : Type} (h : handler S) (self : APNSender)
    (c : Connection) (s : S) t o s' :
  exec h (communicate self c) s = (t, o, s') ->
  (inr <$> accepted t) `prefix_of` frames (requests self) /\
  forall r, o = Returned r -> r.2 = true /\ inr <$> accepted t = frames (requests self).
Proof. intros Hrun. apply exec_send_all in Hrun. by eapply sends_accepted. Qed.

End Delivery.

(** ** From a request to its frame *)

Section RequestsMore.
Import SocketPool Apn.

Lemma ord_byte_of_Z (n : Z) : 0 <= n < 256 -> Apn.ord (byte_of_Z n) = n.
Proof.
  intros Hn. unfold Apn.ord, byte_of_Z.
  destruct (Byte.of_N (Z.to_N n)) as [b|] eqn:Hb.
  - apply Byte.to_of_N in Hb. lia.
  - apply Byte.of_N_None_iff in Hb. lia.
Qed.

Lemma unhexlify_bytes_length (n : nat) : forall bs r,
  (length bs <= n)%nat -> unhexlify_bytes bs = Some r ->
  length bs = (2 * length r)%nat.
Proof.
  induction n as [|n IH]; intros [|hi [|lo rest]] r Hn; cbn [unhexlify_bytes length] in *;
    try lia; try (by intros [= <-]); try done.
  destruct (unhex_digit hi) as [h|]; [|done]. destruct (unhex_digit lo) as [l|]; [|done].
  cbn [mbind option_bind]. destruct (unhexlify_bytes rest) as [r'|] eqn:Hr; [|done].
  cbn. intros [= <-]. cbn [length]. rewrite (IH rest r'); [lia|lia|done].
Qed.

Lemma unhexlify_length (token : pystr) (tok : list byte) :
  unhexlify token = inr tok -> pystr_length token = (2 * length tok)%nat.
Proof.
  unfold unhexlify. destruct token as [bs|cps]; cbn [pystr_length].
  - destruct (unhexlify_bytes bs) as [r|] eqn:Hr; [|done]. intros [= <-].
    by eapply unhexlify_bytes_length.
  - unfold ascii_encode. destruct (forallb _ cps); [|done].
    destruct (unhexlify_bytes _) as [r|] eqn:Hr; [|done]. intros [= <-].
    apply (unhexlify_bytes_length _ _ _ (le_n _)) in Hr. by rewrite length_fmap in Hr.
Qed.

(** X14.  A request that [getNotifRequest] returns is one [communicate]
    can frame: the token is the decoding of the hexadecimal string, half
    as long; the payload has at most 256 bytes; [struct.pack] accepts the
    two, and the frame has 37 bytes more than the payload, its length
    field holds the length of the payload, the payload ends it, and a
    token given as 64 hexadecimal digits is carried in it unchanged. *)
Theorem request_is_packable token message badge sound context hasContent
    (tok payload : list byte) :
  getNotifRequest token message badge sound context hasContent
    = inr (Some (tok, payload)) ->
  unhexlify token = inr tok /\
  pystr_length token = (2 * length tok)%nat /\
  (length payload <= 256)%nat /\
  exists msg,
    pack_frame tok payload = inr msg /\
    length msg = (37 + length payload)%nat /\
    Apn.ord <$> take 2 (drop 35 msg)
      = [Z.of_nat (length payload) / 256; Z.of_nat (length payload) mod 256] /\
    drop 37 msg = payload /\
    (pystr_length token = 64%nat -> take 32 (drop 3 msg) = tok).
Proof.
  rewrite getNotifRequest_after_encoding.
  destruct (encode_payload _ _ _ _ _) as [e|p]; [done|].
  destruct (256 <? length p)%nat eqn:Hlen; [done|]. apply Nat.ltb_ge in Hlen.
  destruct (unhexlify token) as [e|tk] eqn:Hu; [done|]. intros [= -> ->].
  pose proof (unhexlify_length _ _ Hu) as Htok.
  split; [done|]. split; [done|]. split; [done|].
  unfold pack_frame, pack_H.
  replace ((0 <=? 32) && (32 <=? 65535)) with true by done.
  replace ((0 <=? Z.of_nat (length payload)) && (Z.of_nat (length payload) <=? 65535))
    with true by (symmetry; apply andb_true_iff; split; apply Z.leb_le; lia).
  eexists. split; [done|].
  assert (H32 : length (pack_32s tok) = 32%nat).
  { unfold pack_32s. rewrite length_app, length_take, length_replicate. lia. }
  split; [cbn [app length]; rewrite !length_app, H32; cbn [length]; lia|].
  split.
  { change 35%nat with (3 + 32)%nat. rewrite <- drop_drop. cbn [app drop]. rewrite drop_0.
    rewrite drop_app_length' by done. cbn.
    rewrite !ord_byte_of_Z; [done| |]; [apply Z.mod_pos_bound|]; try lia.
    split; [apply Z.div_pos; lia|apply Z.div_lt_upper_bound; lia]. }
  split.
  { change 37%nat with (3 + (32 + 2))%nat. rewrite <- drop_drop. cbn [app drop].
    rewrite drop_0, <- drop_drop, drop_app_length' by done. done. }
  intros H64. cbn [app drop]. rewrite drop_0, take_app_length' by done.
  unfold pack_32s. rewrite take_ge by lia. replace (32 - length tok)%nat with 0%nat by lia.
  cbn. apply app_nil_r.
Qed.

Lemma request_is_packable_witness :
  exists tok payload,
    getNotifRequest (str_lit "ab01") (str_lit "hello") None
                    (Some (str_lit "default")) None true = inr (Some (tok, payload)) /\
    unhexlify (str_lit "ab01") = inr tok /\ (length payload <= 256)%nat.
Proof.
  eexists _, _. split; [by vm_compute|].
  pose proof (request_is_packable (str_lit "ab01") (str_lit "hello") None
                (Some (str_lit "default")) None true _ _ eq_refl) as (Hu & _ & Hlen & _).
  by split.
Defined.

End RequestsMore.

(** ** The room for a message *)

Section Budget.
Import SocketPool Apn.

Ltac decide_keys :=
  repeat match goal with
  | |- context [list_Z_eqb ?a ?b] =>
      let v := eval vm_compute in (list_Z_eqb a b) in
      change (list_Z_eqb a b) with v
  | |- context [ascii_decode ?a] =>
      let v := eval vm_compute in (ascii_decode a) in
      change (ascii_decode a) with v
  | |- context [list_ascii_of_string ?a] =>
      let v := eval vm_compute in (list_ascii_of_string a) in
      change (list_ascii_of_string a) with v
  end.

Lemma utf8_encode_app (a b : list Z) :
  utf8_encode (a ++ b) = utf8_encode a ++ utf8_encode b.
Proof. apply bind_app. Qed.

(** With the default options the payload is the alert text, escaped and
    encoded, inside 60 bytes of JSON. *)
Lemma default_payload_length (cps : list Z) :
  exists p,
    encode_payload (Unicode cps) None (Some (str_lit "default")) None true = inr p /\
    length p = (60 + length (utf8_encode (cps ≫= escape_char)))%nat.
Proof.
  unfold encode_payload. do 4 (cbn; decide_keys).
  eexists. split; [done|].
  match goal with
  | |- context [?l ≫= utf8_encode1] =>
      change (l ≫= utf8_encode1) with (utf8_encode l)
  end.
  rewrite !utf8_encode_app.
  generalize (utf8_encode (cps ≫= escape_char)). intros body.
  simpl. rewrite !length_app. simpl. lia.
Qed.

Lemma plain_escape (cps : list Z) :
  Forall (fun c => plain c = true) cps -> cps ≫= escape_char = cps.
Proof.
  induction 1 as [|c cps Hc _ IH]; [done|].
  change (escape_char c ++ (cps ≫= escape_char) = c :: cps). rewrite IH.
  unfold plain in Hc.
  apply andb_true_iff in Hc as [Hc H92]. apply andb_true_iff in Hc as [Hc H34].
  apply andb_true_iff in Hc as [Hlo Hhi].
  apply negb_true_iff in H92, H34. apply Z.leb_le in Hlo.
  assert (Hesc : escape_char c = [c]); [|by rewrite Hesc].
  unfold escape_char. change (code "\") with 92. rewrite H92, H34.
  rewrite !(proj2 (Z.eqb_neq c _)) by lia.
  by rewrite (proj2 (Z.ltb_ge c 32)) by lia.
Qed.

Lemma plain_utf8_length (cps : list Z) :
  Forall (fun c => plain c = true) cps -> length (utf8_encode cps) = length cps.
Proof.
  induction 1 as [|c cps Hc _ IH]; [done|].
  change (length (utf8_encode1 c ++ utf8_encode cps) = S (length cps)).
  rewrite length_app, IH. unfold plain in Hc. unfold utf8_encode1.
  apply andb_true_iff in Hc as [Hc _]. apply andb_true_iff in Hc as [Hc _].
  apply andb_true_iff in Hc as [_ ->]. done.
Qed.

Lemma plain_utf8_decode (cps : list Z) :
  Forall (fun c => plain c = true) cps -> utf8_decode (byte_of_Z <$> cps) = Some cps.
Proof.
  induction 1 as [|c cps Hc _ IH]; [done|]. cbn [fmap list_fmap utf8_decode].
  change (list_fmap Z byte byte_of_Z cps) with (byte_of_Z <$> cps). rewrite IH.
  unfold plain in Hc.
  apply andb_true_iff in Hc as [Hc _]. apply andb_true_iff in Hc as [Hc _].
  apply andb_true_iff in Hc as [Hlo Hhi]. apply Z.leb_le in Hlo.
  pose proof Hhi as Hhi'. apply Z.ltb_lt in Hhi'.
  rewrite ord_byte_of_Z by lia. by rewrite Hhi.
Qed.

(** X15.  With the default options ([badge=None], [sound='default'], no
    context, [hasContent=True]) and a valid token, a message of [n] ASCII
    characters that JSON does not escape, given as [unicode] or as [str],
    makes a payload of exactly [60 + n] bytes: the request is built when
    [n <= 196], and [False] is returned for every longer message. *)
Theorem default_request_fits (token message : pystr) (cps : list Z) (tok : list byte) :
  Forall (fun c => plain c = true) cps ->
  message = Unicode cps \/ message = Str (byte_of_Z <$> cps) ->
  unhexlify token = inr tok ->
  match getNotifRequest token message None (Some (str_lit "default")) None true with
  | inr (Some (tok', payload)) =>
      tok' = tok /\ length payload = (60 + length cps)%nat /\ (length cps <= 196)%nat
  | inr None => (196 < length cps)%nat
  | inl _ => False
  end.
Proof.
  intros Hplain Hmsg Htok. rewrite getNotifRequest_after_encoding.
  assert (Henc : encode_payload message None (Some (str_lit "default")) None true
                 = encode_payload (Unicode cps) None (Some (str_lit "default")) None true).
  { destruct Hmsg as [-> | ->]; [done|].
    unfold encode_payload. by rewrite plain_utf8_decode. }
  rewrite Henc. destruct (default_payload_length cps) as (p & -> & Hlen).
  rewrite plain_escape, plain_utf8_length in Hlen by done.
  rewrite Htok. destruct (256 <? length p)%nat eqn:Hcmp.
  - apply Nat.ltb_lt in Hcmp. lia.
  - apply Nat.ltb_ge in Hcmp. split; [done|]. split; [done|]. lia.
Qed.

Lemma default_request_fits_witness :
  match getNotifRequest (str_lit "ab01") (str_lit "hello") None
                        (Some (str_lit "default")) None true with
  | inr (Some (tok', payload)) =>
      tok' = [xab; x01] /\ length payload = 65%nat /\ (5 <= 196)%nat
  | inr None => (196 < 5)%nat
  | inl _ => False
  end.
Proof.
  apply (default_request_fits (str_lit "ab01") (str_lit "hello")
           [104; 101; 108; 108; 111] [xab; x01]).
  - by repeat constructor.
  - by right.
  - reflexivity.
Defined.

End Budget.

(** ** Slots probed and slots leased *)

Section ProbeRange.
Import SocketPool Apn.

Lemma exec_draws {R : Type} (p : prog R) : forall (w : World) t o w',
  exec seq_cache p w = (t, o, w') -> Forall draw_ok t.
Proof.
  induction p as [r|e|X ev k IH]; intros w t o w'.
  - cbn. by intros [= <- <- <-].
  - cbn. by intros [= <- <- <-].
  - cbn [exec]. unfold seq_cache at 1.
    destruct (cache_step ev w) as [x w1] eqn:Hev.
    destruct (exec seq_cache (k x) w1) as [[t1 o1] w2] eqn:Hrest.
    intros [= <- <- <-]. constructor; [|by eapply IH].
    destruct ev; try done; cbn in Hev |- *; injection Hev as <- _.
    + intros Hab. pose proof (Z.mod_pos_bound (hd 0 (ints w)) (b - a + 1)). lia.
    + intros Hne. apply list_elem_of_In, nth_In.
      assert (0 < length seq)%nat by (destruct seq; [done|cbn; lia]).
      pose proof (Z.mod_pos_bound (hd 0 (ints w)) (Z.of_nat (length seq))). lia.
Qed.

Lemma elem_of_range (a b k : Z) : k ∈ range a b -> a <= k < b.
Proof.
  unfold range. intros (i & -> & Hi%elem_of_seq)%list_elem_of_fmap. lia.
Qed.

Lemma probe_in_pool (self : PooledConnection) (w : World) t sz av ids w' :
  exec seq_cache (probe self) w = (t, Returned (sz, av, ids), w') ->
  forall connId, connId ∈ av.*1 ->
    exists n k, sz ≫= int_of = Some n /\ connId = item_id self k /\ 0 <= k < n.
Proof.
  intros Hrun. pose proof (exec_draws _ _ _ _ _ Hrun) as Hdraws.
  apply exec_probe in Hrun as [_ Hp].
  destruct (Hp sz av ids eq_refl) as (pre & numbers & -> & Hwin & Hav & _).
  rewrite Hav. intros connId (k & -> & Hk)%list_elem_of_fmap.
  destruct Hwin as [(_ & _ & ->)|(n & _ & Hn & [(_ & _ & ->)|(Hgt & index & -> & ->)])].
  - by apply elem_of_nil in Hk.
  - exists n, k. split; [done|]. split; [done|]. by apply elem_of_range.
  - exists n, k. split; [done|]. split; [done|]. apply elem_of_range in Hk.
    apply Forall_cons in Hdraws as [_ Hdraws]. apply Forall_cons in Hdraws as [Hd _].
    cbn in Hd. lia.
Qed.

(** X16.  Alone with the cache, the slots whose locks a probe asks for
    are slots of the pool: their numbers are at least 0 and below the
    size that was read. *)
Theorem probe_stays_in_pool (self : PooledConnection) (w : World) t sz av ids w' :
  exec seq_cache (probe self) w = (t, Returned (sz, av, ids), w') ->
  forall connId, connId ∈ av.*1 ->
    exists n k, sz ≫= int_of = Some n /\ connId = item_id self k /\ 0 <= k < n.
Proof. apply probe_in_pool. Qed.

Lemma probe_stays_in_pool_witness :
  exists n k, Some (VInt 11) ≫= int_of = Some n /\
              item_id self0 10 = item_id self0 k /\ 0 <= k < n.
Proof.
  refine (probe_stays_in_pool self0 wide_world _ _ _ _ _ _ (item_id self0 10) _).
  - by vm_compute.
  - vm_compute. do 9 right. left.
Defined.

(** The size a growth step answers covers the ids it adds. *)
Lemma growth_covers (self : PooledConnection) (w : World) t1 sz av ids w1
    (c c' : gmap string value) n :
  exec seq_cache (probe self) w = (t1, Returned (sz, av, ids), w1) ->
  replay t1 c c' ->
  step_ok (E_incr (size_key self) (increment_for sz) 0 (Some n)) c' (<[size_key self := VInt (Z.to_N n)]> c') ->
  increment_for sz <= n.
Proof.
  intros Hp Hrep Hstep.
  apply exec_probe in Hp as [Hread Hp].
  destruct (Hp sz av ids eq_refl) as (pre & numbers & Ht & _).
  assert (Hsame : c' !! size_key self = c !! size_key self).
  { eapply replay_untouched; [done|]. eapply Forall_impl; [exact Hread|]. by intros []. }
  subst t1. cbn [app replay step_ok] in Hrep. destruct Hrep as (c1 & [-> Hget] & _).
  cbn [step_ok] in Hstep. destruct Hstep as (_ & Hn & [[Hnone ->]|(old & Hold & ->)]).
  - unfold increment_for. destruct sz as [v|]; cbn [truthy_opt].
    + rewrite Hsame, (Hget v eq_refl) in Hnone. done.
    + lia.
  - unfold increment_for. destruct sz as [v|]; cbn [truthy_opt]; [|lia].
    destruct (truthy v); lia.
Qed.

Lemma leased_id (self : PooledConnection) (w : World) t connId c w' :
  exec seq_cache (_findConnection self) w = (t, Returned (Some connId, c), w') ->
  exists n, 0 <= n /\ connId = item_id self n.
Proof.
  intros Hrun. pose proof (exec_draws _ _ _ _ _ Hrun) as Hdraws.
  pose proof (exec_replay _ _ _ _ _ Hrun) as Hrep.
  apply exec_findConnection in Hrun
    as [(e & _ & [=])|(t1 & sz & av & ids & s1 & t2 & Hp & Hs & ->)].
  apply Forall_app in Hdraws as [_ Hdraws].
  apply replay_app in Hrep as (c1 & Hrep1 & Hrep2).
  assert (Hpick : forall avail tl,
            lease_trace self avail tl (Returned (Some connId, c)) ->
            Forall draw_ok tl -> connId ∈ avail).
  { intros avail tl Hl Hd.
    inversion Hl as [|k fut tf c0 Hne Hf|k fut tf e Hne Hf|k fut r rc Hne Heq Hrc]; subst.
    - apply Forall_cons in Hd as [Hd _]. by apply Hd.
    - by destruct rc. }
  assert (Hids : forall k, k ∈ ids -> exists n, 0 <= n /\ k = item_id self n).
  { intros k Hk. pose proof Hp as Hp'. apply exec_probe in Hp' as [_ Hp'].
    destruct (Hp' sz av ids eq_refl) as (_ & _ & _ & _ & _ & -> & _).
    destruct (probe_in_pool _ _ _ _ _ _ _ Hp k) as (n & i & _ & -> & Hi).
    - eapply elem_of_sublist; [exact Hk|]. apply fmap_sublist, sublist_filter.
    - exists i. split; [lia|done]. }
  inversion Hs as [n tl o' _ Hn Hl|r rc _ _ Heq Hrc|r tl o' _ _ Hl|r tl o' _ _ Hl|tl o' _ _ Hl];
    subst.
  - apply Forall_cons in Hdraws as [_ Hdraws].
    apply Hpick in Hl; [|done]. unfold new_ids in Hl.
    apply list_elem_of_fmap in Hl as (i & -> & Hi%elem_of_range).
    exists (n - 1 - i). split; [|done].
    cbn [replay] in Hrep2. destruct Hrep2 as (c2 & Hstep & _).
    pose proof Hstep as Hc2. cbn [step_ok] in Hc2. destruct Hc2 as [-> _].
    pose proof (growth_covers _ _ _ _ _ _ _ _ _ _ Hp Hrep1 Hstep). lia.
  - by destruct rc.
  - apply Forall_cons in Hdraws as [_ Hdraws]. apply Forall_cons in Hdraws as [_ Hdraws].
    apply Hids. by eapply Hpick.
  - apply Forall_cons in Hdraws as [_ Hdraws]. apply Hids. by eapply Hpick.
  - apply Hids. by eapply Hpick.
Qed.

(** X17.  Alone with the cache, an id that [_findConnection] returns is
    the key of a slot: [poolItem_<n>_TLSConnection_<poolName>] for a
    number [n] that is not negative. *)
Theorem leased_id_is_a_slot (self : PooledConnection) (w : World) t connId c w' :
  exec seq_cache (_findConnection self) w = (t, Returned (Some connId, c), w') ->
  exists n, 0 <= n /\ connId = item_id self n.
Proof. apply leased_id. Qed.

Lemma leased_id_is_a_slot_witness : exists n, 0 <= n /\ item_id self0 0 = item_id self0 n.
Proof.
  refine (leased_id_is_a_slot self0 fresh_world _ (item_id self0 0) _ _ _).
  by vm_compute.
Defined.

End ProbeRange.

(** ** A whole run *)

Section RoundTrip.
Import SocketPool Apn.

Lemma exec_quiet {R : Type} (p : prog R) : forall (w : World) t o w',
  faults w = [] -> exec seq_cache p w = (t, o, w') -> faults w' = [].
Proof.
  induction p as [r|e|X ev k IH]; intros w t o w' Hq.
  - cbn. by intros [= <- <- <-].
  - cbn. by intros [= <- <- <-].
  - cbn [exec]. unfold seq_cache at 1.
    pose proof (cache_step_quiet ev w Hq) as Hq1.
    destruct (cache_step ev w) as [x w1]. cbn [snd] in Hq1.
    destruct (exec seq_cache (k x) w1) as [[t1 o1] w2] eqn:Hrest.
    intros [= <- <- <-]. by eapply IH.
Qed.

Lemma sends_leave_cache (self : PooledConnection) c reqs t o :
  sends self c reqs t o -> forall k, Forall (fun e => touches k e = false) t.
Proof. induction 1; intros k; by repeat constructor. Qed.

(** X18.  Alone with a cache that does not fail, a run of [runAsync]
    that returns leaves the slot it leased free and holding the
    connection [communicate] ended with, and every other entry of the
    cache as the lease left it; a run that was served without a slot
    leaves the cache as the lease left it. *)
Theorem send_frees_its_slot (self : APNSender) (w : World) t r w' :
  faults w = [] ->
  exec seq_cache (send self) w = (t, Returned r, w') ->
  exists tf connId conn w1 tc conn' w2,
    exec seq_cache (_findConnection (pool self)) w = (tf, Returned (connId, conn), w1) /\
    exec seq_cache (communicate self conn) w1 = (tc, Returned (conn', r), w2) /\
    match connId with
    | Some k =>
        cache w' !! lock_key k = None /\
        cache w' !! k = Some (VConn conn') /\
        forall q, q <> k -> q <> lock_key k -> cache w' !! q = cache w1 !! q
    | None => cache w' = cache w1
    end.
Proof.
  intros Hq Hrun. unfold send, runAsync in Hrun.
  apply exec_bind_inv in Hrun
    as [(e & _ & [=])|(tf & [connId conn] & w1 & t2 & Hf & Hrun & ->)].
  apply exec_bind_inv in Hrun
    as [(e & _ & [=])|(tc & [conn' r'] & w2 & t3 & Hc & Hrun & ->)].
  apply exec_bind_inv in Hrun
    as [(e & _ & [=])|(ts & [] & w3 & t4 & Hs & Hret & ->)].
  cbn in Hret. injection Hret as <- <- <-.
  exists tf, connId, conn, w1, tc, conn', w2. split; [done|]. split; [done|].
  pose proof (exec_quiet _ _ _ _ _ Hq Hf) as Hq1.
  pose proof (exec_quiet _ _ _ _ _ Hq1 Hc) as Hq2.
  assert (Hsame : cache w2 = cache w1).
  { apply map_eq. intros k. eapply replay_untouched; [by eapply exec_replay|].
    apply exec_send_all in Hc. by eapply sends_leave_cache. }
  destruct connId as [k|].
  - destruct (leased_id _ _ _ _ _ _ Hf) as (n & _ & ->).
    destruct (exec_saveConnection (pool self) (item_id (pool self) n) conn' w2 Hq2)
      as [_ Hcache]; [done|].
    unfold after in Hcache. rewrite Hs in Hcache. cbn [snd] in Hcache.
    rewrite Hcache, Hsame. split; [by rewrite lookup_delete_eq|].
    split.
    + rewrite lookup_delete_ne, lookup_insert_eq; [done|].
      unfold lock_key, item_id. cbn. discriminate.
    + intros q Hk Hl. by rewrite lookup_delete_ne, lookup_insert_ne.
  - cbn in Hs. injection Hs as _ <-. done.
Qed.

Lemma send_frees_its_slot_witness :
  exists tf connId conn w1 tc conn' w2,
    exec seq_cache (_findConnection (pool sender0)) flaky_world
      = (tf, Returned (connId, conn), w1) /\
    exec seq_cache (communicate sender0 conn) w1 = (tc, Returned (conn', true), w2) /\
    match connId with
    | Some k =>
        cache (after (send sender0) flaky_world) !! lock_key k = None /\
        cache (after (send sender0) flaky_world) !! k = Some (VConn conn') /\
        forall q, q <> k -> q <> lock_key k ->
          cache (after (send sender0) flaky_world) !! q = cache w1 !! q
    | None => cache (after (send sender0) flaky_world) = cache w1
    end.
Proof.
  apply (send_frees_its_slot sender0 flaky_world
           (exec seq_cache (send sender0) flaky_world).1.1); [reflexivity|].
  unfold after. by vm_compute.
Defined.

End RoundTrip.

(** ** The properties above at work *)

Section Witnesses.
Import SocketPool Apn.

Lemma lease_provenance_witness :
  Forall (fun e => releases e = false)
         (exec seq_cache (_findConnection self0) fresh_world).1.1 /\
  In (E_add (lock_key (slot 0)) (VBool true) 60 true)
     (exec seq_cache (_findConnection self0) fresh_world).1.1 /\
  (In (E_get (slot 0) (inr (Some (VConn (Conn 0 false)))))
      (exec seq_cache (_findConnection self0) fresh_world).1.1 /\
   closed (Conn 0 false) = false /\
   Forall (fun e => is_newconn e = false)
          (exec seq_cache (_findConnection self0) fresh_world).1.1
   \/ In (E_newconn (host self0) (port self0) (inr (Conn 0 false)))
         (exec seq_cache (_findConnection self0) fresh_world).1.1).
Proof.
  apply (lease_provenance seq_cache self0 fresh_world _ (Some (slot 0)) (Conn 0 false)
           (exec seq_cache (_findConnection self0) fresh_world).2).
  by vm_compute.
Defined.

Lemma lease_is_exclusive_witness :
  cache fresh_world !! lock_key (slot 0) = None /\
  cache (after (_findConnection self0) fresh_world) !! lock_key (slot 0)
    = Some (VBool true) /\
  forall t2 connId2 c2 w2,
    exec seq_cache (_findConnection self0) (after (_findConnection self0) fresh_world)
      = (t2, Returned (Some connId2, c2), w2) ->
    connId2 <> slot 0.
Proof.
  apply (lease_is_exclusive self0 fresh_world
           (exec seq_cache (_findConnection self0) fresh_world).1.1 (slot 0) (Conn 0 false)).
  by vm_compute.
Defined.


Lemma shrink_keeps_one_slot_witness :
  1 <= size_of self0 (cache (after (_findConnection self0) wide_world)).
Proof. apply (shrink_keeps_one_slot self0 wide_world). by vm_compute. Defined.

Lemma failed_send_releases_nothing_witness :
  Forall (fun x => releases x = false) (exec seq_cache (send sender0) broken_world).1.1 /\
  exists tc,
    (exec seq_cache (send sender0) broken_world).1.1
      = (exec seq_cache (_findConnection (pool sender0)) broken_world).1.1 ++ tc /\
    exec seq_cache (communicate sender0 (Conn 0 false))
         (after (_findConnection (pool sender0)) broken_world)
      = (tc, Raised (IOError 32), after (send sender0) broken_world).
Proof.
  apply (failed_send_releases_nothing seq_cache sender0 broken_world _ (Some (slot 0))).
  - by vm_compute.
  - by vm_compute.
Defined.

Lemma communicate_delivers_in_order_witness :
  (inr <$> accepted (exec seq_cache (communicate sender0 (Conn 0 false)) flaky_world).1.1)
    `prefix_of` frames (requests sender0) /\
  forall r, Returned (Conn 1 false, true) = Returned r ->
    r.2 = true /\
    inr <$> accepted (exec seq_cache (communicate sender0 (Conn 0 false)) flaky_world).1.1
      = frames (requests sender0).
Proof.
  apply (communicate_delivers_in_order seq_cache sender0 (Conn 0 false) flaky_world _ _
           (exec seq_cache (communicate sender0 (Conn 0 false)) flaky_world).2).
  by vm_compute.
Defined.

End Witnesses.
